(** * URL Health Sentinel: a shallow embedding of the monitor and the dashboard

    The repository has two programs that share one Redis database:
    - [src/sentinel/app.py], the monitoring loop ([connect_redis],
      [check_url], [check_urls]);
    - [src/dashboard/app.py], the Flask surface ([add_url], [delete_url],
      [delete_station], ...).

    Both are embedded as computations in a state-and-exception monad over a
    [world] that holds the Redis keyspace, the oracles that stand for the
    environment (Redis faults, HTTP outcomes, clock readings) and the trace of
    observable events. *)

From Stdlib Require Import ZArith QArith DecimalString DecimalPos Ascii String.
From stdpp Require Import gmap strings list fin_maps.

(* ===================================================================== *)
(** * Python: strings, exception classes, the effect monad                *)
(* ===================================================================== *)

Module Py.

(** ** Strings

    A Python [str] is modelled as a [string] whose characters are the code
    points 0..255. *)

(** [str.isspace] on the code points below 256 (CPython's
    [_PyUnicode_IsWhitespace]): TAB..CR, FS..US, SPACE, NEL, NBSP. *)
Definition is_whitespace (a : ascii) : bool :=
  let n := nat_of_ascii a in
  (Nat.leb 9 n && Nat.leb n 13) || (Nat.leb 28 n && Nat.leb n 32)
  || Nat.eqb n 133 || Nat.eqb n 160.

Fixpoint lstrip_by (p : ascii → bool) (s : string) : string :=
  match s with
  | EmptyString => EmptyString
  | String a s' => if p a then lstrip_by p s' else s
  end.

Fixpoint rstrip_by (p : ascii → bool) (s : string) : string :=
  match s with
  | EmptyString => EmptyString
  | String a s' =>
      match rstrip_by p s' with
      | EmptyString => if p a then EmptyString else String a EmptyString
      | t => String a t
      end
  end.

Fixpoint mem_char (a : ascii) (chars : string) : bool :=
  match chars with
  | EmptyString => false
  | String b chars' => Ascii.eqb a b || mem_char a chars'
  end.

(** [s.strip()] *)
Definition strip (s : string) : string :=
  rstrip_by is_whitespace (lstrip_by is_whitespace s).

(** [s.rstrip(chars)] *)
Definition rstrip (s chars : string) : string :=
  rstrip_by (λ a, mem_char a chars) s.

(** [s.startswith((p1, p2, ...))] *)
Definition startswith (s : string) (prefixes : list string) : bool :=
  existsb (λ p, String.prefix p s) prefixes.

(** Truth value of a [str]: only the empty string is falsy. *)
Definition truthy (s : string) : bool :=
  match s with EmptyString => false | String _ _ => true end.

(** Truth value of an optional [str] ([None] is falsy). *)
Definition truthy_opt (o : option string) : bool :=
  match o with None => false | Some s => truthy s end.

(** [str(n)] and [f"{n}"] for an [int]. *)
Definition str_of_int (n : Z) : string :=
  NilZero.string_of_int (Z.to_int n).

(** [int(x)] for a number [x]: truncation toward zero. The float readings of
    the clock are modelled as rationals. *)
Definition int_of_number (x : Q) : Z :=
  Z.quot (Qnum x) (Zpos (Qden x)).

(** [int(s)] for a [str]: white space around the literal (CPython skips
    TAB..CR, SPACE, NEL and NBSP here, and not FS..US), an optional sign, and
    decimal digits with single underscores between them; more than
    [int_max_str_digits] digits are refused. [None] stands for the
    [ValueError]. *)
Definition is_int_space (a : ascii) : bool :=
  let n := nat_of_ascii a in
  (Nat.leb 9 n && Nat.leb n 13) || Nat.eqb n 32 || Nat.eqb n 133
  || Nat.eqb n 160.

Definition digit_of (a : ascii) : option Z :=
  let n := nat_of_ascii a in
  if Nat.leb 48 n && Nat.leb n 57 then Some (Z.of_nat (n - 48)) else None.

(** The digits of a literal, with the value and the number of the digits read
    so far; [after_digit] tells that the last character was a digit, as an
    underscore and the end of the literal require. *)
Fixpoint int_digits (s : string) (value : Z) (count : nat)
  (after_digit : bool) : option (Z * nat) :=
  match s with
  | EmptyString => if after_digit then Some (value, count) else None
  | String a s' =>
      match digit_of a with
      | Some d => int_digits s' (10 * value + d) (S count) true
      | None =>
          if Ascii.eqb a "_" && after_digit
          then int_digits s' value count false
          else None
      end
  end.

Definition int_max_str_digits : nat := 4300.

Definition int_of_str (s : string) : option Z :=
  let s := rstrip_by is_int_space (lstrip_by is_int_space s) in
  let '(negative, literal) :=
    match s with
    | String "-" s' => (true, s')
    | String "+" s' => (false, s')
    | _ => (false, s)
    end in
  match int_digits literal 0 0 false with
  | Some (value, count) =>
      if Nat.ltb int_max_str_digits count then None
      else Some (if negative then (- value)%Z else value)
  | None => None
  end.

(** ** Exception classes

    The classes that the two programs name in an [except] clause, the classes
    below them in [requests.exceptions] and [redis.exceptions], and the
    built-in classes between them and [BaseException]. *)
Inductive pyclass :=
  | BaseException | Exception | KeyboardInterrupt
  | OSError | ValueError | TypeError | AttributeError | MemoryError
  | UnicodeError | ArithmeticError | OverflowError
  (* requests.exceptions *)
  | RequestException | HTTPError
  | requests_ConnectionError | ProxyError | SSLError
  | requests_Timeout | ConnectTimeout | ReadTimeout
  | URLRequired | TooManyRedirects
  | MissingSchema | InvalidSchema | InvalidURL | InvalidHeader
  | ChunkedEncodingError | ContentDecodingError | RetryError
  (* redis.exceptions *)
  | RedisError | redis_ConnectionError | redis_TimeoutError
  | ResponseError | BusyLoadingError | AuthenticationError.

#[global] Instance pyclass_eq_dec : EqDecision pyclass.
Proof. solve_decision. Defined.

(** The direct base classes, as in the class statements of the libraries. *)
Definition bases (c : pyclass) : list pyclass :=
  match c with
  | BaseException => []
  | Exception | KeyboardInterrupt => [BaseException]
  | OSError | ValueError | TypeError | AttributeError | MemoryError
  | ArithmeticError => [Exception]
  | UnicodeError => [ValueError]
  | OverflowError => [ArithmeticError]
  | RequestException => [OSError]
  | HTTPError | requests_ConnectionError | requests_Timeout | URLRequired
  | TooManyRedirects | ChunkedEncodingError | ContentDecodingError
  | RetryError => [RequestException]
  | ProxyError | SSLError => [requests_ConnectionError]
  | ConnectTimeout => [requests_ConnectionError; requests_Timeout]
  | ReadTimeout => [requests_Timeout]
  | MissingSchema | InvalidSchema | InvalidURL | InvalidHeader =>
      [RequestException; ValueError]
  | RedisError => [Exception]
  | redis_ConnectionError | redis_TimeoutError | ResponseError => [RedisError]
  | BusyLoadingError | AuthenticationError => [redis_ConnectionError]
  end.

(** [issubclass c d], by a search of the base classes; the hierarchy is less
    than eight levels deep. *)
Fixpoint issubclass_upto (depth : nat) (c d : pyclass) : bool :=
  bool_decide (c = d) ||
  match depth with
  | O => false
  | S depth' => existsb (λ b, issubclass_upto depth' b d) (bases c)
  end.

Definition issubclass (c d : pyclass) : bool := issubclass_upto 8 c d.

(** A raised exception: an instance of one of the classes above, or the
    [SystemExit] that [sys.exit(code)] raises. The libraries never raise
    [SystemExit]; it derives from [BaseException] only. *)
Inductive exn :=
  | Raised (c : pyclass)
  | SystemExit (code : Z).

Definition isinstance (e : exn) (d : pyclass) : bool :=
  match e with
  | Raised c => issubclass c d
  | SystemExit _ => bool_decide (d = BaseException)
  end.

(** ** The world *)

(** A value stored under a Redis key: a set of strings or a string. *)
Inductive rval :=
  | VSet (members : gset string)
  | VStr (value : string).

(** What [requests.get] does: a response with a status code, or an
    exception. *)
Inductive http_result :=
  | Response (status_code : Z)
  | HttpRaise (c : pyclass).

Inductive loglevel := INFO | WARNING | ERROR | CRITICAL.

(** Observable events, oldest first. A log record keeps its level and the
    literal text of its message; the interpolated values are not kept. *)
Inductive event :=
  | EvLog (level : loglevel) (message : string)
  | EvSleep (seconds : Q)
  | EvGet (url : string) (timeout : Z)
  | EvFlash (category : string).

(** The configuration read from the process environment. *)
Record config := {
  REDIS_HOST : string;
  REDIS_PORT : Z;
  CHECK_INTERVAL : Z;
  REQUEST_TIMEOUT : Z;
}.

(** - [db]: the Redis keyspace (one name space for all keys);
    - [redis_fault n]: the exception, if any, that the [n]-th Redis command
      raises instead of running (a faulting command has no effect);
    - [net n]: the outcome of the [n]-th [requests.get];
    - [clock n]: the [n]-th reading of [time.time()]. *)
Record world := {
  cfg : config;
  db : gmap string rval;
  redis_fault : nat → option pyclass;
  redis_n : nat;
  net : nat → http_result;
  net_n : nat;
  clock : nat → Q;
  clock_n : nat;
  events : list event;
}.

Definition with_db (d : gmap string rval) (w : world) : world :=
  {| cfg := cfg w; db := d; redis_fault := redis_fault w; redis_n := redis_n w;
     net := net w; net_n := net_n w; clock := clock w; clock_n := clock_n w;
     events := events w |}.

Definition next_redis (w : world) : world :=
  {| cfg := cfg w; db := db w; redis_fault := redis_fault w;
     redis_n := S (redis_n w);
     net := net w; net_n := net_n w; clock := clock w; clock_n := clock_n w;
     events := events w |}.

Definition next_net (w : world) : world :=
  {| cfg := cfg w; db := db w; redis_fault := redis_fault w;
     redis_n := redis_n w;
     net := net w; net_n := S (net_n w); clock := clock w;
     clock_n := clock_n w; events := events w |}.

Definition next_clock (w : world) : world :=
  {| cfg := cfg w; db := db w; redis_fault := redis_fault w;
     redis_n := redis_n w;
     net := net w; net_n := net_n w; clock := clock w;
     clock_n := S (clock_n w); events := events w |}.

Definition emit (ev : event) (w : world) : world :=
  {| cfg := cfg w; db := db w; redis_fault := redis_fault w;
     redis_n := redis_n w;
     net := net w; net_n := net_n w; clock := clock w; clock_n := clock_n w;
     events := events w ++ [ev] |}.

Definition with_cfg (c : config) (w : world) : world :=
  {| cfg := c; db := db w; redis_fault := redis_fault w;
     redis_n := redis_n w;
     net := net w; net_n := net_n w; clock := clock w; clock_n := clock_n w;
     events := events w |}.

(** ** The monad: state passing over [world], with exceptions *)

Inductive result (A : Type) :=
  | Ret (a : A)
  | Raise (e : exn).
Arguments Ret {A} a.
Arguments Raise {A} e.

Definition M (A : Type) : Type := world → result A * world.

#[global] Instance M_ret : MRet M := λ A a w, (Ret a, w).

#[global] Instance M_bind : MBind M := λ A B f m w,
  match m w with
  | (Ret a, w') => f a w'
  | (Raise e, w') => (Raise e, w')
  end.

Definition raise {A} (e : exn) : M A := λ w, (Raise e, w).

(** [except cls as e: handler], tried in order: the first clause whose class
    the exception is an instance of runs; with none, the exception
    propagates. *)
Fixpoint dispatch {A} (handlers : list (pyclass * (exn → M A))) (e : exn)
  : M A :=
  match handlers with
  | [] => raise e
  | (cls, h) :: rest => if isinstance e cls then h e else dispatch rest e
  end.

Definition try_except {A} (body : M A)
  (handlers : list (pyclass * (exn → M A))) : M A := λ w,
  match body w with
  | (Ret a, w') => (Ret a, w')
  | (Raise e, w') => dispatch handlers e w'
  end.

(** [for x in l: body x] *)
Fixpoint for_each {A} (l : list A) (body : A → M unit) : M unit :=
  match l with
  | [] => mret tt
  | x :: l' => body x ;; for_each l' body
  end.

(** [enumerate(l, start)] *)
Fixpoint enumerate {A} (l : list A) (start : Z) : list (Z * A) :=
  match l with
  | [] => []
  | x :: l' => (start, x) :: enumerate l' (start + 1)
  end.

(** [range(n)] *)
Definition range (n : nat) : list Z := Z.of_nat <$> seq 0 n.

(** ** Library calls *)

Definition logger (level : loglevel) (message : string) : M unit :=
  λ w, (Ret tt, emit (EvLog level message) w).

(** [time.time()] *)
Definition time_time : M Q :=
  λ w, (Ret (clock w (clock_n w)), next_clock w).

(** [time.sleep(seconds)]. CPython first converts the length to its C time
    type, a signed 64-bit count of nanoseconds, and raises [OverflowError]
    when it does not fit; it then raises [ValueError] for a negative length;
    otherwise the call sleeps and returns. (A platform may refuse a length so
    close to the bound that its deadline overflows; such lengths are taken to
    sleep.) *)
Definition fits_time (seconds : Q) : bool :=
  let ns := (seconds * 1000000000)%Q in
  Qle_bool (- 9223372036854775808) ns && Qle_bool ns 9223372036854775807.

Definition sleeps (seconds : Q) : bool :=
  fits_time seconds && Qle_bool 0 seconds.

Definition time_sleep (seconds : Q) : M unit := λ w,
  if negb (fits_time seconds) then (Raise (Raised OverflowError), w)
  else if negb (Qle_bool 0 seconds) then (Raise (Raised ValueError), w)
  else (Ret tt, emit (EvSleep seconds) w).

(** [sys.exit(code)] *)
Definition sys_exit {A} (code : Z) : M A := raise (SystemExit code).

(** [requests.get(url, headers=..., timeout=..., allow_redirects=True)]: the
    outcome is the environment's. *)
Definition requests_get (url : string) (headers : list (string * string))
  (timeout : Z) : M Z := λ w,
  let w' := next_net (emit (EvGet url timeout) w) in
  match net w (net_n w) with
  | Response status_code => (Ret status_code, w')
  | HttpRaise c => (Raise (Raised c), w')
  end.

(** [sorted(l)] for a list of strings: the order of the code points. The
    lists sorted by the dashboard come from sets, so they hold no string
    twice and the stability of the sort plays no part. *)
Fixpoint insert_sorted (x : string) (l : list string) : list string :=
  match l with
  | [] => [x]
  | y :: l' => if String.leb x y then x :: l else y :: insert_sorted x l'
  end.

Definition sorted (l : list string) : list string := foldr insert_sorted [] l.

End Py.

(* ===================================================================== *)
(** * Redis: the commands the two programs use                            *)
(* ===================================================================== *)

Module Redis.
Import Py.

(** [redis.Redis(host=..., port=..., db=0, decode_responses=True, ...)]. The
    constructor does not connect. All clients talk to the one [db]. *)
Inductive client := Client (host : string) (port : Z).

Definition WRONGTYPE {A} : result A := Raise (Raised ResponseError).

(** One round trip. On [None] the attribute access [r.cmd] fails before any
    traffic; a scheduled fault is raised instead of running the command. *)
Definition command {A} (r : option client)
  (run : gmap string rval → result A * gmap string rval) : M A := λ w,
  match r with
  | None => (Raise (Raised AttributeError), w)
  | Some _ =>
      match redis_fault w (redis_n w) with
      | Some c => (Raise (Raised c), next_redis w)
      | None =>
          let '(res, d) := run (db w) in (res, with_db d (next_redis w))
      end
  end.

Definition ping (r : option client) : M bool :=
  command r (λ d, (Ret true, d)).

(** EXISTS key: the number of keys that exist. *)
Definition exists_ (r : option client) (key : string) : M Z :=
  command r (λ d, (Ret (match d !! key with Some _ => 1 | None => 0 end)%Z, d)).

(** SADD key member: creates the set when the key is absent. *)
Definition sadd (r : option client) (key member : string) : M Z :=
  command r (λ d,
    match d !! key with
    | None => (Ret 1%Z, <[key := VSet {[member]}]> d)
    | Some (VSet s) =>
        (Ret (if decide (member ∈ s) then 0 else 1)%Z,
         <[key := VSet ({[member]} ∪ s)]> d)
    | Some (VStr _) => (WRONGTYPE, d)
    end).

(** SREM key member: a set that becomes empty is removed with its key. *)
Definition srem (r : option client) (key member : string) : M Z :=
  command r (λ d,
    match d !! key with
    | None => (Ret 0%Z, d)
    | Some (VSet s) =>
        (Ret (if decide (member ∈ s) then 1 else 0)%Z,
         if decide (s ∖ {[member]} = ∅) then delete key d
         else <[key := VSet (s ∖ {[member]})]> d)
    | Some (VStr _) => (WRONGTYPE, d)
    end).

(** SMEMBERS key: an absent key is the empty set. *)
Definition smembers (r : option client) (key : string) : M (gset string) :=
  command r (λ d,
    match d !! key with
    | None => (Ret ∅, d)
    | Some (VSet s) => (Ret s, d)
    | Some (VStr _) => (WRONGTYPE, d)
    end).

(** SCARD key *)
Definition scard (r : option client) (key : string) : M Z :=
  command r (λ d,
    match d !! key with
    | None => (Ret 0%Z, d)
    | Some (VSet s) => (Ret (Z.of_nat (size s)), d)
    | Some (VStr _) => (WRONGTYPE, d)
    end).

(** SET key value: overwrites whatever the key held. *)
Definition set (r : option client) (key value : string) : M bool :=
  command r (λ d, (Ret true, <[key := VStr value]> d)).

(** GET key *)
Definition get (r : option client) (key : string) : M (option string) :=
  command r (λ d,
    match d !! key with
    | None => (Ret None, d)
    | Some (VStr v) => (Ret (Some v), d)
    | Some (VSet _) => (WRONGTYPE, d)
    end).

(** DEL key: the number of keys removed. *)
Definition delete (r : option client) (key : string) : M Z :=
  command r (λ d,
    (Ret (match d !! key with Some _ => 1 | None => 0 end)%Z,
     base.delete key d)).

End Redis.

(* ===================================================================== *)
(** * src/sentinel/app.py                                                  *)
(* ===================================================================== *)

Module Sentinel.
Import Py.

Definition config_ : M config := λ w, (Ret (cfg w), w).

Definition max_retries : Z := 5.
Definition retry_delay : Q := 2.

(** The [try] block of one attempt of [connect_redis] (lines 31-48); its
    value is the client that the function returns. *)
Definition connect_redis_try : M (option Redis.client) :=
  c ← config_;
  let r := Some (Redis.Client (REDIS_HOST c) (REDIS_PORT c)) in
  Redis.ping r ;;
  n ← Redis.exists_ r "stations";
  (if (n =? 0)%Z
   then Redis.sadd r "stations" "General" ;;
        logger INFO "Created default 'General' station"
   else mret tt) ;;
  logger INFO "Connected to Redis at {REDIS_HOST}:{REDIS_PORT}" ;;
  mret r.

(** The loop [for attempt in range(max_retries)] from a given list of
    attempts. The [try] yields [Some r] at [return r] and [None] when the
    handler ends and the loop goes on; after the last attempt the function
    would fall off its end and return [None]. *)
Fixpoint connect_redis_from (attempts : list Z) : M (option Redis.client) :=
  match attempts with
  | [] => mret None
  | attempt :: rest =>
      returned ← try_except (r ← connect_redis_try; mret (Some r))
        [(Exception, λ e,
           logger ERROR
             "Connection attempt {attempt + 1}/{max_retries} failed: {e}" ;;
           if (attempt <? max_retries - 1)%Z
           then time_sleep retry_delay ;; mret None
           else logger CRITICAL
                  "Failed to connect to Redis after all retries" ;;
                sys_exit 1)];
      match returned with
      | Some r => mret r
      | None => connect_redis_from rest
      end
  end.

Definition connect_redis : M (option Redis.client) :=
  connect_redis_from (range (Z.to_nat max_retries)).

(** [check_url(url, headers)] (lines 57-78). *)
Definition check_url (url : string) (headers : list (string * string))
  : M string :=
  try_except
    (start_time ← time_time;
     c ← config_;
     status_code ← requests_get url headers (REQUEST_TIMEOUT c);
     now ← time_time;
     let response_time := int_of_number ((now - start_time) * 1000)%Q in
     if (status_code =? 200)%Z
     then mret ("UP (" +:+ str_of_int response_time +:+ "ms)")
     else mret ("DOWN (" +:+ str_of_int status_code +:+ ")"))
    [(requests_Timeout, λ _, mret "DOWN (Timeout)");
     (requests_ConnectionError, λ _, mret "DOWN (Connection Error)");
     (TooManyRedirects, λ _, mret "DOWN (Too Many Redirects)");
     (RequestException, λ e, mret "DOWN (Error)");
     (Exception, λ e,
        logger ERROR "Unexpected error checking {url}: {e}" ;;
        mret "DOWN (Unknown Error)")].

Definition headers : list (string * string) :=
  [("User-Agent", "Mozilla/5.0 (Windows NT 10.0; Win64; x64) AppleWebKit/537.36 (KHTML, like Gecko) Chrome/120.0.0.0 Safari/537.36");
   ("Accept", "text/html,application/xhtml+xml,application/xml;q=0.9,*/*;q=0.8");
   ("Accept-Language", "en-US,en;q=0.5");
   ("Accept-Encoding", "gzip, deflate");
   ("Connection", "keep-alive")].

(** [sub in s] *)
Fixpoint contains (sub s : string) : bool :=
  String.prefix sub s ||
  match s with
  | EmptyString => false
  | String _ s' => contains sub s'
  end.

(** Lines 98-104: the stations, and the union of their URL sets. *)
Fixpoint collect_urls (r : option Redis.client) (stations : list string)
  (all_urls : gset string) : M (gset string) :=
  match stations with
  | [] => mret all_urls
  | station :: rest =>
      station_urls ← Redis.smembers r ("urls:" +:+ station);
      collect_urls r rest (all_urls ∪ station_urls)
  end.

Definition enumerate_targets (r : option Redis.client)
  : M (gset string * gset string) :=
  stations ← Redis.smembers r "stations";
  all_urls ← collect_urls r (elements stations) ∅;
  mret (stations, all_urls).

(** Lines 113-128: the body of [for i, url in enumerate(all_urls, 1)]. *)
Definition process_url (r : option Redis.client) (item : Z * string)
  : M unit :=
  let '(i, url) := item in
  try_except
    (status ← check_url url headers;
     Redis.set r ("status:" +:+ url) status ;;
     (if contains "UP" status
      then logger INFO "[{i}/{len(all_urls)}] ✓ {url}: {status}"
      else logger WARNING "[{i}/{len(all_urls)}] ✗ {url}: {status}") ;;
     time_sleep (1 # 10))
    [(Exception, λ e,
        logger ERROR "Error processing {url}: {e}" ;;
        Redis.set r ("status:" +:+ url) "DOWN (Processing Error)" ;;
        mret tt)].

(** Lines 95-133: the [try] block of one turn of [while True], after
    [check_count += 1]. The elements of a Python set are visited in the order
    of [elements]. *)
Definition sweep (r : option Redis.client) (check_count : Z) : M unit :=
  start_time ← time_time;
  '(stations, all_urls) ← enumerate_targets r;
  logger INFO
    "=== Check #{check_count}: {len(all_urls)} URLs across {len(stations)} stations ===" ;;
  (if decide (all_urls = ∅)
   then logger WARNING "No URLs to monitor" else mret tt) ;;
  for_each (enumerate (elements all_urls) 1) (process_url r) ;;
  now ← time_time;
  logger INFO "Check completed in {elapsed:.2f}s. Next check in {CHECK_INTERVAL}s" ;;
  c ← config_;
  time_sleep (inject_Z (CHECK_INTERVAL c)).

(** Lines 92-144: [fuel] turns of [while True], with the local variables [r]
    and [check_count]. The loop has no normal exit; [Ret tt] means that it is
    still running when the fuel is spent. [check_count += 1], the first
    statement of the [try] block, cannot fail and is done before it. *)
Fixpoint while_True (fuel : nat) (r : option Redis.client) (check_count : Z)
  : M unit :=
  match fuel with
  | O => mret tt
  | S fuel' =>
      let check_count := (check_count + 1)%Z in
      r' ← try_except (sweep r check_count ;; mret r)
        [(redis_ConnectionError, λ e,
            logger ERROR "Lost connection to Redis: {e}" ;;
            logger INFO "Attempting to reconnect..." ;;
            connect_redis);
         (KeyboardInterrupt, λ _,
            logger INFO "Received shutdown signal. Exiting gracefully..." ;;
            sys_exit 0);
         (Exception, λ e,
            logger ERROR "Unexpected error in monitoring loop: {e}" ;;
            time_sleep 5 ;;
            mret r)];
      while_True fuel' r' check_count
  end.

(** [check_urls(r)] (lines 80-144). *)
Definition check_urls (fuel : nat) (r : option Redis.client) : M unit :=
  while_True fuel r 0.

(** How the process stands after [fuel] turns of the loop. *)
Inductive process :=
  | Exited (code : Z)
  | Crashed (c : pyclass)
  | Running.

(** Lines 153-154: [r = connect_redis(); check_urls(r)], run with the
    configuration [cfg] of the world. The script as a whole, with the reading
    of the configuration and the banner, is [program] below. *)
Definition main (fuel : nat) (w : world) : process * world :=
  match (r ← connect_redis; check_urls fuel r) w with
  | (Ret _, w') => (Running, w')
  | (Raise (SystemExit code), w') => (Exited code, w')
  | (Raise (Raised c), w') => (Crashed c, w')
  end.

(** [int(os.getenv(name, default))]: an unset variable gives the default, an
    [int] that is its own value; [None] stands for the [ValueError] of
    [int]. *)
Definition getenv_int (environ : gmap string string) (name : string)
  (default : Z) : option Z :=
  match environ !! name with
  | Some value => int_of_str value
  | None => Some default
  end.

(** Lines 19-22: the configuration, read from [os.environ] when the module is
    loaded. [None] stands for the [ValueError] of the first [int] that
    fails. *)
Definition load_config (environ : gmap string string) : option config :=
  let host := default "localhost" (environ !! "REDIS_HOST") in
  port ← getenv_int environ "REDIS_DB_PORT" 6379;
  interval ← getenv_int environ "CHECK_INTERVAL" 10;
  timeout ← getenv_int environ "REQUEST_TIMEOUT" 5;
  Some {| REDIS_HOST := host; REDIS_PORT := port;
          CHECK_INTERVAL := interval; REQUEST_TIMEOUT := timeout |}.

(** Lines 147-152: the records logged before the first connection. *)
Definition banner : list event :=
  [EvLog INFO "============================================================";
   EvLog INFO "URL Sentinel Monitor Starting";
   EvLog INFO "Redis: {REDIS_HOST}:{REDIS_PORT}";
   EvLog INFO "Check Interval: {CHECK_INTERVAL}s";
   EvLog INFO "Request Timeout: {REQUEST_TIMEOUT}s";
   EvLog INFO "============================================================"].

(** The script as a whole, lines 19-22 and 146-154: the configuration is read
    from the environment, an [int] that fails ends the process with its
    [ValueError] before anything else happens; then the banner is logged and
    [main] runs with that configuration. *)
Definition program (environ : gmap string string) (fuel : nat) (w : world)
  : process * world :=
  match load_config environ with
  | None => (Crashed ValueError, w)
  | Some c => main fuel (foldl (λ w ev, emit ev w) (with_cfg c w) banner)
  end.

End Sentinel.

(* ===================================================================== *)
(** * src/dashboard/app.py                                                 *)
(* ===================================================================== *)

Module Dashboard.
Import Py.

(** What a view function returns. *)
Inductive response := Redirect (location : string).

(** [flash(message, category)]; the category is kept. *)
Definition flash (category : string) : M unit :=
  λ w, (Ret tt, emit (EvFlash category) w).

(** [check_redis_connection()]; [r] is the module's global client, [None]
    when the connection at import time failed. The bare [except:] catches
    every exception. *)
Definition check_redis_connection (r : option Redis.client) : M bool :=
  match r with
  | None => mret false
  | Some _ =>
      try_except (Redis.ping r ;; mret true)
        [(BaseException, λ _, mret false)]
  end.

(** [delete_station()] (lines 127-150); [form] is [request.form]. *)
Definition delete_station (r : option Redis.client)
  (form : gmap string string) : M response :=
  connected ← check_redis_connection r;
  if negb connected
  then flash "error" ;; mret (Redirect "/")
  else
    try_except
      (match form !! "name" with
       | Some name =>
           if truthy name && negb (String.eqb name "General")
           then
             urls_count ← Redis.scard r ("urls:" +:+ name);
             Redis.srem r "stations" name ;;
             Redis.delete r ("urls:" +:+ name) ;;
             flash "success" ;;
             logger INFO "Deleted station: {name}"
           else if String.eqb name "General"
           then flash "error"
           else mret tt
       | None => mret tt
       end)
      [(Exception, λ e,
          logger ERROR "Error deleting station: {e}" ;;
          flash "error")] ;;
    mret (Redirect "/").

(** [add_url()] (lines 152-182). *)
Definition add_url (r : option Redis.client)
  (form : gmap string string) : M response :=
  connected ← check_redis_connection r;
  if negb connected
  then flash "error" ;; mret (Redirect "/")
  else
    try_except
      (let url := strip (default EmptyString (form !! "url")) in
       match form !! "station" with
       | Some station =>
           if truthy url && truthy station
           then
             let url :=
               if negb (startswith url ["http://"; "https://"])
               then "https://" +:+ url else url in
             let url := rstrip url "/" in
             members ← Redis.smembers r ("urls:" +:+ station);
             if decide (url ∈ members)
             then flash "warning"
             else
               Redis.sadd r ("urls:" +:+ station) url ;;
               Redis.set r ("status:" +:+ url) "PENDING" ;;
               flash "success" ;;
               logger INFO "Added URL {url} to station {station}"
           else flash "error"
       | None => flash "error"
       end)
      [(Exception, λ e,
          logger ERROR "Error adding URL: {e}" ;;
          flash "error")] ;;
    mret (Redirect "/").

(** Lines 198-202: the scan of the stations, left at the first one that
    holds the URL. *)
Fixpoint url_exists_elsewhere (r : option Redis.client) (url : string)
  (stations : list string) : M bool :=
  match stations with
  | [] => mret false
  | s :: rest =>
      members ← Redis.smembers r ("urls:" +:+ s);
      if decide (url ∈ members) then mret true
      else url_exists_elsewhere r url rest
  end.

(** [delete_url()] (lines 184-213). *)
Definition delete_url (r : option Redis.client)
  (form : gmap string string) : M response :=
  connected ← check_redis_connection r;
  if negb connected
  then flash "error" ;; mret (Redirect "/")
  else
    try_except
      (match form !! "url", form !! "station" with
       | Some url, Some station =>
           if truthy url && truthy station
           then
             Redis.srem r ("urls:" +:+ station) url ;;
             stations ← Redis.smembers r "stations";
             elsewhere ← url_exists_elsewhere r url (elements stations);
             (if negb elsewhere
              then Redis.delete r ("status:" +:+ url) ;; mret tt
              else mret tt) ;;
             flash "success" ;;
             logger INFO "Deleted URL {url} from station {station}"
           else mret tt
       | _, _ => mret tt
       end)
      [(Exception, λ e,
          logger ERROR "Error deleting URL: {e}" ;;
          flash "error")] ;;
    mret (Redirect "/").

(** Lines 20-33: the connection made when the module is loaded; its value
    is the global [r]. *)
Definition connect : M (option Redis.client) :=
  try_except
    (c ← Sentinel.config_;
     let r := Some (Redis.Client (REDIS_HOST c) (REDIS_PORT c)) in
     Redis.ping r ;;
     logger INFO "Connected to Redis at {REDIS_HOST}:{REDIS_PORT}" ;;
     mret r)
    [(Exception, λ e,
        logger ERROR "Failed to connect to Redis: {e}" ;;
        mret None)].

(** [add_station()] (lines 101-125). *)
Definition add_station (r : option Redis.client)
  (form : gmap string string) : M response :=
  connected ← check_redis_connection r;
  if negb connected
  then flash "error" ;; mret (Redirect "/")
  else
    try_except
      (let name := strip (default EmptyString (form !! "name")) in
       if truthy name
       then
         if (50 <? Z.of_nat (String.length name))%Z
         then flash "error"
         else
           members ← Redis.smembers r "stations";
           if decide (name ∈ members)
           then flash "warning"
           else
             Redis.sadd r "stations" name ;;
             flash "success" ;;
             logger INFO "Created station: {name}"
       else flash "error")
      [(Exception, λ e,
          logger ERROR "Error adding station: {e}" ;;
          flash "error")] ;;
    mret (Redirect "/").

(** The counters of [index()]. *)
Record stats := {
  total : Z;
  up : Z;
  down : Z;
  pending : Z;
}.

(** What the views that render return: the template or the JSON document,
    with the values it is given, and the HTTP status. [station_data] is a
    dict; its items are kept in the order of insertion. The timestamp of the
    JSON document is the reading of the clock; its ISO text is not kept. *)
Inductive page :=
  | ErrorPage (error : string) (code : Z)
  | IndexPage (station_data : list (string * list (string * string)))
      (counters : stats)
  | JsonStatus (stations : list (string * list (string * string)))
      (timestamp : Q)
  | JsonError (error : string) (code : Z).

(** [r.get(f"status:{url}") or "PENDING"]: an absent status and an empty
    one both read as [PENDING]. *)
Definition status_or_pending (r : option Redis.client) (url : string)
  : M string :=
  status ← Redis.get r ("status:" +:+ url);
  mret (match status with
        | Some s => if truthy s then s else "PENDING"
        | None => "PENDING"
        end).

(** Lines 69-84: the loop over the URLs of one station. *)
Fixpoint index_urls (r : option Redis.client) (urls : list string)
  (rows : list (string * string)) (st : stats)
  : M (list (string * string) * stats) :=
  match urls with
  | [] => mret (rows, st)
  | url :: rest =>
      let st := {| total := total st + 1; up := up st; down := down st;
                   pending := pending st |} in
      status ← status_or_pending r url;
      let st :=
        if String.eqb status "PENDING"
        then {| total := total st; up := up st; down := down st;
                pending := pending st + 1 |}
        else if Sentinel.contains "UP" status
        then {| total := total st; up := up st + 1; down := down st;
                pending := pending st |}
        else {| total := total st; up := up st; down := down st + 1;
                pending := pending st |} in
      index_urls r rest (rows ++ [(url, status)]) st
  end.

(** Lines 66-84: the loop over the stations. *)
Fixpoint index_stations (r : option Redis.client) (stations : list string)
  (station_data : list (string * list (string * string))) (st : stats)
  : M (list (string * list (string * string)) * stats) :=
  match stations with
  | [] => mret (station_data, st)
  | station :: rest =>
      members ← Redis.smembers r ("urls:" +:+ station);
      let urls := sorted (elements members) in
      '(rows, st) ← index_urls r urls [] st;
      index_stations r rest (station_data ++ [(station, rows)]) st
  end.

(** [index()] (lines 45-99). *)
Definition index (r : option Redis.client) : M page :=
  connected ← check_redis_connection r;
  if negb connected
  then mret (ErrorPage "Cannot connect to Redis database" 503)
  else
    try_except
      (members ← Redis.smembers r "stations";
       let stations := sorted (elements members) in
       stations ←
         match stations with
         | [] => Redis.sadd r "stations" "General" ;; mret ["General"]
         | _ => mret stations
         end;
       '(station_data, st) ←
         index_stations r stations []
           {| total := 0; up := 0; down := 0; pending := 0 |};
       mret (IndexPage station_data st))
      [(Exception, λ e,
          logger ERROR "Error in index route: {e}" ;;
          mret (ErrorPage "An error occurred while loading the dashboard"
                  500))].

(** Lines 228-230: the loop over the URLs of one station. *)
Fixpoint api_urls (r : option Redis.client) (urls : list string)
  (rows : list (string * string)) : M (list (string * string)) :=
  match urls with
  | [] => mret rows
  | url :: rest =>
      status ← status_or_pending r url;
      api_urls r rest (rows ++ [(url, status)])
  end.

(** Lines 225-230: the loop over the stations. *)
Fixpoint api_stations (r : option Redis.client) (stations : list string)
  (station_data : list (string * list (string * string)))
  : M (list (string * list (string * string))) :=
  match stations with
  | [] => mret station_data
  | station :: rest =>
      members ← Redis.smembers r ("urls:" +:+ station);
      let urls := sorted (elements members) in
      rows ← api_urls r urls [];
      api_stations r rest (station_data ++ [(station, rows)])
  end.

(** [api_status()] (lines 215-235); [datetime.now()] reads the clock. *)
Definition api_status (r : option Redis.client) : M page :=
  connected ← check_redis_connection r;
  if negb connected
  then mret (JsonError "Database connection failed" 503)
  else
    try_except
      (members ← Redis.smembers r "stations";
       let stations := sorted (elements members) in
       station_data ← api_stations r stations [];
       now ← time_time;
       mret (JsonStatus station_data now))
      [(Exception, λ e,
          logger ERROR "Error in API status: {e}" ;;
          mret (JsonError "Failed to fetch status" 500))].

(** The error handlers (lines 237-243). *)
Definition not_found : page := ErrorPage "Page not found" 404.
Definition internal_error : page := ErrorPage "Internal server error" 500.

End Dashboard.

(* ===================================================================== *)
(** * Reading a store                                                      *)
(* ===================================================================== *)

Import Py.

(** The members of the set stored under [key] (none when it is absent). *)
Definition members_of (d : gmap string rval) (key : string) : gset string :=
  match d !! key with
  | Some (VSet s) => s
  | _ => ∅
  end.

Definition station_set (d : gmap string rval) : gset string :=
  members_of d "stations".

Definition urls_of (d : gmap string rval) (station : string) : gset string :=
  members_of d ("urls:" +:+ station).

Definition status_of (d : gmap string rval) (url : string) : option rval :=
  d !! ("status:" +:+ url).

(** Some station of the station set holds the URL. *)
Definition referenced (d : gmap string rval) (url : string) : Prop :=
  ∃ station, station ∈ station_set d ∧ url ∈ urls_of d station.

(** The keys hold what the two programs put there: sets under [stations] and
    [urls:<station>]. *)
Definition sets_typed (d : gmap string rval) : Prop :=
  (∀ v, d !! "stations" ≠ Some (VStr v)) ∧
  (∀ station v, d !! ("urls:" +:+ station) ≠ Some (VStr v)).

(** Redis keeps no empty set. *)
Definition no_empty_set (d : gmap string rval) : Prop :=
  ∀ key, d !! key ≠ Some (VSet ∅).

(** The store after the first successful connect: the default station is
    created when the key [stations] is absent. *)
Definition bootstrap (d : gmap string rval) : gmap string rval :=
  match d !! "stations" with
  | None => <["stations" := VSet {["General"]}]> d
  | Some _ => d
  end.

(** ** Relations between the store before and after a run *)

(** Every run of [m] takes the store to one related to it by [R]. *)
Definition preserves (R : relation (gmap string rval)) {A} (m : M A) : Prop :=
  ∀ w, R (db w) (db (snd (m w))).

(** No key is lost. *)
Definition keys_kept : relation (gmap string rval) :=
  λ d d', ∀ key, is_Some (d !! key) → is_Some (d' !! key).

(** The keys outside [touched] hold what they held. *)
Definition same_outside (touched : string → Prop)
  : relation (gmap string rval) :=
  λ d d', ∀ key, ¬ touched key → d' !! key = d !! key.

(* ===================================================================== *)
(** * The environment of a run                                            *)
(* ===================================================================== *)

(** [w'] is a later world of the same environment: the oracles are those of
    [w] and the counters have not gone back. *)
Definition later (w w' : world) : Prop :=
  cfg w' = cfg w ∧ redis_fault w' = redis_fault w ∧ net w' = net w ∧
  clock w' = clock w ∧
  redis_n w ≤ redis_n w' ∧ net_n w ≤ net_n w' ∧ clock_n w ≤ clock_n w'.

(** No Redis command faults from now on. *)
Definition redis_up (w : world) : Prop :=
  ∀ n, redis_n w ≤ n → redis_fault w n = None.

(** Every Redis command from now on fails with an [Exception] (a refused
    connection, a timeout, ...). *)
Definition redis_down (w : world) : Prop :=
  ∀ n, redis_n w ≤ n →
       ∃ k, redis_fault w n = Some k ∧ issubclass k Exception = true.

(** Every outcome of [requests.get] from now on is a response or an
    exception below [Exception] (no interrupt arrives during a request). *)
Definition net_uninterrupted (w : world) : Prop :=
  ∀ n c, net_n w ≤ n → net w n = HttpRaise c → issubclass c Exception = true.

(** A computation that never calls [sys.exit]. *)
Definition no_exit {A} (m : M A) : Prop :=
  ∀ w code, fst (m w) ≠ Raise (SystemExit code).

(** ** Traces *)

(** The URLs requested, in order. *)
Fixpoint requested (evs : list event) : list string :=
  match evs with
  | [] => []
  | EvGet url _ :: evs' => url :: requested evs'
  | _ :: evs' => requested evs'
  end.

Definition attempt_failed : event :=
  EvLog ERROR "Connection attempt {attempt + 1}/{max_retries} failed: {e}".

(** The events of the handlers of [connect_redis] over a list of attempts
    that all fail, up to the attempt that gives up. *)
Fixpoint failures (attempts : list Z) : list event :=
  match attempts with
  | [] => []
  | attempt :: rest =>
      attempt_failed ::
      if (attempt <? Sentinel.max_retries - 1)%Z
      then EvSleep Sentinel.retry_delay :: failures rest
      else [EvLog CRITICAL "Failed to connect to Redis after all retries"]
  end.

(** The trace of a [connect_redis] whose five attempts all fail: an error
    record per attempt, a sleep of [retry_delay] between two attempts, and
    the critical record before the exit. *)
Definition retries_exhausted : list event :=
  [attempt_failed; EvSleep Sentinel.retry_delay;
   attempt_failed; EvSleep Sentinel.retry_delay;
   attempt_failed; EvSleep Sentinel.retry_delay;
   attempt_failed; EvSleep Sentinel.retry_delay;
   attempt_failed;
   EvLog CRITICAL "Failed to connect to Redis after all retries"].

(** The trace ends with a [connect_redis] that has used up its attempts. *)
Definition exhausted (evs : list event) : Prop :=
  ∃ before, evs = before ++ retries_exhausted.

(** ** The probe *)

(** The world after the request of [check_url] has been answered or has
    failed. *)
Definition after_get (url : string) (w : world) : world :=
  next_net (emit (EvGet url (REQUEST_TIMEOUT (cfg w))) (next_clock w)).

(** The latency that [check_url] reports in world [w]: the whole
    milliseconds between its two clock readings. *)
Definition elapsed_ms (w : world) : Z :=
  int_of_number ((clock w (S (clock_n w)) - clock w (clock_n w)) * 1000)%Q.

Definition is_digit (a : ascii) : bool :=
  Nat.leb 48 (nat_of_ascii a) && Nat.leb (nat_of_ascii a) 57.

(** A non-empty run of decimal digits. *)
Fixpoint all_digits (s : string) : bool :=
  match s with
  | EmptyString => false
  | String a EmptyString => is_digit a
  | String a s' => is_digit a && all_digits s'
  end.

(** ** The normalization of a submitted URL *)

(** What [add_url] stores for the submitted text [raw] (lines 159-166). *)
Definition normalized (raw : string) : string :=
  let url := strip raw in
  let url :=
    if negb (startswith url ["http://"; "https://"])
    then "https://" +:+ url else url in
  rstrip url "/".

(** The normalization as the claim C9 words it: the prefix and the trailing
    slashes, on the text as submitted. *)
Definition claimed_normalization (raw : string) : string :=
  rstrip (if startswith raw ["http://"; "https://"] then raw
          else "https://" +:+ raw) "/".

(** The last character of a string, if any. *)
Fixpoint last_char (s : string) : option ascii :=
  match s with
  | EmptyString => None
  | String a EmptyString => Some a
  | String _ s' => last_char s'
  end.

(* ===================================================================== *)
(** * Further notions for the two programs                                *)
(* ===================================================================== *)

(** ** Well-formed stores *)

(** The keys [status:<url>] hold strings. *)
Definition statuses_typed (d : gmap string rval) : Prop :=
  ∀ url s, d !! ("status:" +:+ url) ≠ Some (VSet s).

(** A store as Redis and the two programs build it. *)
Definition store_ok (d : gmap string rval) : Prop :=
  sets_typed d ∧ statuses_typed d ∧ no_empty_set d.

(** A run that starts from a store with the property [I] ends in one. *)
Definition keeps (I : gmap string rval → Prop) : relation (gmap string rval) :=
  λ d d', I d → I d'.

(** The URLs of the stations of the station set. *)
Definition working_set (d : gmap string rval) : gset string :=
  ⋃ (urls_of d <$> elements (station_set d)).

(** The names that hold a set. *)
Definition set_key (key : string) : Prop :=
  key = "stations" ∨ ∃ station, key = "urls:" +:+ station.

(** The key is the status of one of the URLs. *)
Definition status_key_in (urls : gset string) (key : string) : Prop :=
  ∃ url, url ∈ urls ∧ key = "status:" +:+ url.

(** ** Runs *)

(** Every run of [m] ends in a later world of the same environment. *)
Definition advances {A} (m : M A) : Prop :=
  ∀ w, later w (snd (m w)).

(** Whatever fails from now on in Redis fails with an [Exception]: no
    interrupt arrives during a command. *)
Definition ordinary_faults (w : world) : Prop :=
  ∀ n k, redis_n w ≤ n → redis_fault w n = Some k →
         issubclass k Exception = true.

(** Under ordinary faults, [m] raises nothing but an [Exception]. *)
Definition raises_only_Exception {A} (m : M A) : Prop :=
  ∀ w, ordinary_faults w →
       match fst (m w) with
       | Ret _ => True
       | Raise e => isinstance e Exception = true
       end.

(** Under ordinary faults, [m] returns. *)
Definition returns {A} (m : M A) : Prop :=
  ∀ w, ordinary_faults w → ∃ a, fst (m w) = Ret a.

(** ** Statuses *)

(** A status of the taxonomy that the monitor writes. *)
Definition in_taxonomy (status : string) : bool :=
  String.prefix "UP (" status || String.prefix "DOWN (" status.

(** Each of the URLs has a status of the taxonomy. *)
Definition recorded (d : gmap string rval) (urls : list string) : Prop :=
  ∀ url, url ∈ urls →
    ∃ status, status_of d url = Some (VStr status) ∧
              in_taxonomy status = true.

(** The status that the dashboard shows for a URL. *)
Definition shown_status (d : gmap string rval) (url : string) : string :=
  match status_of d url with
  | Some (VStr s) => if truthy s then s else "PENDING"
  | _ => "PENDING"
  end.

(** The [station_data] of a store: the stations in order, each with its URLs
    in order and the status shown for each. *)
Definition shown (d : gmap string rval)
  : list (string * list (string * string)) :=
  (λ station,
     (station,
      (λ url, (url, shown_status d url))
        <$> sorted (elements (urls_of d station))))
    <$> sorted (elements (station_set d)).

(** The rows of a [station_data], and the number of them whose status
    satisfies [p]. *)
Definition all_rows (station_data : list (string * list (string * string)))
  : list (string * string) :=
  concat (station_data.*2).

Definition count_status (p : string → bool) (rows : list (string * string))
  : Z :=
  Z.of_nat (length (List.filter (λ row, p (snd row)) rows)).

Definition is_pending (status : string) : bool := String.eqb status "PENDING".

Definition is_up (status : string) : bool :=
  negb (is_pending status) && Sentinel.contains "UP" status.

Definition is_down (status : string) : bool :=
  negb (is_pending status) && negb (Sentinel.contains "UP" status).

(** ** The trace of a [connect_redis] that succeeds after failures *)

(** The records of the attempt of [connect_redis] that succeeds on the store
    [d]. *)
Definition connected_trace (d : gmap string rval) : list event :=
  match d !! "stations" with
  | None => [EvLog INFO "Created default 'General' station"]
  | Some _ => []
  end ++ [EvLog INFO "Connected to Redis at {REDIS_HOST}:{REDIS_PORT}"].

(** The events of [j] failed attempts, each followed by its sleep. *)
Fixpoint retried (j : nat) : list event :=
  match j with
  | O => []
  | S j' => attempt_failed :: EvSleep Sentinel.retry_delay :: retried j'
  end.

(** The record of the clean shutdown. *)
Definition shutdown_logged (evs : list event) : Prop :=
  ∃ before,
    evs = before ++
          [EvLog INFO "Received shutdown signal. Exiting gracefully..."].

(* ===================================================================== *)
(** * Concrete stores and worlds                                          *)
(* ===================================================================== *)

Definition default_config : config :=
  {| REDIS_HOST := "localhost"; REDIS_PORT := 6379;
     CHECK_INTERVAL := 10; REQUEST_TIMEOUT := 5 |}.

Definition the_client : option Redis.client :=
  Some (Redis.Client "localhost" 6379).

(** [request.form] of a POST with the given fields. *)
Definition form_of (fields : list (string * string)) : gmap string string :=
  list_to_map fields.

(** The scenario of the design's section 8, with a status from an earlier
    sweep. *)
Definition scenario_db : gmap string rval :=
  <["stations" := VSet {["General"; "Work"]}]>
  (<["urls:General" := VSet {["https://example.com"]}]>
  (<["urls:Work" :=
       VSet {["https://example.com"; "https://nonexistent.invalid"]}]>
  (<["status:https://example.com" := VStr "UP (40ms)"]> ∅))).

(** The scenario after a sweep has recorded both statuses. *)
Definition swept_db : gmap string rval :=
  <["status:https://nonexistent.invalid" := VStr "DOWN (Connection Error)"]>
  scenario_db.

(** One station with one URL, seen up by an earlier sweep. *)
Definition single_db : gmap string rval :=
  <["stations" := VSet {["General"]}]>
  (<["urls:General" := VSet {["https://example.com"]}]>
  (<["status:https://example.com" := VStr "UP (40ms)"]> ∅)).

(** A quiet world over a store: Redis answers, every request gets a 200 and
    the clock advances 12.5 ms per reading. *)
Definition quiet (d : gmap string rval) : world :=
  {| cfg := default_config; db := d;
     redis_fault := λ _, None; redis_n := 0;
     net := λ _, Response 200; net_n := 0;
     clock := λ n, (Z.of_nat n * 25 # 2000)%Q; clock_n := 0;
     events := [] |}.

Definition with_redis_fault (f : nat → option pyclass) (w : world) : world :=
  {| cfg := cfg w; db := db w; redis_fault := f; redis_n := redis_n w;
     net := net w; net_n := net_n w; clock := clock w; clock_n := clock_n w;
     events := events w |}.

Definition with_net (f : nat → http_result) (w : world) : world :=
  {| cfg := cfg w; db := db w; redis_fault := redis_fault w;
     redis_n := redis_n w;
     net := f; net_n := net_n w; clock := clock w; clock_n := clock_n w;
     events := events w |}.

Definition with_clock (f : nat → Q) (w : world) : world :=
  {| cfg := cfg w; db := db w; redis_fault := redis_fault w;
     redis_n := redis_n w;
     net := net w; net_n := net_n w; clock := f; clock_n := clock_n w;
     events := events w |}.

(** The wall clock is set back by 12 ms between the two readings of a
    probe. *)
Definition clock_steps_back : world :=
  with_clock (λ n, if decide (n = 0) then 1000%Q else (999988 # 1000)%Q)
    (quiet single_db).

(** An environment whose [CHECK_INTERVAL] is not a number. *)
Definition malformed_environ : gmap string string :=
  {["CHECK_INTERVAL" := "ten"]}.

(** An interrupt arrives during the request. *)
Definition interrupted : world :=
  with_net (λ _, HttpRaise KeyboardInterrupt) (quiet single_db).

(** The next Redis command times out; the commands after it succeed. *)
Definition next_command_fails : world :=
  with_redis_fault
    (λ n, if decide (n = 0) then Some redis_TimeoutError else None)
    (quiet single_db).

(** The third Redis command of the sweep, the write of the status, times
    out; the commands after it succeed. *)
Definition write_fails_once : world :=
  with_redis_fault
    (λ n, if decide (n = 2) then Some redis_TimeoutError else None)
    (quiet single_db).

(** Redis is reachable for the two commands of the startup and lost from the
    first command of the sweep on. *)
Definition connection_lost : world :=
  with_redis_fault
    (λ n, if decide (n < 2) then None else Some redis_ConnectionError)
    (quiet single_db).

(** Redis is never reachable. *)
Definition unreachable : world :=
  with_redis_fault (λ _, Some redis_ConnectionError) (quiet ∅).

(** Every request is interrupted. *)
Definition always_interrupted (d : gmap string rval) : world :=
  with_net (λ _, HttpRaise KeyboardInterrupt) (quiet d).

(** The first two Redis commands are refused; the commands after them
    succeed. *)
Definition refused_twice : world :=
  with_redis_fault
    (λ n, if decide (n < 2) then Some redis_ConnectionError else None)
    (quiet ∅).

(** The next Redis command loses the connection; the commands after it
    succeed. *)
Definition connection_lost_once : world :=
  with_redis_fault
    (λ n, if decide (n = 0) then Some redis_ConnectionError else None)
    (quiet scenario_db).

(* ===================================================================== *)
(** * The monad and the class hierarchy                                   *)
(* ===================================================================== *)

Lemma bind_run {A B} (m : M A) (f : A → M B) (w : world) :
  (m ≫= f) w =
  match m w with
  | (Ret a, w') => f a w'
  | (Raise e, w') => (Raise e, w')
  end.
Proof. reflexivity. Qed.

Lemma try_except_run {A} (body : M A) handlers (w : world) :
  try_except body handlers w =
  match body w with
  | (Ret a, w') => (Ret a, w')
  | (Raise e, w') => dispatch handlers e w'
  end.
Proof. reflexivity. Qed.

(** [time.sleep]: it sleeps, or it raises and nothing else happens. *)
Lemma time_sleep_ok (seconds : Q) (w : world) :
  sleeps seconds = true →
  time_sleep seconds w = (Ret tt, emit (EvSleep seconds) w).
Proof.
  unfold sleeps, time_sleep. intros [-> ->]%andb_true_iff. reflexivity.
Qed.

Lemma time_sleep_spec (seconds : Q) (w : world) :
  (sleeps seconds = true ∧
   time_sleep seconds w = (Ret tt, emit (EvSleep seconds) w)) ∨
  (sleeps seconds = false ∧
   ∃ k, (k = ValueError ∨ k = OverflowError) ∧
        time_sleep seconds w = (Raise (Raised k), w)).
Proof.
  unfold sleeps, time_sleep.
  destruct (fits_time seconds); cbn [negb andb].
  - destruct (Qle_bool 0 seconds); cbn [negb]; [by left|right].
    split; [done|]. exists ValueError. split; [by left|done].
  - right. split; [done|]. exists OverflowError. split; [by right|done].
Qed.

Lemma time_sleep_fst (seconds : Q) (w w' : world) :
  fst (time_sleep seconds w) = fst (time_sleep seconds w').
Proof.
  unfold time_sleep.
  destruct (negb (fits_time seconds)); [done|].
  by destruct (negb (Qle_bool 0 seconds)).
Qed.

Lemma time_sleep_db (seconds : Q) (w : world) :
  db (snd (time_sleep seconds w)) = db w.
Proof.
  unfold time_sleep.
  destruct (negb (fits_time seconds)); [done|].
  by destruct (negb (Qle_bool 0 seconds)).
Qed.

(** Every class derives from [BaseException]; the classes of [requests] that
    [check_url] names derive from [RequestException], and that one from
    [Exception]. *)
Lemma subclass_RequestException_Exception c :
  issubclass c RequestException = true → issubclass c Exception = true.
Proof. destruct c; vm_compute; congruence. Qed.

Lemma subclass_Timeout_RequestException c :
  issubclass c requests_Timeout = true → issubclass c RequestException = true.
Proof. destruct c; vm_compute; congruence. Qed.

Lemma subclass_ConnectionError_RequestException c :
  issubclass c requests_ConnectionError = true →
  issubclass c RequestException = true.
Proof. destruct c; vm_compute; congruence. Qed.

Lemma subclass_TooManyRedirects_RequestException c :
  issubclass c TooManyRedirects = true → issubclass c RequestException = true.
Proof. destruct c; vm_compute; congruence. Qed.

Lemma subclass_redis_ConnectionError_Exception c :
  issubclass c redis_ConnectionError = true → issubclass c Exception = true.
Proof. destruct c; vm_compute; congruence. Qed.

(** A connect timeout is both a connection error and a timeout. *)
Example ConnectTimeout_both :
  issubclass ConnectTimeout requests_Timeout = true ∧
  issubclass ConnectTimeout requests_ConnectionError = true.
Proof. split; reflexivity. Qed.

(* ===================================================================== *)
(** * [check_url]                                                          *)
(* ===================================================================== *)

Lemma check_url_response url hdrs w code :
  net w (net_n w) = Response code →
  Sentinel.check_url url hdrs w =
  (Ret (if (code =? 200)%Z
        then "UP (" +:+ str_of_int (elapsed_ms w) +:+ "ms)"
        else "DOWN (" +:+ str_of_int code +:+ ")"),
   next_clock (after_get url w)).
Proof.
  intros Hnet.
  unfold Sentinel.check_url, try_except.
  cbv [mbind M_bind mret M_ret time_time Sentinel.config_ requests_get].
  cbn [net net_n next_clock clock clock_n cfg]. rewrite Hnet.
  destruct (code =? 200)%Z; reflexivity.
Qed.

Lemma check_url_raise url hdrs w c :
  net w (net_n w) = HttpRaise c →
  Sentinel.check_url url hdrs w =
  (if issubclass c requests_Timeout then mret "DOWN (Timeout)"
   else if issubclass c requests_ConnectionError
        then mret "DOWN (Connection Error)"
   else if issubclass c TooManyRedirects
        then mret "DOWN (Too Many Redirects)"
   else if issubclass c RequestException then mret "DOWN (Error)"
   else if issubclass c Exception
        then logger ERROR "Unexpected error checking {url}: {e}" ;;
             mret "DOWN (Unknown Error)"
   else raise (Raised c)) (after_get url w).
Proof.
  intros Hnet.
  unfold Sentinel.check_url, try_except.
  cbv [mbind M_bind mret M_ret time_time Sentinel.config_ requests_get].
  cbn [net net_n next_clock clock clock_n cfg]. rewrite Hnet. reflexivity.
Qed.

(** C1. The classification of a probe, in the order of the design: a timeout,
    a connection failure, too many redirects, any other exception of
    [requests]; then a response, whose status is [UP (<n>ms)] for the code
    200, with [n] the elapsed whole milliseconds, and [DOWN (<code>)] for any
    other code. An exception that is both a timeout and a connection failure
    is a timeout. *)
Theorem check_url_classification (url : string) hdrs (w : world) :
  let status := fst (Sentinel.check_url url hdrs w) in
  (∀ c, net w (net_n w) = HttpRaise c →
        issubclass c requests_Timeout = true →
        status = Ret "DOWN (Timeout)") ∧
  (∀ c, net w (net_n w) = HttpRaise c →
        issubclass c requests_Timeout = false →
        issubclass c requests_ConnectionError = true →
        status = Ret "DOWN (Connection Error)") ∧
  (∀ c, net w (net_n w) = HttpRaise c →
        issubclass c requests_Timeout = false →
        issubclass c requests_ConnectionError = false →
        issubclass c TooManyRedirects = true →
        status = Ret "DOWN (Too Many Redirects)") ∧
  (∀ c, net w (net_n w) = HttpRaise c →
        issubclass c requests_Timeout = false →
        issubclass c requests_ConnectionError = false →
        issubclass c TooManyRedirects = false →
        issubclass c RequestException = true →
        status = Ret "DOWN (Error)") ∧
  (net w (net_n w) = Response 200 →
        status = Ret ("UP (" +:+ str_of_int (elapsed_ms w) +:+ "ms)")) ∧
  (∀ code, net w (net_n w) = Response code → code ≠ 200%Z →
        status = Ret ("DOWN (" +:+ str_of_int code +:+ ")")).
Proof.
  intros status; subst status.
  repeat split.
  - intros c Hnet H1. rewrite (check_url_raise _ _ _ _ Hnet), H1. reflexivity.
  - intros c Hnet H1 H2.
    rewrite (check_url_raise _ _ _ _ Hnet), H1, H2. reflexivity.
  - intros c Hnet H1 H2 H3.
    rewrite (check_url_raise _ _ _ _ Hnet), H1, H2, H3. reflexivity.
  - intros c Hnet H1 H2 H3 H4.
    rewrite (check_url_raise _ _ _ _ Hnet), H1, H2, H3, H4. reflexivity.
  - intros Hnet. rewrite (check_url_response _ _ _ _ Hnet). reflexivity.
  - intros code Hnet Hcode. rewrite (check_url_response _ _ _ _ Hnet).
    apply Z.eqb_neq in Hcode. rewrite Hcode. reflexivity.
Qed.

(** A connect timeout, which the second clause would also match, is reported
    by the first. *)
Lemma check_url_classification_witness :
  fst (Sentinel.check_url "https://example.com" Sentinel.headers
         (with_net (λ _, HttpRaise ConnectTimeout) (quiet single_db)))
  = Ret "DOWN (Timeout)".
Proof.
  exact (proj1 (check_url_classification "https://example.com"
                  Sentinel.headers
                  (with_net (λ _, HttpRaise ConnectTimeout) (quiet single_db)))
           ConnectTimeout eq_refl eq_refl).
Defined.

(** What [check_url] lets through is an exception of the request that does
    not derive from [Exception]. *)
Lemma check_url_escapes url hdrs (w : world) e :
  fst (Sentinel.check_url url hdrs w) = Raise e →
  ∃ c, e = Raised c ∧ net w (net_n w) = HttpRaise c ∧
       issubclass c Exception = false.
Proof.
  destruct (net w (net_n w)) as [code|c] eqn:Hnet.
  - rewrite (check_url_response _ _ _ _ Hnet). discriminate.
  - rewrite (check_url_raise _ _ _ _ Hnet).
    destruct (issubclass c requests_Timeout); [discriminate|].
    destruct (issubclass c requests_ConnectionError); [discriminate|].
    destruct (issubclass c TooManyRedirects); [discriminate|].
    destruct (issubclass c RequestException); [discriminate|].
    destruct (issubclass c Exception) eqn:HE; [discriminate|].
    cbn. intros [= <-]. eauto.
Qed.

Lemma check_url_returns url hdrs (w : world) :
  (∀ k, net w (net_n w) = HttpRaise k → issubclass k Exception = true) →
  ∃ status, fst (Sentinel.check_url url hdrs w) = Ret status.
Proof.
  intros Hnet.
  destruct (fst (Sentinel.check_url url hdrs w)) as [status|e] eqn:E; [eauto|].
  destruct (check_url_escapes url hdrs w e E) as (k & _ & Hk & HE).
  rewrite (Hnet k Hk) in HE. discriminate.
Qed.

(** An interrupt that arrives during the request is not an [Exception]: no
    clause of [check_url] matches it, and it is left to the loop of
    [check_urls], which has the clause for it. *)
Lemma check_url_propagates_interrupt :
  fst (Sentinel.check_url "https://example.com" Sentinel.headers interrupted)
  = Raise (Raised KeyboardInterrupt).
Proof. reflexivity. Qed.

(** C2. [check_url] raises no exception to its caller, an exception being an
    instance of [Exception]: whatever it raises does not derive from
    [Exception], and an exception of the request that derives from
    [Exception] and is outside [requests]' own classes becomes
    [DOWN (Unknown Error)]. What it lets through is exactly what the request
    raises outside [Exception], such as the interrupt of a shutdown. *)
Theorem check_url_catches_Exception (url : string) hdrs (w : world) :
  let status := fst (Sentinel.check_url url hdrs w) in
  (∀ e, status = Raise e →
        ∃ c, e = Raised c ∧ net w (net_n w) = HttpRaise c ∧
             issubclass c Exception = false) ∧
  (∀ c, net w (net_n w) = HttpRaise c →
        issubclass c Exception = true →
        issubclass c RequestException = false →
        status = Ret "DOWN (Unknown Error)") ∧
  (∀ c, net w (net_n w) = HttpRaise c →
        issubclass c Exception = false →
        status = Raise (Raised c)).
Proof.
  intros status; subst status. split; [|split].
  - intros e. apply check_url_escapes.
  - intros c Hnet HE HR. rewrite (check_url_raise _ _ _ _ Hnet).
    destruct (issubclass c requests_Timeout) eqn:H1;
      [apply subclass_Timeout_RequestException in H1; congruence|].
    destruct (issubclass c requests_ConnectionError) eqn:H2;
      [apply subclass_ConnectionError_RequestException in H2; congruence|].
    destruct (issubclass c TooManyRedirects) eqn:H3;
      [apply subclass_TooManyRedirects_RequestException in H3; congruence|].
    rewrite HR, HE. reflexivity.
  - intros c Hnet HE. rewrite (check_url_raise _ _ _ _ Hnet).
    destruct (issubclass c requests_Timeout) eqn:H1;
      [apply subclass_Timeout_RequestException,
         subclass_RequestException_Exception in H1; congruence|].
    destruct (issubclass c requests_ConnectionError) eqn:H2;
      [apply subclass_ConnectionError_RequestException,
         subclass_RequestException_Exception in H2; congruence|].
    destruct (issubclass c TooManyRedirects) eqn:H3;
      [apply subclass_TooManyRedirects_RequestException,
         subclass_RequestException_Exception in H3; congruence|].
    destruct (issubclass c RequestException) eqn:H4;
      [apply subclass_RequestException_Exception in H4; congruence|].
    rewrite HE. reflexivity.
Qed.

(** An exhausted memory during the request is an unknown error. *)
Lemma check_url_catches_Exception_witness :
  fst (Sentinel.check_url "https://example.com" Sentinel.headers
         (with_net (λ _, HttpRaise MemoryError) (quiet single_db)))
  = Ret "DOWN (Unknown Error)".
Proof.
  exact (proj1 (proj2 (check_url_catches_Exception "https://example.com"
                  Sentinel.headers
                  (with_net (λ _, HttpRaise MemoryError) (quiet single_db))))
           MemoryError eq_refl eq_refl eq_refl).
Defined.

(* ===================================================================== *)
(** * Numbers and their decimal form                                      *)
(* ===================================================================== *)

Lemma all_digits_uint (d : Decimal.uint) :
  match NilEmpty.string_of_uint d with
  | EmptyString => d = Decimal.Nil
  | s => all_digits s = true
  end.
Proof.
  induction d as [|d IH|d IH|d IH|d IH|d IH|d IH|d IH|d IH|d IH|d IH];
    [reflexivity|..];
    cbn [NilEmpty.string_of_uint all_digits];
    destruct (NilEmpty.string_of_uint d); first [reflexivity | exact IH].
Qed.

Lemma all_digits_str_of_int (n : Z) :
  (0 ≤ n)%Z → all_digits (str_of_int n) = true.
Proof.
  intros Hn. destruct n as [|p|p]; [reflexivity| |lia].
  unfold str_of_int. cbn [Z.to_int NilZero.string_of_int].
  pose proof (Unsigned.to_uint_nonnil p) as Hp.
  unfold NilZero.string_of_uint.
  pose proof (all_digits_uint (Pos.to_uint p)) as Hd.
  destruct (Pos.to_uint p) eqn:E; [congruence|..];
    (destruct (NilEmpty.string_of_uint _); [discriminate Hd|exact Hd]).
Qed.

Lemma int_of_number_nonneg (x : Q) : (0 <= x)%Q → (0 ≤ int_of_number x)%Z.
Proof.
  unfold Qle, int_of_number. cbn [Qnum Qden]. intros H.
  apply Z.quot_pos; lia.
Qed.

Lemma quot_nonneg_iff (a b : Z) :
  (0 < b)%Z → (0 ≤ a ÷ b)%Z ↔ (- b < a)%Z.
Proof.
  intros Hb. destruct (Z.le_gt_cases 0 a) as [Ha|Ha].
  - split; [lia|]. intros _. apply Z.quot_pos; lia.
  - assert (E : (a ÷ b = - (- a ÷ b))%Z).
    { rewrite Z.quot_opp_l by lia. lia. }
    pose proof (Z.quot_pos (- a) b ltac:(lia) Hb) as Hq.
    pose proof (Z.quot_small_iff (- a) b ltac:(lia)) as Hs.
    rewrite !Z.abs_eq in Hs by lia. lia.
Qed.

(** [int] truncates toward zero: what is above -1 becomes 0 or more. *)
Lemma int_of_number_nonneg_iff (x : Q) :
  (0 ≤ int_of_number x)%Z ↔ (- 1 < x)%Q.
Proof.
  unfold int_of_number, Qlt. cbn [Qnum Qden].
  rewrite quot_nonneg_iff by lia. destruct x as [a b]. cbn. lia.
Qed.

Lemma elapsed_ms_nonneg (w : world) :
  (clock w (clock_n w) <= clock w (S (clock_n w)))%Q → (0 ≤ elapsed_ms w)%Z.
Proof.
  intros H. apply int_of_number_nonneg.
  apply Qmult_le_0_compat; [|discriminate].
  apply -> Qle_minus_iff. exact H.
Qed.

(* ===================================================================== *)
(** * Redis commands                                                      *)
(* ===================================================================== *)

Lemma command_ok {A} (c : Redis.client) run (w : world) :
  redis_fault w (redis_n w) = None →
  Redis.command (A:=A) (Some c) run w =
  (fst (run (db w)), with_db (snd (run (db w))) (next_redis w)).
Proof.
  intros H. unfold Redis.command. rewrite H. destruct (run (db w)); reflexivity.
Qed.

Lemma command_fault {A} (c : Redis.client) run (w : world) k :
  redis_fault w (redis_n w) = Some k →
  Redis.command (A:=A) (Some c) run w = (Raise (Raised k), next_redis w).
Proof. intros H. unfold Redis.command. rewrite H. reflexivity. Qed.

Lemma set_ok (c : Redis.client) key value (w : world) :
  redis_fault w (redis_n w) = None →
  Redis.set (Some c) key value w =
  (Ret true, with_db (<[key := VStr value]> (db w)) (next_redis w)).
Proof. intros H. unfold Redis.set. rewrite command_ok by done. reflexivity. Qed.

Lemma set_fault (c : Redis.client) key value (w : world) k :
  redis_fault w (redis_n w) = Some k →
  Redis.set (Some c) key value w = (Raise (Raised k), next_redis w).
Proof. intros H. unfold Redis.set. apply command_fault, H. Qed.

(* ===================================================================== *)
(** * One target of a sweep                                               *)
(* ===================================================================== *)

(** The world in which [process_url] writes the status: [check_url] has
    returned. *)
Lemma check_url_redis url hdrs (w : world) :
  redis_fault (snd (Sentinel.check_url url hdrs w)) = redis_fault w ∧
  redis_n (snd (Sentinel.check_url url hdrs w)) = redis_n w ∧
  db (snd (Sentinel.check_url url hdrs w)) = db w.
Proof.
  destruct (net w (net_n w)) as [code|k] eqn:Hnet.
  - rewrite (check_url_response _ _ _ _ Hnet). done.
  - rewrite (check_url_raise _ _ _ _ Hnet).
    repeat match goal with |- context [if ?b then _ else _] => destruct b end;
      done.
Qed.

(** The status write succeeds: the status that [check_url] returned is
    stored under [status:<url>]. *)
Lemma process_url_written (c : Redis.client) i url (w : world) status :
  fst (Sentinel.check_url url Sentinel.headers w) = Ret status →
  redis_fault w (redis_n w) = None →
  fst (Sentinel.process_url (Some c) (i, url) w) = Ret tt ∧
  db (snd (Sentinel.process_url (Some c) (i, url) w)) =
    <["status:" +:+ url := VStr status]> (db w).
Proof.
  intros Hs Hf.
  destruct (check_url_redis url Sentinel.headers w) as (Hrf & Hrn & Hdb).
  unfold Sentinel.process_url. rewrite try_except_run, bind_run.
  destruct (Sentinel.check_url url Sentinel.headers w) as [res w1].
  cbn [fst snd] in *. subst res.
  rewrite bind_run, set_ok by congruence.
  rewrite bind_run.
  destruct (Sentinel.contains "UP" status); cbn; rewrite Hdb; done.
Qed.

(** C8, as stated, fails: [time.time()] is the wall clock, and when it is set
    back between the two readings the status returned and recorded has a
    negative number. No [n] with [0 <= n] gives that status. *)
Lemma up_status_negative :
  net clock_steps_back (net_n clock_steps_back) = Response 200 ∧
  fst (Sentinel.check_url "https://example.com" Sentinel.headers
         clock_steps_back)
  = Ret "UP (-12ms)" ∧
  status_of (db (snd (Sentinel.process_url the_client
                        (1%Z, "https://example.com") clock_steps_back)))
    "https://example.com"
  = Some (VStr "UP (-12ms)") ∧
  ∀ n : Z, (0 ≤ n)%Z → "UP (-12ms)" ≠ "UP (" +:+ str_of_int n +:+ "ms)".
Proof.
  split; [reflexivity|]. split; [vm_compute; reflexivity|].
  split; [vm_compute; reflexivity|].
  intros n Hn H. pose proof (all_digits_str_of_int n Hn) as Hd.
  destruct (str_of_int n) as [|a s]; [discriminate Hd|].
  injection H as <- _. cbn in Hd. by destruct s.
Qed.

(** C8, amended. A probe answered with the code 200: the status returned, and
    recorded when the write succeeds, is [UP (<n>ms)] with [n] the whole
    number that [int] makes of the difference of the two readings of the
    clock, in milliseconds. [0 <= n] holds exactly when the clock was not set
    back by a millisecond or more between the readings, so whenever the
    second reading is not earlier than the first; [n] then is written in
    decimal digits. *)
Theorem up_status_recorded (c : Redis.client) (i : Z) (url : string)
  (w : world) :
  net w (net_n w) = Response 200 →
  redis_fault w (redis_n w) = None →
  let elapsed :=
    ((clock w (S (clock_n w)) - clock w (clock_n w)) * 1000)%Q in
  ∃ n : Z,
    n = int_of_number elapsed ∧
    fst (Sentinel.check_url url Sentinel.headers w)
      = Ret ("UP (" +:+ str_of_int n +:+ "ms)") ∧
    status_of (db (snd (Sentinel.process_url (Some c) (i, url) w))) url
      = Some (VStr ("UP (" +:+ str_of_int n +:+ "ms)")) ∧
    ((0 ≤ n)%Z ↔ (- 1 < elapsed)%Q) ∧
    ((clock w (clock_n w) <= clock w (S (clock_n w)))%Q → (0 ≤ n)%Z) ∧
    ((0 ≤ n)%Z → all_digits (str_of_int n) = true).
Proof.
  intros Hnet Hf elapsed.
  assert (Hs : fst (Sentinel.check_url url Sentinel.headers w)
               = Ret ("UP (" +:+ str_of_int (elapsed_ms w) +:+ "ms)"))
    by (rewrite (check_url_response _ _ _ _ Hnet); reflexivity).
  exists (elapsed_ms w). split; [reflexivity|]. split; [exact Hs|].
  split.
  { destruct (process_url_written c i url w _ Hs Hf) as [_ ->].
    unfold status_of. apply lookup_insert_eq. }
  split; [apply int_of_number_nonneg_iff|].
  split; [apply elapsed_ms_nonneg|apply all_digits_str_of_int].
Qed.

Lemma up_status_recorded_witness :
  let w := quiet single_db in
  let elapsed :=
    ((clock w (S (clock_n w)) - clock w (clock_n w)) * 1000)%Q in
  ∃ n : Z,
    n = int_of_number elapsed ∧
    fst (Sentinel.check_url "https://example.com" Sentinel.headers w)
      = Ret ("UP (" +:+ str_of_int n +:+ "ms)") ∧
    status_of (db (snd (Sentinel.process_url the_client
                          (1%Z, "https://example.com") w)))
      "https://example.com"
      = Some (VStr ("UP (" +:+ str_of_int n +:+ "ms)")) ∧
    ((0 ≤ n)%Z ↔ (- 1 < elapsed)%Q) ∧
    ((clock w (clock_n w) <= clock w (S (clock_n w)))%Q → (0 ≤ n)%Z) ∧
    ((0 ≤ n)%Z → all_digits (str_of_int n) = true).
Proof.
  apply (up_status_recorded (Redis.Client "localhost" 6379) 1
           "https://example.com" (quiet single_db)).
  - reflexivity.
  - reflexivity.
Defined.

Lemma for_each_cons {A} (x : A) l body (w : world) :
  for_each (x :: l) body w =
  match body x w with
  | (Ret _, w') => for_each l body w'
  | (Raise e, w') => (Raise e, w')
  end.
Proof. reflexivity. Qed.

(** The status write raises an [Exception]: the handler logs and writes
    [DOWN (Processing Error)] with the next command. *)
Lemma process_url_write_failed (c : Redis.client) i url (w : world) k :
  (∀ k, net w (net_n w) = HttpRaise k → issubclass k Exception = true) →
  redis_fault w (redis_n w) = Some k →
  issubclass k Exception = true →
  let out := Sentinel.process_url (Some c) (i, url) w in
  (redis_fault w (S (redis_n w)) = None →
     fst out = Ret tt ∧
     db (snd out) = <["status:" +:+ url := VStr "DOWN (Processing Error)"]> (db w)) ∧
  (∀ k2, redis_fault w (S (redis_n w)) = Some k2 →
     fst out = Raise (Raised k2) ∧ db (snd out) = db w).
Proof.
  intros Hnet Hf HE out; subst out.
  destruct (check_url_returns url Sentinel.headers w Hnet) as [status Hs].
  destruct (check_url_redis url Sentinel.headers w) as (Hrf & Hrn & Hdb).
  unfold Sentinel.process_url. rewrite try_except_run, bind_run.
  destruct (Sentinel.check_url url Sentinel.headers w) as [res w1].
  cbn [fst snd] in *. subst res.
  rewrite bind_run, (set_fault _ _ _ _ k) by congruence.
  cbn [dispatch isinstance]. rewrite HE.
  rewrite bind_run. cbn [logger]. rewrite bind_run.
  split.
  - intros H2. rewrite set_ok by (cbn; congruence). cbn. rewrite Hdb. done.
  - intros k2 H2. rewrite (set_fault _ _ _ _ k2) by (cbn; congruence).
    cbn. done.
Qed.

(** C3, as stated, fails: the write of the status times out once; the sweep
    goes on to its end, but the status of the target is not what it was. *)
Lemma sweep_overwrites_status_on_failure :
  status_of (db write_fails_once) "https://example.com"
    = Some (VStr "UP (40ms)") ∧
  fst (Sentinel.sweep the_client 1 write_fails_once) = Ret tt ∧
  status_of (db (snd (Sentinel.sweep the_client 1 write_fails_once)))
    "https://example.com" = Some (VStr "DOWN (Processing Error)").
Proof. vm_compute. done. Qed.

(** C3, amended. The write of a target's status raises an [Exception]. When
    the handler's own write succeeds the loop goes on with the next target
    and the status of the failed one is [DOWN (Processing Error)]; when that
    write raises too, its exception leaves the loop, the targets that remain
    are not processed and the status is left as it was. *)
Theorem failed_target_marked (c : Redis.client) (i : Z) (url : string)
  (rest : list (Z * string)) (w : world) (k : pyclass) :
  (∀ k, net w (net_n w) = HttpRaise k → issubclass k Exception = true) →
  redis_fault w (redis_n w) = Some k →
  issubclass k Exception = true →
  let w1 := snd (Sentinel.process_url (Some c) (i, url) w) in
  (redis_fault w (S (redis_n w)) = None →
     for_each ((i, url) :: rest) (Sentinel.process_url (Some c)) w
       = for_each rest (Sentinel.process_url (Some c)) w1 ∧
     status_of (db w1) url = Some (VStr "DOWN (Processing Error)")) ∧
  (∀ k2, redis_fault w (S (redis_n w)) = Some k2 →
     for_each ((i, url) :: rest) (Sentinel.process_url (Some c)) w
       = (Raise (Raised k2), w1) ∧
     status_of (db w1) url = status_of (db w) url).
Proof.
  intros Hnet Hf HE w1; subst w1.
  destruct (process_url_write_failed c i url w k Hnet Hf HE) as [Hok Hko].
  rewrite for_each_cons. split.
  - intros H2. destruct (Hok H2) as [Hr Hd].
    destruct (Sentinel.process_url (Some c) (i, url) w) as [res w1].
    cbn [fst snd] in *. subst res. split; [reflexivity|].
    rewrite Hd. unfold status_of. apply lookup_insert_eq.
  - intros k2 H2. destruct (Hko k2 H2) as [Hr Hd].
    destruct (Sentinel.process_url (Some c) (i, url) w) as [res w1].
    cbn [fst snd] in *. subst res. split; [reflexivity|].
    rewrite Hd. reflexivity.
Qed.

Lemma failed_target_marked_witness :
  for_each [(1%Z, "https://example.com")] (Sentinel.process_url the_client)
    next_command_fails
  = (Ret tt,
     snd (Sentinel.process_url the_client (1%Z, "https://example.com")
            next_command_fails)) ∧
  status_of
    (db (snd (Sentinel.process_url the_client (1%Z, "https://example.com")
                next_command_fails)))
    "https://example.com" = Some (VStr "DOWN (Processing Error)").
Proof.
  apply (failed_target_marked (Redis.Client "localhost" 6379) 1
           "https://example.com" [] next_command_fails redis_TimeoutError).
  - intros k H. discriminate H.
  - reflexivity.
  - reflexivity.
  - reflexivity.
Defined.

(* ===================================================================== *)
(** * The working set of a sweep                                          *)
(* ===================================================================== *)

Lemma later_refl (w : world) : later w w.
Proof. unfold later. repeat split; lia. Qed.

Lemma later_trans (w1 w2 w3 : world) : later w1 w2 → later w2 w3 → later w1 w3.
Proof.
  unfold later. intros (?&?&?&?&?&?&?) (?&?&?&?&?&?&?).
  repeat split; try congruence; lia.
Qed.

Lemma later_next_redis (w : world) : later w (next_redis w).
Proof. unfold later; cbn. repeat split; lia. Qed.

Lemma later_next_net (w : world) : later w (next_net w).
Proof. unfold later; cbn. repeat split; lia. Qed.

Lemma later_next_clock (w : world) : later w (next_clock w).
Proof. unfold later; cbn. repeat split; lia. Qed.

Lemma later_emit ev (w : world) : later w (emit ev w).
Proof. unfold later; cbn. repeat split; lia. Qed.

Lemma later_with_db d (w : world) : later w (with_db d w).
Proof. unfold later; cbn. repeat split; lia. Qed.

Lemma redis_up_later (w w' : world) : later w w' → redis_up w → redis_up w'.
Proof.
  unfold later, redis_up. intros (_&Hf&_&_&Hn&_) Hup n Hle.
  rewrite Hf. apply Hup. lia.
Qed.

Lemma net_uninterrupted_later (w w' : world) :
  later w w' → net_uninterrupted w → net_uninterrupted w'.
Proof.
  unfold later, net_uninterrupted. intros (_&_&Hf&_&_&Hn&_) Hup n k Hle.
  rewrite Hf. apply Hup. lia.
Qed.

Lemma redis_up_now (w : world) : redis_up w → redis_fault w (redis_n w) = None.
Proof. intros H. apply H. lia. Qed.

Lemma requested_app (evs1 evs2 : list event) :
  requested (evs1 ++ evs2) = requested evs1 ++ requested evs2.
Proof.
  induction evs1 as [|[] evs1 IH]; cbn; [done|..]; rewrite ?IH; done.
Qed.

Lemma time_sleep_requested (seconds : Q) (w : world) :
  requested (events (snd (time_sleep seconds w))) = requested (events w).
Proof.
  destruct (time_sleep_spec seconds w) as [[_ ->]|(_ & k & _ & ->)]; [|done].
  cbn. rewrite requested_app. cbn. by rewrite app_nil_r.
Qed.

Lemma time_sleep_later (seconds : Q) (w : world) :
  later w (snd (time_sleep seconds w)).
Proof.
  destruct (time_sleep_spec seconds w) as [[_ ->]|(_ & k & _ & ->)].
  - apply later_emit.
  - apply later_refl.
Qed.

Lemma enumerate_snd {A} (l : list A) (start : Z) :
  (enumerate l start).*2 = l.
Proof.
  revert start. induction l as [|x l IH]; intros start; cbn; [done|].
  by rewrite IH.
Qed.

Lemma smembers_ok (c : Redis.client) key (w : world) :
  redis_fault w (redis_n w) = None →
  (∀ v, db w !! key ≠ Some (VStr v)) →
  Redis.smembers (Some c) key w = (Ret (members_of (db w) key), next_redis w).
Proof.
  intros Hf Ht. unfold Redis.smembers, members_of. rewrite command_ok by done.
  destruct (db w !! key) as [[s|v]|] eqn:E; try reflexivity.
  destruct (Ht v). reflexivity.
Qed.

(** The loop of lines 101-104 adds the URL set of every station. *)
Lemma collect_urls_ok (c : Redis.client) (stations : list string)
  (all_urls : gset string) (w : world) :
  redis_up w → sets_typed (db w) →
  Sentinel.collect_urls (Some c) stations all_urls w =
  (Ret (all_urls ∪ ⋃ (urls_of (db w) <$> stations)),
   Nat.iter (length stations) next_redis w).
Proof.
  revert all_urls w.
  induction stations as [|s stations IH]; intros all_urls w Hup Ht.
  - cbn. by rewrite union_empty_r_L.
  - cbn [Sentinel.collect_urls]. rewrite bind_run.
    rewrite smembers_ok by (try apply redis_up_now; try apply Ht; done).
    rewrite IH.
    + rewrite fmap_cons, union_list_cons. cbn [length].
      rewrite Nat.iter_succ_r. f_equal. f_equal.
      unfold urls_of. cbn [db next_redis]. by rewrite (assoc_L (∪)).
    + eapply redis_up_later; [apply later_next_redis|exact Hup].
    + exact Ht.
Qed.

Lemma iter_next_redis_later (n : nat) (w : world) :
  later w (Nat.iter n next_redis w) ∧
  db (Nat.iter n next_redis w) = db w ∧
  events (Nat.iter n next_redis w) = events w.
Proof.
  induction n as [|n (IH & Hd & He)]; [split; [apply later_refl|done]|].
  rewrite Nat.iter_succ. split; [|done].
  eapply later_trans; [exact IH|apply later_next_redis].
Qed.

Lemma enumerate_targets_ok (c : Redis.client) (w : world) :
  redis_up w → sets_typed (db w) →
  Sentinel.enumerate_targets (Some c) w =
  (Ret (station_set (db w),
        ⋃ (urls_of (db w) <$> elements (station_set (db w)))),
   Nat.iter (S (size (station_set (db w)))) next_redis w).
Proof.
  intros Hup Ht. unfold Sentinel.enumerate_targets.
  rewrite bind_run, smembers_ok by (try apply redis_up_now; try apply Ht; done).
  rewrite bind_run, collect_urls_ok.
  - cbn. rewrite union_empty_l_L. unfold station_set.
    rewrite <- Nat.iter_succ_r. reflexivity.
  - eapply redis_up_later; [apply later_next_redis|exact Hup].
  - exact Ht.
Qed.

(** The set that the loop builds holds exactly the URLs of the stations. *)
Lemma elem_of_working_set (d : gmap string rval) (url : string) :
  url ∈ ⋃ (urls_of d <$> elements (station_set d)) ↔
  ∃ station, station ∈ station_set d ∧ url ∈ urls_of d station.
Proof.
  rewrite elem_of_union_list. split.
  - intros (X & HX & Hurl). apply list_elem_of_fmap in HX as (s & -> & Hs).
    exists s. split; [by apply elem_of_elements|done].
  - intros (s & Hs & Hurl). exists (urls_of d s). split; [|done].
    apply list_elem_of_fmap. exists s. split; [done|by apply elem_of_elements].
Qed.

Lemma check_url_frame url hdrs (w : world) :
  let w1 := snd (Sentinel.check_url url hdrs w) in
  later w w1 ∧ db w1 = db w ∧ redis_n w1 = redis_n w ∧
  requested (events w1) = requested (events w) ++ [url].
Proof.
  assert (Hlater : later w (after_get url w)).
  { unfold after_get.
    eapply later_trans; [apply later_next_clock|].
    eapply later_trans; [apply later_emit|apply later_next_net]. }
  assert (Hreq : requested (events (after_get url w))
                 = requested (events w) ++ [url])
    by (cbn; by rewrite requested_app).
  destruct (net w (net_n w)) as [code|k] eqn:Hnet.
  - rewrite (check_url_response _ _ _ _ Hnet). cbn [snd].
    split; [|done].
    eapply later_trans; [exact Hlater|apply later_next_clock].
  - rewrite (check_url_raise _ _ _ _ Hnet).
    repeat match goal with |- context [if ?b then _ else _] => destruct b end;
      cbn [snd mret M_ret raise]; try done.
    rewrite bind_run. cbn [logger snd mret M_ret].
    split; [eapply later_trans; [exact Hlater|apply later_emit]|].
    cbn. rewrite !requested_app. cbn. by rewrite app_nil_r.
Qed.

(** A target of a sweep in which Redis answers and no interrupt arrives: one
    request, one write under [status:<url>], and the loop goes on. *)
Lemma process_url_ok (c : Redis.client) i url (w : world) :
  redis_up w → net_uninterrupted w →
  ∃ w', Sentinel.process_url (Some c) (i, url) w = (Ret tt, w') ∧
        later w w' ∧
        requested (events w') = requested (events w) ++ [url] ∧
        ∀ key, key ≠ "status:" +:+ url → db w' !! key = db w !! key.
Proof.
  intros Hup Hnet.
  destruct (check_url_returns url Sentinel.headers w) as [status Hs].
  { intros k Hk. eapply Hnet; [|exact Hk]. lia. }
  destruct (check_url_frame url Sentinel.headers w) as (Hl & Hdb & Hrn & Hreq).
  pose proof (redis_up_now _ (redis_up_later _ _ Hl Hup)) as Hf.
  unfold Sentinel.process_url. rewrite try_except_run, bind_run.
  destruct (Sentinel.check_url url Sentinel.headers w) as [res w1].
  cbn [fst snd] in *. subst res.
  rewrite bind_run, set_ok by exact Hf.
  rewrite bind_run.
  assert (Hl' : later w (with_db (<["status:" +:+ url := VStr status]> (db w1))
                           (next_redis w1))).
  { eapply later_trans; [exact Hl|].
    eapply later_trans; [apply later_next_redis|apply later_with_db]. }
  destruct (Sentinel.contains "UP" status); cbn; eexists.
  all: split; [reflexivity|].
  all: split;
    [eapply later_trans; [exact Hl'|]; eapply later_trans; apply later_emit|].
  all: split; [cbn; rewrite !requested_app, Hreq; cbn; by rewrite !app_nil_r|].
  all: intros key Hkey; cbn; rewrite lookup_insert_ne by done; by rewrite Hdb.
Qed.

Lemma for_each_process_url_ok (c : Redis.client) (items : list (Z * string))
  (w : world) :
  redis_up w → net_uninterrupted w →
  ∃ w', for_each items (Sentinel.process_url (Some c)) w = (Ret tt, w') ∧
        later w w' ∧
        requested (events w') = requested (events w) ++ items.*2.
Proof.
  revert w. induction items as [|[i url] items IH]; intros w Hup Hnet.
  - exists w. cbn. rewrite app_nil_r. split; [done|].
    split; [apply later_refl|done].
  - destruct (process_url_ok c i url w Hup Hnet) as (w1 & Hrun & Hl & Hreq & _).
    destruct (IH w1) as (w2 & Hrun2 & Hl2 & Hreq2).
    { eapply redis_up_later; eassumption. }
    { eapply net_uninterrupted_later; eassumption. }
    exists w2. rewrite for_each_cons, Hrun. split; [exact Hrun2|].
    split; [eapply later_trans; eassumption|].
    rewrite Hreq2, Hreq. cbn. by rewrite <- app_assoc.
Qed.

(** C4. In a sweep in which Redis answers and no interrupt arrives, the set
    [all_urls] that the enumeration builds holds exactly the URLs that belong
    to some station, and the sweep requests each of them once: the requests
    of the sweep are the elements of that set, without repetition. The sweep
    goes through all of them and ends as its last statement does, the sleep
    of [CHECK_INTERVAL] seconds. *)
Theorem sweep_working_set (c : Redis.client) (n : Z) (w : world) :
  redis_up w → net_uninterrupted w → sets_typed (db w) →
  ∃ (all_urls : gset string) (probes : list string),
    fst (Sentinel.enumerate_targets (Some c) w)
      = Ret (station_set (db w), all_urls) ∧
    (∀ url, url ∈ all_urls ↔
            ∃ station, station ∈ station_set (db w) ∧
                       url ∈ urls_of (db w) station) ∧
    fst (Sentinel.sweep (Some c) n w)
      = fst (time_sleep (inject_Z (CHECK_INTERVAL (cfg w))) w) ∧
    requested (events (snd (Sentinel.sweep (Some c) n w)))
      = requested (events w) ++ probes ∧
    NoDup probes ∧
    (∀ url, url ∈ probes ↔ url ∈ all_urls).
Proof.
  intros Hup Hnet Ht.
  set (all_urls := ⋃ (urls_of (db w) <$> elements (station_set (db w)))).
  exists all_urls, (elements all_urls).
  split; [by rewrite enumerate_targets_ok|].
  split; [apply elem_of_working_set|].
  assert (Hsweep : ∃ w', Sentinel.sweep (Some c) n w
              = time_sleep (inject_Z (CHECK_INTERVAL (cfg w))) w' ∧
            requested (events w')
              = requested (events w) ++ elements all_urls).
  { unfold Sentinel.sweep. rewrite bind_run. cbn [time_time].
    rewrite bind_run, enumerate_targets_ok;
      [|eapply redis_up_later; [apply later_next_clock|exact Hup]|exact Ht].
    cbn [db next_clock]. fold all_urls. rewrite bind_run. cbn [logger]. rewrite bind_run.
    set (w1 := emit _ _).
    assert (Hl1 : later w w1 ∧ events w1 = events w ++ [EvLog INFO
      "=== Check #{check_count}: {len(all_urls)} URLs across {len(stations)} stations ==="]).
    { subst w1.
      destruct (iter_next_redis_later (S (size (station_set (db w))))
                  (next_clock w)) as (Hl & _ & He).
      split; [|cbn [events emit]; by rewrite He].
      eapply later_trans; [apply later_next_clock|].
      eapply later_trans; [exact Hl|apply later_emit]. }
    destruct Hl1 as [Hl1 He1].
    set (w2 := snd ((if decide (all_urls = ∅)
                     then logger WARNING "No URLs to monitor"
                     else mret tt) w1)).
    assert (Hw2 : (if decide (all_urls = ∅)
                   then logger WARNING "No URLs to monitor"
                   else mret tt) w1 = (Ret tt, w2) ∧ later w1 w2 ∧
                  requested (events w2) = requested (events w1)).
    { subst w2. destruct (decide (all_urls = ∅)); cbn.
      - split; [done|]. split; [apply later_emit|].
        rewrite requested_app. cbn. by rewrite app_nil_r.
      - split; [done|]. split; [apply later_refl|done]. }
    destruct Hw2 as (-> & Hl2 & Hreq2). rewrite bind_run.
    destruct (for_each_process_url_ok c
                (enumerate (elements all_urls) 1) w2) as (w3 & -> & Hl3 & Hreq3).
    { eapply redis_up_later; [|exact Hup]. eapply later_trans; eassumption. }
    { eapply net_uninterrupted_later; [|exact Hnet].
      eapply later_trans; eassumption. }
    rewrite enumerate_snd in Hreq3.
    rewrite bind_run. cbn [time_time]. rewrite bind_run. cbn [logger].
    rewrite bind_run. cbn [Sentinel.config_ cfg emit next_clock].
    assert (Hcfg : cfg w3 = cfg w).
    { destruct Hl1 as [<- _], Hl2 as [<- _], Hl3 as [<- _]. done. }
    rewrite Hcfg. eexists. split; [reflexivity|].
    cbn. rewrite !requested_app. cbn. rewrite !app_nil_r.
    rewrite Hreq3, Hreq2, He1, requested_app. cbn. by rewrite app_nil_r. }
  destruct Hsweep as (w' & -> & Hreq).
  split; [apply time_sleep_fst|]. rewrite time_sleep_requested.
  split; [exact Hreq|].
  split; [apply NoDup_elements|]. intros url. apply elem_of_elements.
Qed.

Lemma scenario_db_typed : sets_typed scenario_db.
Proof.
  unfold scenario_db. split.
  - intros v H. vm_compute in H. discriminate H.
  - intros station v H.
    repeat (apply lookup_insert_Some in H as [[_ H]|[_ H]];
            [discriminate H|]).
    apply lookup_insert_Some in H as [[H _]|[_ H]]; [discriminate H|].
    rewrite lookup_empty in H. discriminate H.
Qed.

Lemma single_db_typed : sets_typed single_db.
Proof.
  unfold single_db. split.
  - intros v H. vm_compute in H. discriminate H.
  - intros station v H.
    repeat (apply lookup_insert_Some in H as [[_ H]|[_ H]];
            [discriminate H|]).
    apply lookup_insert_Some in H as [[H _]|[_ H]]; [discriminate H|].
    rewrite lookup_empty in H. discriminate H.
Qed.

(** The scenario of the design: two stations share a URL; two requests. *)
Lemma sweep_working_set_witness :
  ∃ (all_urls : gset string) (probes : list string),
    fst (Sentinel.enumerate_targets the_client (quiet scenario_db))
      = Ret (station_set scenario_db, all_urls) ∧
    (∀ url, url ∈ all_urls ↔
            ∃ station, station ∈ station_set scenario_db ∧
                       url ∈ urls_of scenario_db station) ∧
    fst (Sentinel.sweep the_client 1 (quiet scenario_db)) = Ret tt ∧
    requested (events (snd (Sentinel.sweep the_client 1 (quiet scenario_db))))
      = [] ++ probes ∧
    NoDup probes ∧
    (∀ url, url ∈ probes ↔ url ∈ all_urls).
Proof.
  apply (sweep_working_set (Redis.Client "localhost" 6379) 1
           (quiet scenario_db)).
  - intros n _. reflexivity.
  - intros n k _ H. discriminate H.
  - exact scenario_db_typed.
Defined.

Example scenario_two_probes :
  requested (events (snd (Sentinel.sweep the_client 1 (quiet scenario_db))))
  = ["https://example.com"; "https://nonexistent.invalid"].
Proof. vm_compute. reflexivity. Qed.

(* ===================================================================== *)
(** * [connect_redis]                                                      *)
(* ===================================================================== *)

(** One attempt: it returns the client, with the default station in place,
    or it raises the fault of one of its commands and leaves the store and
    the trace as they were. *)
Lemma connect_redis_try_spec (w : world) :
  match Sentinel.connect_redis_try w with
  | (Ret r, w') =>
      r = Some (Redis.Client (REDIS_HOST (cfg w)) (REDIS_PORT (cfg w))) ∧
      later w w' ∧ db w' = bootstrap (db w)
  | (Raise e, w') =>
      ∃ k, e = Raised k ∧ later w w' ∧ db w' = db w ∧ events w' = events w
  end.
Proof.
  unfold Sentinel.connect_redis_try, bootstrap.
  rewrite bind_run. cbn [Sentinel.config_]. rewrite bind_run.
  unfold Redis.ping, Redis.exists_, Redis.sadd.
  destruct (redis_fault w (redis_n w)) as [k|] eqn:F1.
  { rewrite (command_fault _ _ _ k) by done. exists k.
    split; [done|]. split; [unfold later; cbn; repeat split; lia|done]. }
  rewrite command_ok by done. cbn [fst snd]. rewrite bind_run.
  destruct (redis_fault w (S (redis_n w))) as [k|] eqn:F2.
  { rewrite (command_fault _ _ _ k) by done. exists k.
    split; [done|]. split; [unfold later; cbn; repeat split; lia|done]. }
  rewrite command_ok by done. cbn [fst snd db with_db next_redis].
  destruct (db w !! "stations") as [v|] eqn:E.
  - cbn. split; [done|]. split; [|done].
    unfold later; cbn. repeat split; lia.
  - cbn [Z.eqb]. rewrite !bind_run.
    destruct (redis_fault w (S (S (redis_n w)))) as [k|] eqn:F3.
    { rewrite (command_fault _ _ _ k) by done. exists k.
    split; [done|]. split; [unfold later; cbn; repeat split; lia|done]. }
    rewrite command_ok by done. cbn [fst snd db with_db next_redis].
    rewrite E. cbn. split; [done|]. split; [|done].
    unfold later; cbn. repeat split; lia.
Qed.

Lemma connect_redis_from_cons attempt rest (w : world) :
  Sentinel.connect_redis_from (attempt :: rest) w =
  match Sentinel.connect_redis_try w with
  | (Ret r, w') => (Ret r, w')
  | (Raise e, w1) =>
      if isinstance e Exception
      then if (attempt <? Sentinel.max_retries - 1)%Z
           then Sentinel.connect_redis_from rest
                  (emit (EvSleep Sentinel.retry_delay)
                     (emit attempt_failed w1))
           else (Raise (SystemExit 1),
                 emit (EvLog CRITICAL
                         "Failed to connect to Redis after all retries")
                   (emit attempt_failed w1))
      else (Raise e, w1)
  end.
Proof.
  cbn [Sentinel.connect_redis_from]. rewrite bind_run, try_except_run.
  rewrite bind_run.
  destruct (Sentinel.connect_redis_try w) as [[r|e] w1]; [reflexivity|].
  cbn [dispatch]. destruct (isinstance e Exception); [|reflexivity].
  rewrite bind_run. cbn [logger].
  destruct (attempt <? Sentinel.max_retries - 1)%Z; reflexivity.
Qed.

(** The loop over any list of attempts. *)
Lemma connect_redis_from_spec (attempts : list Z) (w : world) :
  let out := Sentinel.connect_redis_from attempts w in
  later w (snd out) ∧
  match fst out with
  | Ret (Some _) => db (snd out) = bootstrap (db w)
  | Ret None =>
      db (snd out) = db w ∧ Forall (λ a, a < Sentinel.max_retries - 1)%Z attempts
  | Raise (SystemExit code) =>
      code = 1%Z ∧ db (snd out) = db w ∧
      events (snd out) = events w ++ failures attempts
  | Raise (Raised k) => issubclass k Exception = false ∧ db (snd out) = db w
  end.
Proof.
  revert w. induction attempts as [|attempt rest IH]; intros w out; subst out.
  { cbn. split; [apply later_refl|]. split; [done|constructor]. }
  rewrite connect_redis_from_cons.
  pose proof (connect_redis_try_spec w) as Htry.
  destruct (Sentinel.connect_redis_try w) as [[r|e] w1].
  - destruct Htry as (-> & Hl & Hdb). cbn [fst snd]. done.
  - destruct Htry as (k & -> & Hl & Hdb & Hev). cbn [isinstance].
    destruct (issubclass k Exception) eqn:HE; [|cbn [fst snd]; done].
    cbn [failures].
    destruct (attempt <? Sentinel.max_retries - 1)%Z eqn:Hlt.
    + set (w2 := emit _ (emit _ w1)).
      assert (Hl2 : later w w2).
      { eapply later_trans; [exact Hl|]. eapply later_trans; apply later_emit. }
      specialize (IH w2). cbn zeta in IH. destruct IH as [Hl3 IH].
      split; [eapply later_trans; eassumption|].
      destruct (fst (Sentinel.connect_redis_from rest w2)) as [[r|]|[k2|code]].
      * rewrite IH. cbn. by rewrite Hdb.
      * destruct IH as [-> HF]. cbn. split; [done|].
        constructor; [by apply Z.ltb_lt|done].
      * destruct IH as [? ->]. cbn. done.
      * destruct IH as (-> & -> & ->). cbn. rewrite Hev.
        split; [done|]. split; [done|]. by rewrite <- !app_assoc.
    + cbn [fst snd]. split.
      * eapply later_trans; [exact Hl|]. eapply later_trans; apply later_emit.
      * cbn. rewrite Hev. split; [done|]. split; [done|].
        by rewrite <- !app_assoc.
Qed.

Lemma failures_range : failures (range (Z.to_nat Sentinel.max_retries))
                       = retries_exhausted.
Proof. reflexivity. Qed.

(** [connect_redis] returns a client or raises; it does not fall off the end
    of its loop. *)
Lemma connect_redis_spec (w : world) :
  let out := Sentinel.connect_redis w in
  later w (snd out) ∧
  match fst out with
  | Ret (Some _) => db (snd out) = bootstrap (db w)
  | Ret None => False
  | Raise (SystemExit code) =>
      code = 1%Z ∧ db (snd out) = db w ∧
      events (snd out) = events w ++ retries_exhausted
  | Raise (Raised k) => issubclass k Exception = false ∧ db (snd out) = db w
  end.
Proof.
  pose proof (connect_redis_from_spec (range (Z.to_nat Sentinel.max_retries)) w)
    as H. cbn zeta in *. unfold Sentinel.connect_redis.
  destruct H as [Hl H]. split; [exact Hl|].
  destruct (fst _) as [[r|]|[k|code]]; try done.
  destruct H as [_ HF]. 
  apply Forall_forall with (x := 4%Z) in HF; [done|].
  vm_compute. set_solver.
Qed.

(** C6. A [connect_redis] that returns has returned a client. If the key
    [stations] was absent, the store differs by the station set, now
    [{General}]; if the key was there, the store is unchanged. In a store
    that Redis and the two programs can have built, at least one station
    exists afterwards. *)
Theorem connect_redis_default_station (w : world) r (w' : world) :
  Sentinel.connect_redis w = (Ret r, w') →
  r ≠ None ∧
  (db w !! "stations" = None →
     db w' = <["stations" := VSet {["General"]}]> (db w) ∧
     station_set (db w') = {["General"]}) ∧
  (db w !! "stations" ≠ None → db w' = db w) ∧
  (sets_typed (db w) → no_empty_set (db w) →
     ∃ station, station ∈ station_set (db w')).
Proof.
  intros Hrun. destruct (connect_redis_spec w) as [_ H].
  rewrite Hrun in H. cbn [fst snd] in H.
  destruct r as [r|]; [|done]. split; [done|].
  unfold bootstrap in H. split; [|split].
  - intros E. rewrite E in H. split; [exact H|].
    unfold station_set, members_of. by rewrite H, lookup_insert_eq.
  - intros E. destruct (db w !! "stations"); [exact H|done].
  - intros [Ht _] Hne. unfold station_set, members_of.
    destruct (db w !! "stations") as [[s|v]|] eqn:E.
    + rewrite H, E. apply set_choose_L. intros ->. by apply (Hne "stations").
    + by destruct (Ht v).
    + rewrite H, lookup_insert_eq. exists "General". set_solver.
Qed.

(** The first connect to an empty database. *)
Lemma connect_redis_default_station_witness :
  the_client ≠ None ∧
  (db (quiet ∅) !! "stations" = None →
     db (snd (Sentinel.connect_redis (quiet ∅)))
       = <["stations" := VSet {["General"]}]> (db (quiet ∅)) ∧
     station_set (db (snd (Sentinel.connect_redis (quiet ∅))))
       = {["General"]}) ∧
  (db (quiet ∅) !! "stations" ≠ None →
     db (snd (Sentinel.connect_redis (quiet ∅))) = db (quiet ∅)) ∧
  (sets_typed (db (quiet ∅)) → no_empty_set (db (quiet ∅)) →
     ∃ station,
       station ∈ station_set (db (snd (Sentinel.connect_redis (quiet ∅))))).
Proof.
  apply (connect_redis_default_station (quiet ∅) the_client
           (snd (Sentinel.connect_redis (quiet ∅)))).
  vm_compute. reflexivity.
Defined.

(* ===================================================================== *)
(** * The exits of the process                                            *)
(* ===================================================================== *)

Lemma no_exit_ret {A} (a : A) : no_exit (mret a).
Proof. intros w code. discriminate. Qed.

Lemma no_exit_bind {A B} (m : M A) (f : A → M B) :
  no_exit m → (∀ a, no_exit (f a)) → no_exit (m ≫= f).
Proof.
  intros Hm Hf w code. rewrite bind_run. specialize (Hm w).
  destruct (m w) as [[a|e] w1]; [apply Hf|].
  cbn [fst] in *. destruct e as [k|code']; [discriminate|].
  by destruct (Hm code').
Qed.

Lemma no_exit_dispatch {A} (handlers : list (pyclass * (exn → M A))) k :
  (∀ cls h, (cls, h) ∈ handlers → ∀ e, no_exit (h e)) →
  no_exit (dispatch handlers (Raised k)).
Proof.
  induction handlers as [|[cls h] handlers IH]; intros Hh.
  - intros w code. discriminate.
  - cbn [dispatch]. destruct (isinstance (Raised k) cls).
    + apply (Hh cls h). left.
    + apply IH. intros cls' h' Hin. apply (Hh cls' h'). by right.
Qed.

Lemma no_exit_try_except {A} (body : M A) handlers :
  no_exit body →
  (∀ cls h, (cls, h) ∈ handlers → ∀ e, no_exit (h e)) →
  no_exit (try_except body handlers).
Proof.
  intros Hb Hh w code. rewrite try_except_run. specialize (Hb w).
  destruct (body w) as [[a|e] w1]; [discriminate|].
  cbn [fst] in Hb. destruct e as [k|code']; [|by destruct (Hb code')].
  by apply no_exit_dispatch.
Qed.

Lemma no_exit_logger level message : no_exit (logger level message).
Proof. intros w code. discriminate. Qed.

Lemma no_exit_time_sleep seconds : no_exit (time_sleep seconds).
Proof.
  intros w code.
  by destruct (time_sleep_spec seconds w) as [[_ ->]|(_ & k & _ & ->)].
Qed.

Lemma no_exit_time_time : no_exit time_time.
Proof. intros w code. discriminate. Qed.

Lemma no_exit_config : no_exit Sentinel.config_.
Proof. intros w code. discriminate. Qed.

Lemma no_exit_command {A} r (run : gmap string rval → result A * gmap string rval) :
  (∀ d code, fst (run d) ≠ Raise (SystemExit code)) →
  no_exit (Redis.command r run).
Proof.
  intros Hrun w code. unfold Redis.command.
  destruct r; [|discriminate].
  destruct (redis_fault w (redis_n w)); [discriminate|].
  specialize (Hrun (db w) code). by destruct (run (db w)).
Qed.

Lemma no_exit_smembers r key : no_exit (Redis.smembers r key).
Proof.
  apply no_exit_command. intros d code.
  destruct (d !! key) as [[]|]; discriminate.
Qed.

Lemma no_exit_set r key value : no_exit (Redis.set r key value).
Proof. apply no_exit_command. intros d code. discriminate. Qed.

Lemma no_exit_check_url url hdrs : no_exit (Sentinel.check_url url hdrs).
Proof.
  intros w code H.
  destruct (check_url_escapes url hdrs w _ H) as (k & Hk & _). discriminate.
Qed.

Lemma no_exit_for_each {A} (l : list A) body :
  (∀ x, no_exit (body x)) → no_exit (for_each l body).
Proof.
  intros Hb. induction l as [|x l IH]; [apply no_exit_ret|].
  cbn [for_each]. apply no_exit_bind; [apply Hb|done].
Qed.

Lemma no_exit_process_url r item : no_exit (Sentinel.process_url r item).
Proof.
  destruct item as [i url]. unfold Sentinel.process_url.
  apply no_exit_try_except.
  - apply no_exit_bind; [apply no_exit_check_url|]. intros status.
    apply no_exit_bind; [apply no_exit_set|]. intros _.
    apply no_exit_bind; [|intros _; apply no_exit_time_sleep].
    destruct (Sentinel.contains "UP" status); apply no_exit_logger.
  - intros cls h Hin e. apply list_elem_of_singleton in Hin as [= -> ->].
    apply no_exit_bind; [apply no_exit_logger|]. intros _.
    apply no_exit_bind; [apply no_exit_set|]. intros _. apply no_exit_ret.
Qed.

Lemma no_exit_collect_urls r stations all_urls :
  no_exit (Sentinel.collect_urls r stations all_urls).
Proof.
  revert all_urls. induction stations as [|s stations IH]; intros all_urls.
  - apply no_exit_ret.
  - cbn [Sentinel.collect_urls].
    apply no_exit_bind; [apply no_exit_smembers|]. intros ?. apply IH.
Qed.

(** A sweep never calls [sys.exit]. *)
Lemma no_exit_sweep r n : no_exit (Sentinel.sweep r n).
Proof.
  unfold Sentinel.sweep, Sentinel.enumerate_targets.
  apply no_exit_bind; [apply no_exit_time_time|]. intros _.
  apply no_exit_bind.
  { apply no_exit_bind; [apply no_exit_smembers|]. intros stations.
    apply no_exit_bind; [apply no_exit_collect_urls|]. intros ?.
    apply no_exit_ret. }
  intros [stations all_urls].
  apply no_exit_bind; [apply no_exit_logger|]. intros _.
  apply no_exit_bind.
  { destruct (decide (all_urls = ∅)); [apply no_exit_logger|apply no_exit_ret]. }
  intros _.
  apply no_exit_bind; [apply no_exit_for_each, no_exit_process_url|]. intros _.
  apply no_exit_bind; [apply no_exit_time_time|]. intros _.
  apply no_exit_bind; [apply no_exit_logger|]. intros _.
  apply no_exit_bind; [apply no_exit_config|]. intros ?.
  apply no_exit_time_sleep.
Qed.

(** The loop exits through [sys.exit(0)], on an interrupt, or through the
    [sys.exit(1)] of a reconnection that has used up its attempts. *)
Lemma while_True_exit (fuel : nat) r n (w : world) code :
  fst (Sentinel.while_True fuel r n w) = Raise (SystemExit code) →
  code = 0%Z ∨
  (code = 1%Z ∧ exhausted (events (snd (Sentinel.while_True fuel r n w)))).
Proof.
  revert r n w. induction fuel as [|fuel IH]; intros r n w; [discriminate|].
  cbn [Sentinel.while_True]. rewrite bind_run, try_except_run.
  pose proof (no_exit_bind _ (λ _, mret r) (no_exit_sweep r (n + 1))
                (λ _, no_exit_ret r) w) as Hbody.
  destruct ((Sentinel.sweep r (n + 1) ≫= λ _, mret r) w) as [[r'|e] w0];
    [apply IH|].
  cbn [fst] in Hbody. destruct e as [k|code']; [|by destruct (Hbody code')].
  cbn [dispatch isinstance].
  destruct (issubclass k redis_ConnectionError).
  { repeat (rewrite bind_run; cbn [logger]).
    set (w1 := emit _ (emit _ w0)).
    destruct (connect_redis_spec w1) as [_ H].
    destruct (Sentinel.connect_redis w1) as [[r'|e] w2]; [apply IH|].
    cbn [fst snd] in *. intros [= ->]. destruct H as (-> & _ & Hev).
    right. split; [done|]. by exists (events w1). }
  destruct (issubclass k KeyboardInterrupt).
  { rewrite bind_run. cbn. intros [= <-]. by left. }
  destruct (issubclass k Exception).
  { rewrite bind_run. cbn [logger]. rewrite bind_run.
    rewrite (time_sleep_ok 5) by reflexivity. cbn [mret M_ret]. apply IH. }
  discriminate.
Qed.

(** With Redis down, an attempt fails at its ping. *)
Lemma connect_redis_try_down (w : world) :
  redis_down w →
  ∃ k, issubclass k Exception = true ∧
       Sentinel.connect_redis_try w = (Raise (Raised k), next_redis w).
Proof.
  intros Hdown. destruct (Hdown (redis_n w)) as (k & Hf & HE); [lia|].
  exists k. split; [done|]. unfold Sentinel.connect_redis_try.
  rewrite bind_run. cbn [Sentinel.config_]. rewrite bind_run.
  unfold Redis.ping. by rewrite (command_fault _ _ _ k).
Qed.

Lemma redis_down_later (w w' : world) : later w w' → redis_down w → redis_down w'.
Proof.
  unfold later, redis_down. intros (_&Hf&_&_&Hn&_) Hdown n Hle.
  rewrite Hf. apply Hdown. lia.
Qed.

Lemma connect_redis_from_down (attempts : list Z) (w : world) :
  redis_down w →
  match fst (Sentinel.connect_redis_from attempts w) with
  | Ret (Some _) | Raise (Raised _) => False
  | _ => True
  end.
Proof.
  revert w. induction attempts as [|attempt rest IH]; intros w Hdown; [done|].
  rewrite connect_redis_from_cons.
  destruct (connect_redis_try_down w Hdown) as (k & HE & ->).
  cbn [isinstance]. rewrite HE.
  destruct (attempt <? Sentinel.max_retries - 1)%Z; [|done].
  apply IH. eapply redis_down_later; [|exact Hdown].
  eapply later_trans; [apply later_next_redis|].
  eapply later_trans; apply later_emit.
Qed.

(** With Redis down, [connect_redis] makes its five attempts, sleeps
    [retry_delay] between two of them, and exits with the status 1. *)
Lemma connect_redis_down (w : world) :
  redis_down w →
  fst (Sentinel.connect_redis w) = Raise (SystemExit 1) ∧
  events (snd (Sentinel.connect_redis w)) = events w ++ retries_exhausted.
Proof.
  intros Hdown. destruct (connect_redis_spec w) as [_ H].
  pose proof (connect_redis_from_down
                (range (Z.to_nat Sentinel.max_retries)) w Hdown) as Hd.
  fold Sentinel.connect_redis in Hd.
  destruct (fst (Sentinel.connect_redis w)) as [[r|]|[k|code]]; try done.
  by destruct H as (-> & _ & ->).
Qed.

(** C5, as stated, fails: the startup connects, the connection is lost in
    the first sweep, the reconnection uses up its attempts, and the process
    exits with the status 1. *)
Lemma exit_nonzero_after_startup :
  fst (Sentinel.connect_redis connection_lost) = Ret the_client ∧
  fst (Sentinel.main 1 connection_lost) = Sentinel.Exited 1.
Proof. vm_compute. done. Qed.

(** C5, amended. With Redis down, the startup makes five attempts, with a
    sleep of [retry_delay] between two of them, and the process exits with
    the status 1. Whenever the process exits with a status other than 0, the
    status is 1 and the trace ends with a [connect_redis], at startup or at a
    reconnection, that has used up its five attempts. *)
Theorem exit_nonzero_only_on_exhausted_retries (fuel : nat) (w : world) :
  (redis_down w →
     fst (Sentinel.main fuel w) = Sentinel.Exited 1 ∧
     events (snd (Sentinel.main fuel w)) = events w ++ retries_exhausted) ∧
  (∀ code, fst (Sentinel.main fuel w) = Sentinel.Exited code → code ≠ 0%Z →
     code = 1%Z ∧ exhausted (events (snd (Sentinel.main fuel w)))).
Proof.
  unfold Sentinel.main. rewrite bind_run. split.
  - intros Hdown. destruct (connect_redis_down w Hdown) as [Hr Hev].
    destruct (Sentinel.connect_redis w) as [res w1].
    cbn [fst snd] in *. subst res. done.
  - intros code.
    destruct (connect_redis_spec w) as [_ H].
    destruct (Sentinel.connect_redis w) as [[r|[k|code']] w1];
      cbn [fst snd] in *.
    + pose proof (while_True_exit fuel r 0 w1) as Hloop.
      fold (Sentinel.check_urls fuel r) in Hloop.
      destruct (Sentinel.check_urls fuel r w1) as [[[]|[k|code']] w2];
        cbn [fst snd] in *; try discriminate.
      intros [= <-] Hne. destruct (Hloop code' eq_refl) as [->|]; done.
    + discriminate.
    + intros [= <-] _. destruct H as (-> & _ & Hev).
      split; [done|]. by exists (events w).
Qed.

Lemma exit_nonzero_only_on_exhausted_retries_witness :
  fst (Sentinel.main 3 unreachable) = Sentinel.Exited 1 ∧
  events (snd (Sentinel.main 3 unreachable))
    = events unreachable ++ retries_exhausted.
Proof.
  apply (proj1 (exit_nonzero_only_on_exhausted_retries 3 unreachable)).
  intros n _. exists redis_ConnectionError. split; reflexivity.
Defined.

(* ===================================================================== *)
(** * What a run does to the store                                        *)
(* ===================================================================== *)

Section preserves.
Context (R : relation (gmap string rval)) `{!PreOrder R}.

Lemma preserves_ret {A} (a : A) : preserves R (mret a).
Proof. intros w. reflexivity. Qed.

Lemma preserves_raise {A} e : preserves R (raise (A:=A) e).
Proof. intros w. reflexivity. Qed.

Lemma preserves_bind {A B} (m : M A) (f : A → M B) :
  preserves R m → (∀ a, preserves R (f a)) → preserves R (m ≫= f).
Proof.
  intros Hm Hf w. rewrite bind_run. specialize (Hm w).
  destruct (m w) as [[a|e] w1]; [|exact Hm].
  etrans; [exact Hm|apply Hf].
Qed.

Lemma preserves_dispatch {A} (handlers : list (pyclass * (exn → M A))) e :
  (∀ cls h, (cls, h) ∈ handlers → ∀ e, preserves R (h e)) →
  preserves R (dispatch handlers e).
Proof.
  induction handlers as [|[cls h] handlers IH]; intros Hh.
  - apply preserves_raise.
  - cbn [dispatch]. destruct (isinstance e cls).
    + apply (Hh cls h). left.
    + apply IH. intros cls' h' Hin. apply (Hh cls' h'). by right.
Qed.

Lemma preserves_try_except {A} (body : M A) handlers :
  preserves R body →
  (∀ cls h, (cls, h) ∈ handlers → ∀ e, preserves R (h e)) →
  preserves R (try_except body handlers).
Proof.
  intros Hb Hh w. rewrite try_except_run. specialize (Hb w).
  destruct (body w) as [[a|e] w1]; [exact Hb|].
  etrans; [exact Hb|by apply preserves_dispatch].
Qed.

Lemma preserves_logger level message : preserves R (logger level message).
Proof. intros w. reflexivity. Qed.

Lemma preserves_flash category : preserves R (Dashboard.flash category).
Proof. intros w. reflexivity. Qed.

Lemma preserves_time_sleep seconds : preserves R (time_sleep seconds).
Proof. intros w. rewrite time_sleep_db. reflexivity. Qed.

Lemma preserves_time_time : preserves R time_time.
Proof. intros w. reflexivity. Qed.

Lemma preserves_config : preserves R Sentinel.config_.
Proof. intros w. reflexivity. Qed.

Lemma preserves_sys_exit {A} code : preserves R (sys_exit (A:=A) code).
Proof. intros w. reflexivity. Qed.

Lemma preserves_requests_get url hdrs timeout :
  preserves R (requests_get url hdrs timeout).
Proof. intros w. unfold requests_get. destruct (net w (net_n w)); reflexivity. Qed.

Lemma preserves_command {A} r
  (run : gmap string rval → result A * gmap string rval) :
  (∀ d, R d (snd (run d))) → preserves R (Redis.command r run).
Proof.
  intros Hrun w. unfold Redis.command. destruct r; [|reflexivity].
  destruct (redis_fault w (redis_n w)); [reflexivity|].
  specialize (Hrun (db w)). by destruct (run (db w)).
Qed.

(** The commands that only read. *)
Lemma preserves_ping r : preserves R (Redis.ping r).
Proof. apply preserves_command. intros d. reflexivity. Qed.

Lemma preserves_exists r key : preserves R (Redis.exists_ r key).
Proof. apply preserves_command. intros d. reflexivity. Qed.

Lemma preserves_smembers r key : preserves R (Redis.smembers r key).
Proof.
  apply preserves_command. intros d. destruct (d !! key) as [[]|]; reflexivity.
Qed.

Lemma preserves_scard r key : preserves R (Redis.scard r key).
Proof.
  apply preserves_command. intros d. destruct (d !! key) as [[]|]; reflexivity.
Qed.

Lemma preserves_for_each {A} (l : list A) body :
  (∀ x, preserves R (body x)) → preserves R (for_each l body).
Proof.
  intros Hb. induction l as [|x l IH]; [apply preserves_ret|].
  cbn [for_each]. apply preserves_bind; [apply Hb|done].
Qed.

Lemma preserves_check_url url hdrs :
  preserves R (Sentinel.check_url url hdrs).
Proof.
  intros w. destruct (check_url_redis url hdrs w) as (_ & _ & ->).
  reflexivity.
Qed.

Lemma preserves_check_redis_connection r :
  preserves R (Dashboard.check_redis_connection r).
Proof.
  destruct r; [|apply preserves_ret]. cbn [Dashboard.check_redis_connection].
  apply preserves_try_except.
  - apply preserves_bind; [apply preserves_ping|]. intros _.
    apply preserves_ret.
  - intros cls h Hin e. apply list_elem_of_singleton in Hin as [= -> ->].
    apply preserves_ret.
Qed.

Lemma preserves_collect_urls r stations all_urls :
  preserves R (Sentinel.collect_urls r stations all_urls).
Proof.
  revert all_urls. induction stations as [|s stations IH]; intros all_urls.
  - apply preserves_ret.
  - cbn [Sentinel.collect_urls].
    apply preserves_bind; [apply preserves_smembers|]. intros ?. apply IH.
Qed.

Lemma preserves_url_exists_elsewhere r url stations :
  preserves R (Dashboard.url_exists_elsewhere r url stations).
Proof.
  induction stations as [|s stations IH]; [apply preserves_ret|].
  cbn [Dashboard.url_exists_elsewhere].
  apply preserves_bind; [apply preserves_smembers|]. intros members.
  destruct (decide (url ∈ members)); [apply preserves_ret|apply IH].
Qed.
End preserves.

#[local] Instance keys_kept_preorder : PreOrder keys_kept.
Proof.
  split; [by intros d key|].
  intros d1 d2 d3 H12 H23 key H. by apply H23, H12.
Qed.

#[local] Instance same_outside_preorder touched :
  PreOrder (same_outside touched).
Proof.
  split; [by intros d key|].
  intros d1 d2 d3 H12 H23 key H. by rewrite H23, H12.
Qed.

(** The names of the keys do not collide. *)
Lemma urls_key_inj (a b : string) : "urls:" +:+ a = "urls:" +:+ b → a = b.
Proof. intros H. by simplify_eq/=. Qed.

Lemma status_key_inj (a b : string) : "status:" +:+ a = "status:" +:+ b → a = b.
Proof. intros H. by simplify_eq/=. Qed.

Lemma urls_key_not_status (a b : string) : "urls:" +:+ a ≠ "status:" +:+ b.
Proof. discriminate. Qed.

Lemma urls_key_not_stations (a : string) : "urls:" +:+ a ≠ "stations".
Proof. discriminate. Qed.

Lemma status_key_not_stations (a : string) : "status:" +:+ a ≠ "stations".
Proof. cbn. discriminate. Qed.

Lemma preserves_srem_outside (touched : string → Prop) r key member :
  touched key → preserves (same_outside touched) (Redis.srem r key member).
Proof.
  intros Hk. apply preserves_command; [apply _|]. intros d key' Hk'.
  assert (key ≠ key') by (intros ->; done).
  destruct (d !! key) as [[s|v]|]; cbn [snd]; try done.
  destruct (decide (s ∖ {[member]} = ∅)).
  - by rewrite lookup_delete_ne.
  - by rewrite lookup_insert_ne.
Qed.

Lemma preserves_delete_outside (touched : string → Prop) r key :
  touched key → preserves (same_outside touched) (Redis.delete r key).
Proof.
  intros Hk. apply preserves_command; [apply _|]. intros d key' Hk'.
  assert (key ≠ key') by (intros ->; done).
  cbn [snd]. by rewrite lookup_delete_ne.
Qed.

Lemma preserves_sadd_outside (touched : string → Prop) r key member :
  touched key → preserves (same_outside touched) (Redis.sadd r key member).
Proof.
  intros Hk. apply preserves_command; [apply _|]. intros d key' Hk'.
  assert (key ≠ key') by (intros ->; done).
  destruct (d !! key) as [[s|v]|]; cbn [snd]; try done;
    by rewrite lookup_insert_ne.
Qed.

Lemma preserves_set_outside (touched : string → Prop) r key value :
  touched key → preserves (same_outside touched) (Redis.set r key value).
Proof.
  intros Hk. apply preserves_command; [apply _|]. intros d key' Hk'.
  assert (key ≠ key') by (intros ->; done).
  cbn [snd]. by rewrite lookup_insert_ne.
Qed.

(* ===================================================================== *)
(** * The dashboard                                                       *)
(* ===================================================================== *)

Lemma check_redis_connection_ok (c : Redis.client) (w : world) :
  redis_fault w (redis_n w) = None →
  Dashboard.check_redis_connection (Some c) w = (Ret true, next_redis w).
Proof.
  intros Hf. cbn [Dashboard.check_redis_connection].
  rewrite try_except_run, bind_run. unfold Redis.ping.
  by rewrite command_ok.
Qed.

Lemma redis_up_next (w : world) : redis_up w → redis_up (next_redis w).
Proof. apply redis_up_later, later_next_redis. Qed.

Lemma redis_up_with_db d (w : world) : redis_up w → redis_up (with_db d w).
Proof. apply redis_up_later, later_with_db. Qed.

Lemma redis_up_emit ev (w : world) : redis_up w → redis_up (emit ev w).
Proof. apply redis_up_later, later_emit. Qed.

(** SREM on a key that holds a set or is absent. *)
Lemma srem_ok (c : Redis.client) key member (w : world) :
  redis_fault w (redis_n w) = None →
  (∀ v, db w !! key ≠ Some (VStr v)) →
  ∃ n d',
    Redis.srem (Some c) key member w = (Ret n, with_db d' (next_redis w)) ∧
    members_of d' key = members_of (db w) key ∖ {[member]} ∧
    (∀ key', key' ≠ key → d' !! key' = db w !! key') ∧
    (∀ v, d' !! key ≠ Some (VStr v)).
Proof.
  intros Hf Ht. unfold Redis.srem. rewrite command_ok by done.
  unfold members_of.
  destruct (db w !! key) as [[s|v]|] eqn:E; [| by destruct (Ht v) |].
  - cbn [fst snd]. destruct (decide (s ∖ {[member]} = ∅)) as [Hempty|Hne].
    + eexists _, _. split; [reflexivity|].
      rewrite lookup_delete_eq, Hempty. split; [done|].
      split; [|done]. intros key' Hk. by rewrite lookup_delete_ne.
    + eexists _, _. split; [reflexivity|].
      rewrite lookup_insert_eq. split; [done|].
      split; [|done]. intros key' Hk. by rewrite lookup_insert_ne.
  - cbn [fst snd]. eexists _, _. split; [reflexivity|].
    rewrite E. split; [by rewrite empty_difference_L|]. split; done.
Qed.

Lemma scard_ok (c : Redis.client) key (w : world) :
  redis_fault w (redis_n w) = None →
  (∀ v, db w !! key ≠ Some (VStr v)) →
  ∃ n, Redis.scard (Some c) key w = (Ret n, next_redis w).
Proof.
  intros Hf Ht. unfold Redis.scard. rewrite command_ok by done.
  destruct (db w !! key) as [[s|v]|] eqn:E; [| by destruct (Ht v) |];
    by eexists.
Qed.

Lemma delete_ok (c : Redis.client) key (w : world) :
  redis_fault w (redis_n w) = None →
  ∃ n, Redis.delete (Some c) key w
       = (Ret n, with_db (delete key (db w)) (next_redis w)).
Proof.
  intros Hf. unfold Redis.delete. rewrite command_ok by done. by eexists.
Qed.

(** [delete_station] touches the station set and the URL set of the station
    that the form names, in every run. *)
Lemma delete_station_touches r (form : gmap string string) :
  preserves
    (same_outside (λ key, key = "stations" ∨
                          ∃ name, form !! "name" = Some name ∧
                                  key = "urls:" +:+ name))
    (Dashboard.delete_station r form).
Proof.
  unfold Dashboard.delete_station.
  apply preserves_bind; [apply _|apply preserves_check_redis_connection, _|].
  intros connected. destruct (negb connected).
  { apply preserves_bind; [apply _|apply preserves_flash, _|].
    intros _. apply preserves_ret, _. }
  apply preserves_bind; [apply _| |intros _; apply preserves_ret, _].
  apply preserves_try_except; [apply _| |].
  - destruct (form !! "name") as [name|] eqn:E; [|apply preserves_ret, _].
    destruct (truthy name && negb (String.eqb name "General")).
    + apply preserves_bind; [apply _|apply preserves_scard, _|]. intros _.
      apply preserves_bind; [apply _| |intros _].
      { apply preserves_srem_outside. by left. }
      apply preserves_bind; [apply _| |intros _].
      { apply preserves_delete_outside. right. by exists name. }
      apply preserves_bind; [apply _|apply preserves_flash, _|]. intros _.
      apply preserves_logger, _.
    + destruct (String.eqb name "General");
        [apply preserves_flash, _|apply preserves_ret, _].
  - intros cls h Hin e. apply list_elem_of_singleton in Hin as [= -> ->].
    apply preserves_bind; [apply _|apply preserves_logger, _|]. intros _.
    apply preserves_flash, _.
Qed.

(** C10. Deleting a station other than [General]. In every run, also one in
    which Redis fails midway, no status key changes and no URL set of another
    station changes. When Redis answers, the station leaves the station set
    and the key of its URL set is removed. *)
Theorem delete_station_effect (c : Redis.client) (form : gmap string string)
  (name : string) (w : world) :
  form !! "name" = Some name → name ≠ EmptyString → name ≠ "General" →
  let w' := snd (Dashboard.delete_station (Some c) form w) in
  (∀ url, status_of (db w') url = status_of (db w) url) ∧
  (∀ station, station ≠ name →
     db w' !! ("urls:" +:+ station) = db w !! ("urls:" +:+ station)) ∧
  (redis_up w → sets_typed (db w) →
     station_set (db w') = station_set (db w) ∖ {[name]} ∧
     db w' !! ("urls:" +:+ name) = None).
Proof.
  intros Hform Hne HG w'; subst w'.
  pose proof (delete_station_touches (Some c) form w) as Hout.
  split; [|split].
  - intros url. apply Hout. intros [H|(name' & _ & H)].
    + by apply status_key_not_stations in H.
    + symmetry in H. by apply urls_key_not_status in H.
  - intros station Hs. apply Hout. intros [H|(name' & Hn & H)].
    + by apply urls_key_not_stations in H.
    + apply urls_key_inj in H. congruence.
  - clear Hout. intros Hup [Hts Htu].
    unfold Dashboard.delete_station. rewrite bind_run.
    rewrite check_redis_connection_ok by by apply redis_up_now.
    cbn [negb]. rewrite bind_run, try_except_run, Hform.
    assert (truthy name && negb (String.eqb name "General") = true) as ->.
    { apply andb_true_intro. split; [by destruct name|].
      apply negb_true_iff, String.eqb_neq, HG. }
    rewrite bind_run.
    destruct (scard_ok c ("urls:" +:+ name) (next_redis w)) as [n ->];
      [by apply redis_up_now, redis_up_next|apply Htu|].
    rewrite bind_run.
    destruct (srem_ok c "stations" name (next_redis (next_redis w)))
      as (n1 & d1 & -> & Hmem & Hother & _);
      [by apply redis_up_now, redis_up_next, redis_up_next|apply Hts|].
    rewrite bind_run.
    match goal with
    | |- context [Redis.delete _ _ ?w0] =>
        destruct (delete_ok c ("urls:" +:+ name) w0) as [n2 ->]
    end.
    { apply redis_up_now, redis_up_with_db. by do 3 apply redis_up_next. }
    rewrite bind_run. cbn [Dashboard.flash logger mret M_ret snd db with_db emit].
    unfold station_set in *. unfold members_of in *.
    rewrite lookup_delete_ne by apply urls_key_not_stations.
    rewrite lookup_delete_eq. done.
Qed.

Lemma swept_db_typed : sets_typed swept_db.
Proof.
  unfold swept_db. destruct scenario_db_typed as [Hs Hu]. split.
  - intros v. rewrite lookup_insert_ne by done. apply Hs.
  - intros station v.
    rewrite lookup_insert_ne by (symmetry; apply urls_key_not_status).
    apply Hu.
Qed.

(** The station [Work] is deleted: the status of the URL that only [Work]
    held stays in the store. *)
Lemma delete_station_effect_witness :
  let w' := snd (Dashboard.delete_station the_client
                   (form_of [("name", "Work")]) (quiet swept_db)) in
  (∀ url, status_of (db w') url = status_of swept_db url) ∧
  (∀ station, station ≠ "Work" →
     db w' !! ("urls:" +:+ station) = swept_db !! ("urls:" +:+ station)) ∧
  (redis_up (quiet swept_db) → sets_typed swept_db →
     station_set (db w') = station_set swept_db ∖ {["Work"]} ∧
     db w' !! ("urls:" +:+ "Work") = None).
Proof.
  apply (delete_station_effect (Redis.Client "localhost" 6379)
           (form_of [("name", "Work")]) "Work" (quiet swept_db)).
  - reflexivity.
  - discriminate.
  - discriminate.
Defined.

Example delete_station_orphan :
  let d' := db (snd (Dashboard.delete_station the_client
                       (form_of [("name", "Work")]) (quiet swept_db))) in
  station_set d' = {["General"]} ∧
  urls_of d' "General" = {["https://example.com"]} ∧
  urls_of d' "Work" = ∅ ∧
  status_of d' "https://nonexistent.invalid"
    = Some (VStr "DOWN (Connection Error)").
Proof. vm_compute. done. Qed.

(** ** [add_url] *)

Lemma rstrip_by_last (p : ascii → bool) (s : string) (a : ascii) :
  last_char (rstrip_by p s) = Some a → p a = false.
Proof.
  induction s as [|b s IH]; [discriminate|].
  cbn [rstrip_by]. destruct (rstrip_by p s) as [|b' t] eqn:E.
  - destruct (p b) eqn:Hp; [discriminate|]. cbn. by intros [= <-].
  - exact IH.
Qed.

(** What [add_url] stores does not end with a slash. *)
Lemma normalized_no_trailing_slash (raw : string) :
  last_char (normalized raw) ≠ Some "/"%char.
Proof.
  intros H. apply rstrip_by_last in H. discriminate H.
Qed.

Lemma sadd_ok (c : Redis.client) key member (w : world) :
  redis_fault w (redis_n w) = None →
  (∀ v, db w !! key ≠ Some (VStr v)) →
  ∃ n, Redis.sadd (Some c) key member w =
       (Ret n, with_db (<[key := VSet ({[member]} ∪ members_of (db w) key)]>
                          (db w))
                 (next_redis w)).
Proof.
  intros Hf Ht. unfold Redis.sadd, members_of. rewrite command_ok by done.
  destruct (db w !! key) as [[s|v]|] eqn:E; [| by destruct (Ht v) |].
  - by eexists.
  - rewrite union_empty_r_L. by eexists.
Qed.

(** C9, as stated, fails: the text is stripped of the white space around it
    before anything else. With a leading blank, the URL stored is not the
    one the claim describes; a text of blanks only is not stored at all. *)
Lemma add_url_strips_whitespace :
  claimed_normalization " example.org" = "https:// example.org" ∧
  urls_of (db (snd (Dashboard.add_url the_client
                      (form_of [("url", " example.org"); ("station", "General")])
                      (quiet single_db)))) "General"
    = {["https://example.com"; "https://example.org"]} ∧
  " " ≠ EmptyString ∧
  db (snd (Dashboard.add_url the_client
             (form_of [("url", " "); ("station", "General")])
             (quiet single_db))) = single_db.
Proof. vm_compute. done. Qed.

(** C9, amended. The submitted text, stripped of the white space around it,
    is not empty, and a station is named. The URL is the stripped text, with
    [https://] before it unless it starts with [http://] or [https://], and
    without its trailing slashes. If the station holds it already, the store
    is unchanged; otherwise it joins the URL set of the station, its status
    becomes [PENDING], and no other key changes. *)
Theorem add_url_effect (c : Redis.client) (form : gmap string string)
  (station : string) (w : world) :
  form !! "station" = Some station → station ≠ EmptyString →
  strip (default EmptyString (form !! "url")) ≠ EmptyString →
  redis_up w → sets_typed (db w) →
  let stripped := strip (default EmptyString (form !! "url")) in
  let url := normalized (default EmptyString (form !! "url")) in
  let w' := snd (Dashboard.add_url (Some c) form w) in
  url = rstrip (if startswith stripped ["http://"; "https://"]
                then stripped else "https://" +:+ stripped) "/" ∧
  last_char url ≠ Some "/"%char ∧
  (url ∈ urls_of (db w) station → db w' = db w) ∧
  (url ∉ urls_of (db w) station →
     urls_of (db w') station = {[url]} ∪ urls_of (db w) station ∧
     status_of (db w') url = Some (VStr "PENDING") ∧
     ∀ key, key ≠ "urls:" +:+ station → key ≠ "status:" +:+ url →
            db w' !! key = db w !! key).
Proof.
  intros Hst Hne Hurl Hup [Hts Htu] stripped url w'.
  split; [unfold url, normalized; fold stripped;
          by destruct (startswith stripped _)|].
  split; [apply normalized_no_trailing_slash|].
  subst w'. unfold Dashboard.add_url. rewrite bind_run.
  rewrite check_redis_connection_ok by by apply redis_up_now.
  cbn [negb]. rewrite bind_run, try_except_run, Hst.
  assert (truthy stripped && truthy station = true) as Htruthy.
  { apply andb_true_intro.
    split; [subst stripped; by destruct (strip _)|by destruct station]. }
  fold stripped. rewrite Htruthy.
  change (rstrip _ "/") with url.
  rewrite bind_run, smembers_ok;
    [|by apply redis_up_now, redis_up_next|apply Htu].
  cbn [db next_redis]. fold (urls_of (db w) station).
  destruct (decide (url ∈ urls_of (db w) station)) as [Hin|Hnin].
  - split; [|done]. intros _. reflexivity.
  - split; [done|]. intros _. rewrite bind_run.
    destruct (sadd_ok c ("urls:" +:+ station) url (next_redis (next_redis w)))
      as [n ->];
      [by apply redis_up_now, redis_up_next, redis_up_next|apply Htu|].
    rewrite bind_run, set_ok
      by by apply redis_up_now, redis_up_with_db; do 3 apply redis_up_next.
    rewrite bind_run. cbn [Dashboard.flash logger mret M_ret snd db with_db
                           emit next_redis].
    unfold urls_of, status_of, members_of.
    rewrite lookup_insert_eq.
    rewrite lookup_insert_ne by (symmetry; apply urls_key_not_status).
    rewrite lookup_insert_eq. split; [done|]. split; [done|].
    intros key Hk1 Hk2. by rewrite !lookup_insert_ne.
Qed.

Lemma add_url_effect_witness :
  let stripped := strip " example.org/ " in
  let url := normalized " example.org/ " in
  let w' := snd (Dashboard.add_url the_client
                   (form_of [("url", " example.org/ "); ("station", "General")])
                   (quiet single_db)) in
  url = rstrip (if startswith stripped ["http://"; "https://"]
                then stripped else "https://" +:+ stripped) "/" ∧
  last_char url ≠ Some "/"%char ∧
  (url ∈ urls_of single_db "General" → db w' = single_db) ∧
  (url ∉ urls_of single_db "General" →
     urls_of (db w') "General" = {[url]} ∪ urls_of single_db "General" ∧
     status_of (db w') url = Some (VStr "PENDING") ∧
     ∀ key, key ≠ "urls:" +:+ "General" → key ≠ "status:" +:+ url →
            db w' !! key = single_db !! key).
Proof.
  apply (add_url_effect (Redis.Client "localhost" 6379)
           (form_of [("url", " example.org/ "); ("station", "General")])
           "General" (quiet single_db)).
  - reflexivity.
  - discriminate.
  - vm_compute. discriminate.
  - intros n _. reflexivity.
  - exact single_db_typed.
Defined.

(** ** [delete_url] *)

(** SMEMBERS in any run: it reads only, and what it returns is the set under
    the key. *)
Lemma smembers_spec r key (w : world) :
  match Redis.smembers r key w with
  | (Ret members, w1) => members = members_of (db w) key ∧ db w1 = db w
  | (Raise _, w1) => db w1 = db w
  end.
Proof.
  unfold Redis.smembers, Redis.command, members_of.
  destruct r; [|done]. destruct (redis_fault w (redis_n w)); [done|].
  by destruct (db w !! key) as [[]|].
Qed.

(** The scan of lines 198-202, in any run: it reads only, and its answer is
    right about the stations it was given. *)
Lemma url_exists_elsewhere_spec r url (stations : list string) (w : world) :
  let out := Dashboard.url_exists_elsewhere r url stations w in
  db (snd out) = db w ∧
  (fst out = Ret false → ∀ s, s ∈ stations → url ∉ urls_of (db w) s) ∧
  (fst out = Ret true → ∃ s, s ∈ stations ∧ url ∈ urls_of (db w) s).
Proof.
  revert w. induction stations as [|s stations IH]; intros w out; subst out.
  { cbn. split; [done|]. split; [|done]. intros _ s Hs. by inversion Hs. }
  cbn [Dashboard.url_exists_elsewhere]. rewrite bind_run.
  pose proof (smembers_spec r ("urls:" +:+ s) w) as Hsm.
  destruct (Redis.smembers r ("urls:" +:+ s) w) as [[members|e] w1];
    [|done].
  destruct Hsm as [-> Hdb1].
  destruct (decide (url ∈ members_of (db w) ("urls:" +:+ s))) as [Hin|Hnin].
  - cbn. split; [done|]. split; [done|]. intros _. exists s.
    split; [left|done].
  - specialize (IH w1). cbn zeta in IH. rewrite Hdb1 in IH.
    destruct IH as (Hdb & Hfalse & Htrue). split; [exact Hdb|]. split.
    + intros Hr s' Hs'. apply elem_of_cons in Hs' as [->|Hs'].
      * exact Hnin.
      * by apply (Hfalse Hr).
    + intros Hr. destruct (Htrue Hr) as (s' & Hs' & Hin). exists s'.
      split; [by right|done].
Qed.

(** When Redis answers, the scan returns. *)
Lemma url_exists_elsewhere_ok (c : Redis.client) url (stations : list string)
  (w : world) :
  redis_up w → sets_typed (db w) →
  ∃ b w', Dashboard.url_exists_elsewhere (Some c) url stations w = (Ret b, w')
          ∧ later w w' ∧ db w' = db w.
Proof.
  revert w. induction stations as [|s stations IH]; intros w Hup Ht.
  { exists false, w. split; [done|]. split; [apply later_refl|done]. }
  cbn [Dashboard.url_exists_elsewhere]. rewrite bind_run.
  rewrite smembers_ok by (try apply redis_up_now; try apply Ht; done).
  destruct (decide (url ∈ members_of (db w) ("urls:" +:+ s))).
  - exists true, (next_redis w). split; [done|].
    split; [apply later_next_redis|done].
  - destruct (IH (next_redis w)) as (b & w' & Hrun & Hl & Hdb);
      [by apply redis_up_next|exact Ht|].
    exists b, w'. split; [exact Hrun|]. split; [|exact Hdb].
    eapply later_trans; [apply later_next_redis|exact Hl].
Qed.

Lemma referenced_same_sets (d d' : gmap string rval) url :
  d' !! "stations" = d !! "stations" →
  (∀ s, d' !! ("urls:" +:+ s) = d !! ("urls:" +:+ s)) →
  referenced d' url ↔ referenced d url.
Proof.
  intros Hs Hu. unfold referenced, station_set, urls_of, members_of.
  rewrite Hs. by setoid_rewrite Hu.
Qed.

(** [delete_url] when Redis answers: the URL leaves the URL set of the
    station, and its status is removed exactly when no station of the
    station set holds the URL any more. *)
Lemma delete_url_ok (c : Redis.client) (form : gmap string string)
  (url station : string) (w : world) :
  form !! "url" = Some url → form !! "station" = Some station →
  url ≠ EmptyString → station ≠ EmptyString →
  redis_up w → sets_typed (db w) →
  ∃ d1,
    members_of d1 ("urls:" +:+ station)
      = members_of (db w) ("urls:" +:+ station) ∖ {[url]} ∧
    (∀ key, key ≠ "urls:" +:+ station → d1 !! key = db w !! key) ∧
    ((referenced d1 url ∧
      db (snd (Dashboard.delete_url (Some c) form w)) = d1) ∨
     (¬ referenced d1 url ∧
      db (snd (Dashboard.delete_url (Some c) form w))
        = delete ("status:" +:+ url) d1)).
Proof.
  intros Hfu Hfs Hu Hs Hup [Hts Htu].
  unfold Dashboard.delete_url. rewrite bind_run.
  rewrite check_redis_connection_ok by by apply redis_up_now.
  cbn [negb]. rewrite bind_run, try_except_run, Hfu, Hfs.
  assert (truthy url && truthy station = true) as ->.
  { apply andb_true_intro. split; [by destruct url|by destruct station]. }
  rewrite bind_run.
  destruct (srem_ok c ("urls:" +:+ station) url (next_redis w))
    as (n1 & d1 & -> & Hmem & Hother & Ht1);
    [by apply redis_up_now, redis_up_next|apply Htu|].
  cbn [db next_redis] in Hmem, Hother.
  exists d1. split; [exact Hmem|]. split; [exact Hother|].
  set (w1 := with_db d1 (next_redis (next_redis w))).
  assert (Hup1 : redis_up w1)
    by (apply redis_up_with_db; by do 2 apply redis_up_next).
  assert (Ht1' : sets_typed (db w1)).
  { split.
    - intros v. cbn. rewrite Hother by (symmetry; apply urls_key_not_stations).
      apply Hts.
    - intros s v. cbn. destruct (decide (s = station)) as [->|Hne].
      + apply Ht1.
      + rewrite Hother by (intros H; by apply urls_key_inj in H). apply Htu. }
  rewrite bind_run, smembers_ok by (try apply redis_up_now; try apply Ht1'; done).
  rewrite bind_run.
  destruct (url_exists_elsewhere_ok c url
              (elements (members_of (db w1) "stations")) (next_redis w1))
    as (b & w2 & Hrun & Hl2 & Hdb2); [by apply redis_up_next|exact Ht1'|].
  pose proof (url_exists_elsewhere_spec (Some c) url
                (elements (members_of (db w1) "stations")) (next_redis w1))
    as (_ & Hfalse & Htrue).
  rewrite Hrun in Hfalse, Htrue |- *. cbn [fst snd] in *.
  cbn [db next_redis] in Hdb2.
  assert (Hup2 : redis_up w2).
  { eapply redis_up_later; [exact Hl2|by apply redis_up_next]. }
  destruct b; cbn [negb].
  - left. split.
    + destruct (Htrue eq_refl) as (s & Hin & Hurl). exists s.
      split; [by apply elem_of_elements in Hin|exact Hurl].
    + rewrite !bind_run. cbn. exact Hdb2.
  - right. split.
    + intros (s & Hin & Hurl). apply (Hfalse eq_refl s); [|exact Hurl].
      by apply elem_of_elements.
    + rewrite !bind_run.
      destruct (delete_ok c ("status:" +:+ url) w2) as [n2 ->];
        [by apply redis_up_now|].
      cbn. by rewrite Hdb2.
Qed.

Lemma try_except_db {A} (body : M A) handlers (w : world) :
  (∀ cls h, (cls, h) ∈ handlers → ∀ e, preserves eq (h e)) →
  db (snd (try_except body handlers w)) = db (snd (body w)).
Proof.
  intros Hh. rewrite try_except_run.
  destruct (body w) as [[a|e] w1]; [done|].
  symmetry. by apply (preserves_dispatch eq handlers e).
Qed.

Lemma bind_ret_db {A B} (m : M A) (b : B) (w : world) :
  db (snd ((m ≫= λ _, mret b) w)) = db (snd (m w)).
Proof. rewrite bind_run. by destruct (m w) as [[a|e] w1]. Qed.

(** The steps of [delete_url] after the SREM, in any run: the store is left
    as it is, or the status of the URL is removed, and then no station of
    the station set holds the URL. *)
Lemma delete_url_scan_spec r (url station : string) (w : world) :
  let out :=
    (stations ← Redis.smembers r "stations";
     elsewhere ← Dashboard.url_exists_elsewhere r url (elements stations);
     (if negb elsewhere
      then Redis.delete r ("status:" +:+ url) ;; mret tt
      else mret tt) ;;
     Dashboard.flash "success" ;;
     logger INFO "Deleted URL {url} from station {station}") w in
  db (snd out) = db w ∨
  (db (snd out) = delete ("status:" +:+ url) (db w) ∧ ¬ referenced (db w) url).
Proof.
  cbn zeta. rewrite bind_run.
  pose proof (smembers_spec r "stations" w) as Hsm.
  destruct (Redis.smembers r "stations" w) as [[stations|e] w1];
    [|by left].
  destruct Hsm as [-> Hdb1]. rewrite bind_run.
  pose proof (url_exists_elsewhere_spec r url
                (elements (members_of (db w) "stations")) w1)
    as (Hdb2 & Hfalse & _).
  destruct (Dashboard.url_exists_elsewhere r url _ w1) as [[[]|e] w2];
    cbn [fst snd negb] in *; rewrite Hdb1 in *.
  - left. rewrite !bind_run. cbn. exact Hdb2.
  - rewrite !bind_run.
    unfold Redis.delete, Redis.command.
    destruct r as [c|]; [|by left].
    destruct (redis_fault w2 (redis_n w2)); [by left|].
    right. cbn. rewrite Hdb2. split; [done|].
    intros (s & Hs & Hin). apply (Hfalse eq_refl s); [|done].
    by apply elem_of_elements.
  - by left.
Qed.

(** The store after [delete_url], in any run. *)
Lemma delete_url_store r (form : gmap string string) (w : world) :
  let d' := db (snd (Dashboard.delete_url r form w)) in
  d' = db w ∨
  ∃ url station d1,
    form !! "url" = Some url ∧ form !! "station" = Some station ∧
    same_outside (λ key, key = "urls:" +:+ station) (db w) d1 ∧
    (d' = d1 ∨ (d' = delete ("status:" +:+ url) d1 ∧ ¬ referenced d1 url)).
Proof.
  cbn zeta. unfold Dashboard.delete_url. rewrite bind_run.
  pose proof (preserves_check_redis_connection eq r w) as H0.
  destruct (Dashboard.check_redis_connection r w) as [[connected|e] w0];
    cbn [snd] in H0; [|by left].
  destruct connected; cbn [negb]; [|by left].
  rewrite bind_ret_db, try_except_db.
  2: { intros cls h Hin e. apply list_elem_of_singleton in Hin as [= -> ->].
       apply preserves_bind; [apply _|apply preserves_logger, _|]. intros _.
       apply preserves_flash, _. }
  destruct (form !! "url") as [url|] eqn:Hfu; [|by left].
  destruct (form !! "station") as [station|] eqn:Hfs; [|by left].
  destruct (truthy url && truthy station); [|by left].
  rewrite bind_run.
  pose proof (preserves_srem_outside (λ key, key = "urls:" +:+ station)
                r ("urls:" +:+ station) url eq_refl w0) as Hsrem.
  destruct (Redis.srem r ("urls:" +:+ station) url w0) as [[n|e] w1];
    cbn [snd] in Hsrem.
  - right. exists url, station, (db w1). rewrite H0. do 3 (split; [done|]).
    exact (delete_url_scan_spec r url station w1).
  - right. exists url, station, (db w1). rewrite H0. do 3 (split; [done|]).
    by left.
Qed.

(** In any run of [delete_url], a status that was there and is gone is the
    status of the submitted URL, and no station of the station set holds
    that URL. *)
Lemma delete_url_only_unreferenced r (form : gmap string string) (w : world)
  (u : string) :
  let d' := db (snd (Dashboard.delete_url r form w)) in
  is_Some (status_of (db w) u) → status_of d' u = None →
  form !! "url" = Some u ∧ ¬ referenced d' u.
Proof.
  intros d' [v Hv] Hnone. subst d'.
  destruct (delete_url_store r form w)
    as [Heq|(url & station & d1 & Hfu & Hfs & Hout & Hd)].
  { rewrite Heq in Hnone. congruence. }
  assert (Hst : ∀ u', status_of d1 u' = status_of (db w) u').
  { intros u'. apply Hout. intros H. symmetry in H.
    by apply urls_key_not_status in H. }
  destruct Hd as [Heq|[Heq Hnr]].
  { rewrite Heq, Hst in Hnone. congruence. }
  rewrite Heq in Hnone |- *.
  destruct (decide (u = url)) as [->|Hne].
  - split; [done|]. intros Hr. apply Hnr.
    eapply referenced_same_sets; [| |exact Hr].
    + by rewrite lookup_delete_ne by apply status_key_not_stations.
    + intros s. rewrite lookup_delete_ne; [done|].
      intros H. symmetry in H. by apply urls_key_not_status in H.
  - unfold status_of in Hnone. rewrite lookup_delete_ne in Hnone.
    + fold (status_of d1 u) in Hnone. rewrite Hst in Hnone. congruence.
    + intros H. apply status_key_inj in H. congruence.
Qed.

(* ===================================================================== *)
(** * The monitor never removes a key                                     *)
(* ===================================================================== *)

Lemma preserves_set_kept r key value :
  preserves keys_kept (Redis.set r key value).
Proof.
  apply preserves_command; [apply _|]. intros d key' H. cbn [snd].
  destruct (decide (key = key')) as [->|Hne].
  - rewrite lookup_insert_eq. by eexists.
  - by rewrite lookup_insert_ne.
Qed.

Lemma preserves_sadd_kept r key member :
  preserves keys_kept (Redis.sadd r key member).
Proof.
  apply preserves_command; [apply _|]. intros d key' H.
  destruct (d !! key) as [[s|v]|] eqn:E; cbn [snd]; [|done|].
  all: destruct (decide (key = key')) as [->|Hne];
    [rewrite lookup_insert_eq; by eexists|by rewrite lookup_insert_ne].
Qed.

Lemma preserves_connect_redis_try : preserves keys_kept Sentinel.connect_redis_try.
Proof.
  unfold Sentinel.connect_redis_try.
  apply preserves_bind; [apply _|apply preserves_config, _|]. intros cf.
  apply preserves_bind; [apply _|apply preserves_ping, _|]. intros _.
  apply preserves_bind; [apply _|apply preserves_exists, _|]. intros n.
  apply preserves_bind; [apply _| |intros _].
  { destruct (n =? 0)%Z; [|apply preserves_ret, _].
    apply preserves_bind; [apply _|apply preserves_sadd_kept|]. intros _.
    apply preserves_logger, _. }
  apply preserves_bind; [apply _|apply preserves_logger, _|]. intros _.
  apply preserves_ret, _.
Qed.

Lemma preserves_connect_redis_from attempts :
  preserves keys_kept (Sentinel.connect_redis_from attempts).
Proof.
  induction attempts as [|attempt rest IH]; [apply preserves_ret, _|].
  cbn [Sentinel.connect_redis_from].
  apply preserves_bind; [apply _| |].
  - apply preserves_try_except; [apply _| |].
    + apply preserves_bind; [apply _|apply preserves_connect_redis_try|].
      intros r. apply preserves_ret, _.
    + intros cls h Hin e. apply list_elem_of_singleton in Hin as [= -> ->].
      apply preserves_bind; [apply _|apply preserves_logger, _|]. intros _.
      destruct (attempt <? Sentinel.max_retries - 1)%Z.
      * apply preserves_bind; [apply _|apply preserves_time_sleep, _|].
        intros _. apply preserves_ret, _.
      * apply preserves_bind; [apply _|apply preserves_logger, _|].
        intros _. apply preserves_sys_exit, _.
  - intros [r|]; [apply preserves_ret, _|exact IH].
Qed.

Lemma preserves_process_url r item :
  preserves keys_kept (Sentinel.process_url r item).
Proof.
  destruct item as [i url]. unfold Sentinel.process_url.
  apply preserves_try_except; [apply _| |].
  - apply preserves_bind; [apply _|apply preserves_check_url, _|].
    intros status.
    apply preserves_bind; [apply _|apply preserves_set_kept|]. intros _.
    apply preserves_bind; [apply _| |intros _; apply preserves_time_sleep, _].
    destruct (Sentinel.contains "UP" status); apply preserves_logger, _.
  - intros cls h Hin e. apply list_elem_of_singleton in Hin as [= -> ->].
    apply preserves_bind; [apply _|apply preserves_logger, _|]. intros _.
    apply preserves_bind; [apply _|apply preserves_set_kept|]. intros _.
    apply preserves_ret, _.
Qed.

Lemma preserves_sweep r n : preserves keys_kept (Sentinel.sweep r n).
Proof.
  unfold Sentinel.sweep, Sentinel.enumerate_targets.
  apply preserves_bind; [apply _|apply preserves_time_time, _|]. intros _.
  apply preserves_bind; [apply _| |].
  { apply preserves_bind; [apply _|apply preserves_smembers, _|].
    intros stations.
    apply preserves_bind; [apply _|apply preserves_collect_urls, _|].
    intros ?. apply preserves_ret, _. }
  intros [stations all_urls].
  apply preserves_bind; [apply _|apply preserves_logger, _|]. intros _.
  apply preserves_bind; [apply _| |intros _].
  { destruct (decide (all_urls = ∅));
      [apply preserves_logger, _|apply preserves_ret, _]. }
  apply preserves_bind; [apply _| |intros _].
  { apply preserves_for_each; [apply _|]. apply preserves_process_url. }
  apply preserves_bind; [apply _|apply preserves_time_time, _|]. intros _.
  apply preserves_bind; [apply _|apply preserves_logger, _|]. intros _.
  apply preserves_bind; [apply _|apply preserves_config, _|]. intros ?.
  apply preserves_time_sleep, _.
Qed.

Lemma preserves_while_True fuel r n :
  preserves keys_kept (Sentinel.while_True fuel r n).
Proof.
  revert r n.
  induction fuel as [|fuel IH]; intros r n; [apply preserves_ret, _|].
  cbn [Sentinel.while_True].
  apply preserves_bind; [apply _| |intros r'; apply IH].
  apply preserves_try_except; [apply _| |].
  - apply preserves_bind; [apply _|apply preserves_sweep|]. intros _.
    apply preserves_ret, _.
  - intros cls h Hin e.
    apply elem_of_cons in Hin as [[= -> ->]|Hin];
      [|apply elem_of_cons in Hin as [[= -> ->]|Hin];
        [|apply list_elem_of_singleton in Hin as [= -> ->]]].
    + apply preserves_bind; [apply _|apply preserves_logger, _|]. intros _.
      apply preserves_bind; [apply _|apply preserves_logger, _|]. intros _.
      apply preserves_connect_redis_from.
    + apply preserves_bind; [apply _|apply preserves_logger, _|]. intros _.
      apply preserves_sys_exit, _.
    + apply preserves_bind; [apply _|apply preserves_logger, _|]. intros _.
      apply preserves_bind; [apply _|apply preserves_time_sleep, _|].
      intros _. apply preserves_ret, _.
Qed.

Lemma main_keys_kept (fuel : nat) (w : world) :
  keys_kept (db w) (db (snd (Sentinel.main fuel w))).
Proof.
  assert (H : preserves keys_kept
                (r ← Sentinel.connect_redis; Sentinel.check_urls fuel r)).
  { apply preserves_bind; [apply _|apply preserves_connect_redis_from|].
    intros r. apply preserves_while_True. }
  specialize (H w). unfold Sentinel.main.
  by destruct ((Sentinel.connect_redis ≫= _) w) as [[[]|[]] w'].
Qed.

(** C7. [delete_url] when Redis answers: the URL leaves the URL set of the
    station, and its status is removed if and only if no station of the
    station set holds the URL afterwards; no other key changes. In any run
    of [delete_url], a status that is gone is that of the submitted URL, and
    no station holds that URL. The monitor removes no key in any run, so no
    status. *)
Theorem status_deleted_only_when_unreferenced :
  (∀ (c : Redis.client) (form : gmap string string) (url station : string)
     (w : world),
     form !! "url" = Some url → form !! "station" = Some station →
     url ≠ EmptyString → station ≠ EmptyString → redis_up w → sets_typed (db w) →
     let d' := db (snd (Dashboard.delete_url (Some c) form w)) in
     urls_of d' station = urls_of (db w) station ∖ {[url]} ∧
     (∀ key, key ≠ "urls:" +:+ station → key ≠ "status:" +:+ url →
             d' !! key = db w !! key) ∧
     (referenced d' url → status_of d' url = status_of (db w) url) ∧
     (¬ referenced d' url → status_of d' url = None)) ∧
  (∀ r (form : gmap string string) (w : world) (u : string),
     let d' := db (snd (Dashboard.delete_url r form w)) in
     is_Some (status_of (db w) u) → status_of d' u = None →
     form !! "url" = Some u ∧ ¬ referenced d' u) ∧
  (∀ (fuel : nat) (w : world) (key : string),
     is_Some (db w !! key) → is_Some (db (snd (Sentinel.main fuel w)) !! key)).
Proof.
  split; [|split;
    [exact delete_url_only_unreferenced|exact main_keys_kept]].
  intros c form url station w Hfu Hfs Hu Hs Hup Ht d'; subst d'.
  destruct (delete_url_ok c form url station w Hfu Hfs Hu Hs Hup Ht)
    as (d1 & Hmem & Hother & Hd).
  assert (Hst : status_of d1 url = status_of (db w) url)
    by (apply Hother; intros H; symmetry in H;
        by apply urls_key_not_status in H).
  destruct Hd as [[Href ->]|[Hnref ->]].
  - split; [exact Hmem|]. split; [|done].
    intros key Hk _. by apply Hother.
  - assert (Hsame : ∀ u, referenced (delete ("status:" +:+ url) d1) u
                         ↔ referenced d1 u).
    { intros u. apply referenced_same_sets.
      - by rewrite lookup_delete_ne by apply status_key_not_stations.
      - intros s. rewrite lookup_delete_ne; [done|].
        intros H. symmetry in H. by apply urls_key_not_status in H. }
    split; [|split; [|split]].
    + unfold urls_of, members_of.
      rewrite lookup_delete_ne
        by (intros H; symmetry in H; by apply urls_key_not_status in H).
      exact Hmem.
    + intros key Hk1 Hk2. rewrite lookup_delete_ne by done. by apply Hother.
    + intros Href. by apply Hsame in Href.
    + intros _. apply lookup_delete_eq.
Qed.

(** The URL shared by two stations is deleted from one: its status stays. *)
Lemma status_deleted_only_when_unreferenced_witness :
  let d' := db (snd (Dashboard.delete_url the_client
                       (form_of [("url", "https://example.com");
                                 ("station", "General")])
                       (quiet scenario_db))) in
  urls_of d' "General" = urls_of scenario_db "General" ∖ {["https://example.com"]} ∧
  (∀ key, key ≠ "urls:" +:+ "General" →
          key ≠ "status:" +:+ "https://example.com" →
          d' !! key = scenario_db !! key) ∧
  (referenced d' "https://example.com" →
     status_of d' "https://example.com"
       = status_of scenario_db "https://example.com") ∧
  (¬ referenced d' "https://example.com" →
     status_of d' "https://example.com" = None).
Proof.
  apply (proj1 status_deleted_only_when_unreferenced
           (Redis.Client "localhost" 6379)
           (form_of [("url", "https://example.com"); ("station", "General")])
           "https://example.com" "General" (quiet scenario_db)).
  - reflexivity.
  - reflexivity.
  - discriminate.
  - discriminate.
  - intros n _. reflexivity.
  - exact scenario_db_typed.
Defined.

Example delete_url_shared_keeps_status :
  status_of (db (snd (Dashboard.delete_url the_client
                        (form_of [("url", "https://example.com");
                                  ("station", "General")])
                        (quiet scenario_db)))) "https://example.com"
  = Some (VStr "UP (40ms)").
Proof. vm_compute. reflexivity. Qed.

Example delete_url_last_removes_status :
  status_of (db (snd (Dashboard.delete_url the_client
                        (form_of [("url", "https://example.com");
                                  ("station", "General")])
                        (quiet single_db)))) "https://example.com"
  = None.
Proof. vm_compute. reflexivity. Qed.

(* ===================================================================== *)
(** * Every run ends in a later world                                     *)
(* ===================================================================== *)

Lemma advances_ret {A} (a : A) : advances (mret a).
Proof. intros w. apply later_refl. Qed.

Lemma advances_raise {A} e : advances (raise (A:=A) e).
Proof. intros w. apply later_refl. Qed.

Lemma advances_bind {A B} (m : M A) (f : A → M B) :
  advances m → (∀ a, advances (f a)) → advances (m ≫= f).
Proof.
  intros Hm Hf w. rewrite bind_run. specialize (Hm w).
  destruct (m w) as [[a|e] w1]; [|exact Hm].
  eapply later_trans; [exact Hm|apply Hf].
Qed.

Lemma advances_dispatch {A} (handlers : list (pyclass * (exn → M A))) e :
  (∀ cls h, (cls, h) ∈ handlers → ∀ e, advances (h e)) →
  advances (dispatch handlers e).
Proof.
  induction handlers as [|[cls h] handlers IH]; intros Hh.
  - apply advances_raise.
  - cbn [dispatch]. destruct (isinstance e cls).
    + apply (Hh cls h). left.
    + apply IH. intros cls' h' Hin. apply (Hh cls' h'). by right.
Qed.

Lemma advances_try_except {A} (body : M A) handlers :
  advances body →
  (∀ cls h, (cls, h) ∈ handlers → ∀ e, advances (h e)) →
  advances (try_except body handlers).
Proof.
  intros Hb Hh w. rewrite try_except_run. specialize (Hb w).
  destruct (body w) as [[a|e] w1]; [exact Hb|].
  eapply later_trans; [exact Hb|by apply advances_dispatch].
Qed.

(** A [try] with one [except] clause. *)
Lemma advances_try_except_1 {A} (body : M A) cls h :
  advances body → (∀ e, advances (h e)) →
  advances (try_except body [(cls, h)]).
Proof.
  intros Hb Hh. apply advances_try_except; [exact Hb|].
  intros cls' h' Hin e. apply list_elem_of_singleton in Hin as [= -> ->].
  apply Hh.
Qed.

Lemma advances_logger level message : advances (logger level message).
Proof. intros w. apply later_emit. Qed.

Lemma advances_flash category : advances (Dashboard.flash category).
Proof. intros w. apply later_emit. Qed.

Lemma advances_time_sleep seconds : advances (time_sleep seconds).
Proof. intros w. apply time_sleep_later. Qed.

Lemma advances_time_time : advances time_time.
Proof. intros w. apply later_next_clock. Qed.

Lemma advances_config : advances Sentinel.config_.
Proof. intros w. apply later_refl. Qed.

Lemma advances_command {A} r
  (run : gmap string rval → result A * gmap string rval) :
  advances (Redis.command r run).
Proof.
  intros w. unfold Redis.command. destruct r; [|apply later_refl].
  destruct (redis_fault w (redis_n w)); [apply later_next_redis|].
  destruct (run (db w)). cbn [snd].
  eapply later_trans; [apply later_next_redis|apply later_with_db].
Qed.

Lemma advances_for_each {A} (l : list A) body :
  (∀ x, advances (body x)) → advances (for_each l body).
Proof.
  intros Hb. induction l as [|x l IH]; [apply advances_ret|].
  cbn [for_each]. apply advances_bind; [apply Hb|done].
Qed.

Lemma advances_check_url url hdrs : advances (Sentinel.check_url url hdrs).
Proof. intros w. apply check_url_frame. Qed.

Create HintDb advances discriminated.

#[local] Hint Resolve advances_ret advances_raise advances_logger
  advances_flash advances_time_sleep advances_time_time advances_config
  advances_command advances_check_url : advances.

#[local] Hint Extern 2 (advances (_ ≫= _)) =>
  apply advances_bind; [|intros ?] : advances.
#[local] Hint Extern 2 (advances (try_except _ [_])) =>
  apply advances_try_except_1; [|intros ?] : advances.
#[local] Hint Extern 2 (advances (for_each _ _)) =>
  apply advances_for_each; intros ? : advances.
#[local] Hint Extern 3 (advances (if ?b then _ else _)) =>
  destruct b : advances.
#[local] Hint Extern 3 (advances (match ?x with _ => _ end)) =>
  destruct x : advances.
#[local] Hint Extern 1 (advances (Redis.ping _)) =>
  unfold Redis.ping : advances.
#[local] Hint Extern 1 (advances (Redis.exists_ _ _)) =>
  unfold Redis.exists_ : advances.
#[local] Hint Extern 1 (advances (Redis.sadd _ _ _)) =>
  unfold Redis.sadd : advances.
#[local] Hint Extern 1 (advances (Redis.srem _ _ _)) =>
  unfold Redis.srem : advances.
#[local] Hint Extern 1 (advances (Redis.smembers _ _)) =>
  unfold Redis.smembers : advances.
#[local] Hint Extern 1 (advances (Redis.scard _ _)) =>
  unfold Redis.scard : advances.
#[local] Hint Extern 1 (advances (Redis.set _ _ _)) =>
  unfold Redis.set : advances.
#[local] Hint Extern 1 (advances (Redis.get _ _)) =>
  unfold Redis.get : advances.
#[local] Hint Extern 1 (advances (Redis.delete _ _)) =>
  unfold Redis.delete : advances.
#[local] Hint Extern 1 (advances (sys_exit _)) =>
  unfold sys_exit : advances.

Ltac advances_solve := eauto 40 with advances.

Lemma advances_check_redis_connection r :
  advances (Dashboard.check_redis_connection r).
Proof. destruct r; cbn [Dashboard.check_redis_connection]; advances_solve. Qed.

#[local] Hint Resolve advances_check_redis_connection : advances.

Lemma advances_url_exists_elsewhere r url stations :
  advances (Dashboard.url_exists_elsewhere r url stations).
Proof.
  induction stations as [|s stations IH]; cbn [Dashboard.url_exists_elsewhere];
    advances_solve.
Qed.

#[local] Hint Resolve advances_url_exists_elsewhere : advances.

Lemma advances_add_url r form : advances (Dashboard.add_url r form).
Proof. unfold Dashboard.add_url. advances_solve. Qed.

Lemma advances_delete_url r form : advances (Dashboard.delete_url r form).
Proof. unfold Dashboard.delete_url. advances_solve. Qed.

Lemma advances_delete_station r form :
  advances (Dashboard.delete_station r form).
Proof. unfold Dashboard.delete_station. advances_solve. Qed.

Lemma advances_add_station r form : advances (Dashboard.add_station r form).
Proof. unfold Dashboard.add_station. advances_solve. Qed.

Lemma advances_connect_redis_try : advances Sentinel.connect_redis_try.
Proof. unfold Sentinel.connect_redis_try. advances_solve. Qed.

Lemma advances_process_url r item : advances (Sentinel.process_url r item).
Proof. destruct item. unfold Sentinel.process_url. advances_solve. Qed.

(* ===================================================================== *)
(** * What a run raises when Redis fails in the ordinary way              *)
(* ===================================================================== *)

Lemma ordinary_faults_later (w w' : world) :
  later w w' → ordinary_faults w → ordinary_faults w'.
Proof.
  unfold later, ordinary_faults. intros (_&Hf&_&_&Hn&_) H n k Hle.
  rewrite Hf. apply H. lia.
Qed.

Lemma subclass_BaseException c : issubclass c BaseException = true.
Proof. by destruct c. Qed.

Lemma isinstance_BaseException e : isinstance e BaseException = true.
Proof. destruct e; [apply subclass_BaseException|done]. Qed.

Lemma roe_ret {A} (a : A) : raises_only_Exception (mret a).
Proof. by intros w _. Qed.

Lemma roe_bind {A B} (m : M A) (f : A → M B) :
  advances m → raises_only_Exception m →
  (∀ a, raises_only_Exception (f a)) → raises_only_Exception (m ≫= f).
Proof.
  intros Ha Hm Hf w Hw. rewrite bind_run.
  specialize (Hm w Hw). specialize (Ha w).
  destruct (m w) as [[a|e] w1]; [|exact Hm].
  apply Hf. eapply ordinary_faults_later; [exact Ha|exact Hw].
Qed.

Lemma roe_logger level message : raises_only_Exception (logger level message).
Proof. by intros w _. Qed.

Lemma roe_flash category : raises_only_Exception (Dashboard.flash category).
Proof. by intros w _. Qed.

Lemma roe_time_time : raises_only_Exception time_time.
Proof. by intros w _. Qed.

Lemma roe_config : raises_only_Exception Sentinel.config_.
Proof. by intros w _. Qed.

Lemma roe_command {A} r
  (run : gmap string rval → result A * gmap string rval) :
  (∀ d, match fst (run d) with
        | Ret _ => True
        | Raise e => isinstance e Exception = true
        end) →
  raises_only_Exception (Redis.command r run).
Proof.
  intros Hrun w Hw. unfold Redis.command. destruct r; [|done].
  destruct (redis_fault w (redis_n w)) as [k|] eqn:E.
  - cbn. by apply (Hw (redis_n w)).
  - specialize (Hrun (db w)). by destruct (run (db w)).
Qed.

Lemma roe_ping r : raises_only_Exception (Redis.ping r).
Proof. by apply roe_command. Qed.

Lemma roe_smembers r key : raises_only_Exception (Redis.smembers r key).
Proof. apply roe_command. intros d. by destruct (d !! key) as [[]|]. Qed.

Lemma roe_scard r key : raises_only_Exception (Redis.scard r key).
Proof. apply roe_command. intros d. by destruct (d !! key) as [[]|]. Qed.

Lemma roe_sadd r key member : raises_only_Exception (Redis.sadd r key member).
Proof. apply roe_command. intros d. by destruct (d !! key) as [[]|]. Qed.

Lemma roe_srem r key member : raises_only_Exception (Redis.srem r key member).
Proof. apply roe_command. intros d. by destruct (d !! key) as [[]|]. Qed.

Lemma roe_get r key : raises_only_Exception (Redis.get r key).
Proof. apply roe_command. intros d. by destruct (d !! key) as [[]|]. Qed.

Lemma roe_set r key value : raises_only_Exception (Redis.set r key value).
Proof. by apply roe_command. Qed.

Lemma roe_delete r key : raises_only_Exception (Redis.delete r key).
Proof. by apply roe_command. Qed.

Create HintDb roe discriminated.

#[local] Hint Resolve roe_ret roe_logger roe_flash roe_time_time roe_config
  roe_ping roe_smembers roe_scard roe_sadd roe_srem roe_get roe_set
  roe_delete : roe.
#[local] Hint Extern 2 (raises_only_Exception (_ ≫= _)) =>
  apply roe_bind; [advances_solve| |intros ?] : roe.
#[local] Hint Extern 3 (raises_only_Exception (if ?b then _ else _)) =>
  destruct b : roe.
#[local] Hint Extern 3 (raises_only_Exception (match ?x with _ => _ end)) =>
  destruct x : roe.

Ltac roe_solve := eauto 40 with roe.

Lemma roe_url_exists_elsewhere r url stations :
  raises_only_Exception (Dashboard.url_exists_elsewhere r url stations).
Proof.
  induction stations as [|s stations IH]; cbn [Dashboard.url_exists_elsewhere];
    roe_solve.
Qed.

#[local] Hint Resolve roe_url_exists_elsewhere : roe.

Lemma returns_ret {A} (a : A) : returns (mret a).
Proof. intros w _. by exists a. Qed.

Lemma returns_bind {A B} (m : M A) (f : A → M B) :
  advances m → returns m → (∀ a, returns (f a)) → returns (m ≫= f).
Proof.
  intros Ha Hm Hf w Hw. rewrite bind_run.
  destruct (Hm w Hw) as [a Hr]. specialize (Ha w).
  destruct (m w) as [res w1]. cbn [fst snd] in *. subst res.
  apply Hf. eapply ordinary_faults_later; [exact Ha|exact Hw].
Qed.

Lemma returns_logger level message : returns (logger level message).
Proof. intros w _. by exists tt. Qed.

Lemma returns_flash category : returns (Dashboard.flash category).
Proof. intros w _. by exists tt. Qed.

(** A [try] whose single clause is [except Exception] and whose handler
    returns. *)
Lemma returns_try_except {A} (body : M A) h :
  advances body → raises_only_Exception body → (∀ e, returns (h e)) →
  returns (try_except body [(Exception, h)]).
Proof.
  intros Ha Hb Hh w Hw. rewrite try_except_run.
  specialize (Hb w Hw). specialize (Ha w).
  destruct (body w) as [[a|e] w1]; [by exists a|].
  cbn [fst snd dispatch] in *. rewrite Hb.
  apply Hh. eapply ordinary_faults_later; [exact Ha|exact Hw].
Qed.

(** [check_redis_connection] never raises: it answers [True] when there is a
    client and its ping succeeds, and [False] otherwise; it leaves the store
    as it is. *)
Lemma check_redis_connection_spec r (w : world) :
  ∃ connected,
    fst (Dashboard.check_redis_connection r w) = Ret connected ∧
    (connected = true ↔ r ≠ None ∧ redis_fault w (redis_n w) = None) ∧
    db (snd (Dashboard.check_redis_connection r w)) = db w.
Proof.
  destruct r as [c|]; cbn [Dashboard.check_redis_connection].
  - rewrite try_except_run, bind_run. unfold Redis.ping, Redis.command.
    destruct (redis_fault w (redis_n w)) as [k|] eqn:E.
    + cbn [dispatch isinstance]. rewrite subclass_BaseException.
      exists false. cbn. split; [done|]. split; [|done].
      split; [done|]. by intros [_ ?].
    + exists true. cbn. done.
  - exists false. cbn. split; [done|]. split; [|done].
    split; [done|]. by intros [? _].
Qed.

Lemma returns_check_redis_connection r :
  returns (Dashboard.check_redis_connection r).
Proof.
  intros w _. destruct (check_redis_connection_spec r w) as (b & Hb & _).
  by exists b.
Qed.

Create HintDb returns discriminated.

#[local] Hint Resolve returns_ret returns_logger returns_flash
  returns_check_redis_connection : returns.
#[local] Hint Extern 2 (returns (_ ≫= _)) =>
  apply returns_bind; [advances_solve| |intros ?] : returns.
#[local] Hint Extern 2 (returns (try_except _ [(Exception, _)])) =>
  apply returns_try_except; [advances_solve|roe_solve|intros ?] : returns.
#[local] Hint Extern 3 (returns (if ?b then _ else _)) =>
  destruct b : returns.

Ltac returns_solve := eauto 40 with returns.

(** The value of a computation that ends with [return b]. *)
Lemma bind_ret_value {A B} (m : M A) (b a : B) (w : world) :
  fst ((m ≫= λ _, mret b) w) = Ret a → a = b.
Proof.
  rewrite bind_run. destruct (m w) as [[x|e] w1]; [|discriminate].
  cbn. by intros [= <-].
Qed.

Lemma redirect_value (m1 m2 : M unit) (connected : M bool) (w : world) a :
  fst ((c ← connected;
        if negb c then m1 ;; mret (Dashboard.Redirect "/")
        else m2 ;; mret (Dashboard.Redirect "/")) w) = Ret a →
  a = Dashboard.Redirect "/".
Proof.
  rewrite bind_run. destruct (connected w) as [[c|e] w1]; [|discriminate].
  destruct (negb c); apply bind_ret_value.
Qed.

Lemma advances_status_or_pending r url :
  advances (Dashboard.status_or_pending r url).
Proof. unfold Dashboard.status_or_pending. advances_solve. Qed.

Lemma roe_status_or_pending r url :
  raises_only_Exception (Dashboard.status_or_pending r url).
Proof. unfold Dashboard.status_or_pending. roe_solve. Qed.

#[local] Hint Resolve advances_status_or_pending : advances.
#[local] Hint Resolve roe_status_or_pending : roe.

Lemma advances_index_urls r urls rows st :
  advances (Dashboard.index_urls r urls rows st).
Proof.
  revert rows st. induction urls as [|url urls IH]; intros rows st;
    cbn [Dashboard.index_urls]; advances_solve.
Qed.

Lemma roe_index_urls r urls rows st :
  raises_only_Exception (Dashboard.index_urls r urls rows st).
Proof.
  revert rows st. induction urls as [|url urls IH]; intros rows st;
    cbn [Dashboard.index_urls]; roe_solve.
Qed.

#[local] Hint Resolve advances_index_urls : advances.
#[local] Hint Resolve roe_index_urls : roe.

Lemma advances_index_stations r stations data st :
  advances (Dashboard.index_stations r stations data st).
Proof.
  revert data st. induction stations as [|s stations IH]; intros data st;
    cbn [Dashboard.index_stations]; advances_solve.
Qed.

Lemma roe_index_stations r stations data st :
  raises_only_Exception (Dashboard.index_stations r stations data st).
Proof.
  revert data st. induction stations as [|s stations IH]; intros data st;
    cbn [Dashboard.index_stations]; roe_solve.
Qed.

#[local] Hint Resolve advances_index_stations : advances.
#[local] Hint Resolve roe_index_stations : roe.

Lemma advances_api_urls r urls rows : advances (Dashboard.api_urls r urls rows).
Proof.
  revert rows. induction urls as [|url urls IH]; intros rows;
    cbn [Dashboard.api_urls]; advances_solve.
Qed.

Lemma roe_api_urls r urls rows :
  raises_only_Exception (Dashboard.api_urls r urls rows).
Proof.
  revert rows. induction urls as [|url urls IH]; intros rows;
    cbn [Dashboard.api_urls]; roe_solve.
Qed.

#[local] Hint Resolve advances_api_urls : advances.
#[local] Hint Resolve roe_api_urls : roe.

Lemma advances_api_stations r stations data :
  advances (Dashboard.api_stations r stations data).
Proof.
  revert data. induction stations as [|s stations IH]; intros data;
    cbn [Dashboard.api_stations]; advances_solve.
Qed.

Lemma roe_api_stations r stations data :
  raises_only_Exception (Dashboard.api_stations r stations data).
Proof.
  revert data. induction stations as [|s stations IH]; intros data;
    cbn [Dashboard.api_stations]; roe_solve.
Qed.

#[local] Hint Resolve advances_api_stations : advances.
#[local] Hint Resolve roe_api_stations : roe.

Lemma advances_index r : advances (Dashboard.index r).
Proof. unfold Dashboard.index. advances_solve. Qed.

Lemma advances_api_status r : advances (Dashboard.api_status r).
Proof. unfold Dashboard.api_status. advances_solve. Qed.

Lemma returns_add_station r form : returns (Dashboard.add_station r form).
Proof. unfold Dashboard.add_station. returns_solve. Qed.

Lemma returns_delete_station r form :
  returns (Dashboard.delete_station r form).
Proof. unfold Dashboard.delete_station. returns_solve. Qed.

Lemma returns_add_url r form : returns (Dashboard.add_url r form).
Proof. unfold Dashboard.add_url. returns_solve. Qed.

Lemma returns_delete_url r form : returns (Dashboard.delete_url r form).
Proof. unfold Dashboard.delete_url. returns_solve. Qed.

Lemma returns_index r : returns (Dashboard.index r).
Proof. unfold Dashboard.index. returns_solve. Qed.

Lemma returns_api_status r : returns (Dashboard.api_status r).
Proof. unfold Dashboard.api_status. returns_solve. Qed.

(** X1. The health check of the dashboard never raises, whatever the client
    and whatever Redis does: it answers [True] exactly when there is a client
    and its ping succeeds, and it leaves the store as it is. *)
Theorem check_redis_connection_never_raises r (w : world) :
  ∃ connected,
    fst (Dashboard.check_redis_connection r w) = Ret connected ∧
    (connected = true ↔ r ≠ None ∧ redis_fault w (redis_n w) = None) ∧
    db (snd (Dashboard.check_redis_connection r w)) = db w.
Proof. apply check_redis_connection_spec. Qed.

(** X2. When whatever fails in Redis fails with an [Exception], every view
    of the dashboard answers: the four views that change the store redirect
    to [/], and the two that render return a page. None of them lets an
    exception through, with or without a client, whatever the form holds. *)
Theorem views_answer_under_ordinary_faults r (form : gmap string string)
  (w : world) :
  ordinary_faults w →
  fst (Dashboard.add_station r form w) = Ret (Dashboard.Redirect "/") ∧
  fst (Dashboard.delete_station r form w) = Ret (Dashboard.Redirect "/") ∧
  fst (Dashboard.add_url r form w) = Ret (Dashboard.Redirect "/") ∧
  fst (Dashboard.delete_url r form w) = Ret (Dashboard.Redirect "/") ∧
  (∃ page, fst (Dashboard.index r w) = Ret page) ∧
  (∃ page, fst (Dashboard.api_status r w) = Ret page).
Proof.
  intros Hw.
  destruct (returns_add_station r form w Hw) as [a1 H1].
  destruct (returns_delete_station r form w Hw) as [a2 H2].
  destruct (returns_add_url r form w Hw) as [a3 H3].
  destruct (returns_delete_url r form w Hw) as [a4 H4].
  repeat split.
  - rewrite H1. f_equal. revert H1. apply redirect_value.
  - rewrite H2. f_equal. revert H2. apply redirect_value.
  - rewrite H3. f_equal. revert H3. apply redirect_value.
  - rewrite H4. f_equal. revert H4. apply redirect_value.
  - by apply returns_index.
  - by apply returns_api_status.
Qed.

(** Redis refuses every command, and the form is empty. *)
Lemma views_answer_under_ordinary_faults_witness :
  fst (Dashboard.add_station the_client ∅ unreachable)
    = Ret (Dashboard.Redirect "/") ∧
  fst (Dashboard.delete_station the_client ∅ unreachable)
    = Ret (Dashboard.Redirect "/") ∧
  fst (Dashboard.add_url the_client ∅ unreachable)
    = Ret (Dashboard.Redirect "/") ∧
  fst (Dashboard.delete_url the_client ∅ unreachable)
    = Ret (Dashboard.Redirect "/") ∧
  (∃ page, fst (Dashboard.index the_client unreachable) = Ret page) ∧
  (∃ page, fst (Dashboard.api_status the_client unreachable) = Ret page).
Proof.
  apply (views_answer_under_ordinary_faults the_client ∅ unreachable).
  intros n k _ [= <-]. reflexivity.
Defined.

(* ===================================================================== *)
(** * The store stays well formed                                         *)
(* ===================================================================== *)

Lemma preserves_try_except_1 (R : relation (gmap string rval)) `{!PreOrder R}
  {A} (body : M A) cls h :
  preserves R body → (∀ e, preserves R (h e)) →
  preserves R (try_except body [(cls, h)]).
Proof.
  intros Hb Hh. apply preserves_try_except; [apply _|exact Hb|].
  intros cls' h' Hin e. apply list_elem_of_singleton in Hin as [= -> ->].
  apply Hh.
Qed.

Lemma preserves_get (R : relation (gmap string rval)) `{!PreOrder R} r key :
  preserves R (Redis.get r key).
Proof.
  apply preserves_command; [apply _|]. intros d.
  destruct (d !! key) as [[]|]; reflexivity.
Qed.

Create HintDb preserves discriminated.

#[local] Hint Extern 1 (preserves _ (mret _)) =>
  (apply preserves_ret; apply _) : preserves.
#[local] Hint Extern 1 (preserves _ (logger _ _)) =>
  (apply preserves_logger; apply _) : preserves.
#[local] Hint Extern 1 (preserves _ (Dashboard.flash _)) =>
  (apply preserves_flash; apply _) : preserves.
#[local] Hint Extern 1 (preserves _ (time_sleep _)) =>
  (apply preserves_time_sleep; apply _) : preserves.
#[local] Hint Extern 1 (preserves _ time_time) =>
  (apply preserves_time_time; apply _) : preserves.
#[local] Hint Extern 1 (preserves _ Sentinel.config_) =>
  (apply preserves_config; apply _) : preserves.
#[local] Hint Extern 1 (preserves _ (sys_exit _)) =>
  (apply preserves_sys_exit; apply _) : preserves.
#[local] Hint Extern 1 (preserves _ (Redis.ping _)) =>
  (apply preserves_ping; apply _) : preserves.
#[local] Hint Extern 1 (preserves _ (Redis.exists_ _ _)) =>
  (apply preserves_exists; apply _) : preserves.
#[local] Hint Extern 1 (preserves _ (Redis.smembers _ _)) =>
  (apply preserves_smembers; apply _) : preserves.
#[local] Hint Extern 1 (preserves _ (Redis.scard _ _)) =>
  (apply preserves_scard; apply _) : preserves.
#[local] Hint Extern 1 (preserves _ (Redis.get _ _)) =>
  (apply preserves_get; apply _) : preserves.
#[local] Hint Extern 1 (preserves _ (Sentinel.check_url _ _)) =>
  (apply preserves_check_url; apply _) : preserves.
#[local] Hint Extern 1 (preserves _ (Dashboard.check_redis_connection _)) =>
  (apply preserves_check_redis_connection; apply _) : preserves.
#[local] Hint Extern 1 (preserves _ (Sentinel.collect_urls _ _ _)) =>
  (apply preserves_collect_urls; apply _) : preserves.
#[local] Hint Extern 1 (preserves _ (Dashboard.url_exists_elsewhere _ _ _)) =>
  (apply preserves_url_exists_elsewhere; apply _) : preserves.
#[local] Hint Extern 2 (preserves _ (_ ≫= _)) =>
  (apply preserves_bind; [apply _| |intros ?]) : preserves.
#[local] Hint Extern 2 (preserves _ (try_except _ [_])) =>
  (apply preserves_try_except_1; [apply _| |intros ?]) : preserves.
#[local] Hint Extern 2 (preserves _ (for_each _ _)) =>
  (apply preserves_for_each; [apply _|intros ?]) : preserves.
#[local] Hint Extern 3 (preserves _ (if ?b then _ else _)) =>
  destruct b : preserves.
#[local] Hint Extern 3 (preserves _ (match ?x with _ => _ end)) =>
  destruct x : preserves.

Ltac preserves_solve := eauto 40 with preserves.

#[local] Instance keeps_preorder (I : gmap string rval → Prop) :
  PreOrder (keeps I).
Proof.
  split; [by intros d H|]. intros d1 d2 d3 H12 H23 H. by apply H23, H12.
Qed.

Lemma set_key_not_status key url : set_key key → key ≠ "status:" +:+ url.
Proof.
  intros [->|[s ->]].
  - intros H. symmetry in H. by apply status_key_not_stations in H.
  - apply urls_key_not_status.
Qed.

Lemma store_ok_insert_set d key s :
  set_key key → s ≠ ∅ → store_ok d → store_ok (<[key := VSet s]> d).
Proof.
  intros Hk Hs ((Hts & Htu) & Hst & Hne). split; [split|split].
  - intros v. destruct (decide (key = "stations")) as [->|Hn].
    + by rewrite lookup_insert_eq.
    + rewrite lookup_insert_ne by done. apply Hts.
  - intros station v.
    destruct (decide (key = "urls:" +:+ station)) as [->|Hn].
    + by rewrite lookup_insert_eq.
    + rewrite lookup_insert_ne by done. apply Htu.
  - intros url s'. rewrite lookup_insert_ne by by apply set_key_not_status.
    apply Hst.
  - intros key'. destruct (decide (key = key')) as [->|Hn].
    + rewrite lookup_insert_eq. by intros [= ->].
    + rewrite lookup_insert_ne by done. apply Hne.
Qed.

Lemma store_ok_insert_status d url value :
  store_ok d → store_ok (<["status:" +:+ url := VStr value]> d).
Proof.
  intros ((Hts & Htu) & Hst & Hne). split; [split|split].
  - intros v. rewrite lookup_insert_ne by apply status_key_not_stations.
    apply Hts.
  - intros station v.
    rewrite lookup_insert_ne by (symmetry; apply urls_key_not_status).
    apply Htu.
  - intros url' s'.
    destruct (decide ("status:" +:+ url = "status:" +:+ url')) as [->|Hn].
    + by rewrite lookup_insert_eq.
    + rewrite lookup_insert_ne by done. apply Hst.
  - intros key'.
    destruct (decide ("status:" +:+ url = key')) as [<-|Hn].
    + by rewrite lookup_insert_eq.
    + rewrite lookup_insert_ne by done. apply Hne.
Qed.

Lemma store_ok_delete d key : store_ok d → store_ok (delete key d).
Proof.
  intros ((Hts & Htu) & Hst & Hne).
  assert (H : ∀ key' v, delete key d !! key' = Some v → d !! key' = Some v).
  { intros key' v. rewrite lookup_delete_Some. by intros [_ ?]. }
  split; [split|split].
  - intros v Hv. by apply H, Hts in Hv.
  - intros station v Hv. by apply H, Htu in Hv.
  - intros url s Hv. by apply H, Hst in Hv.
  - intros key' Hv. by apply H, Hne in Hv.
Qed.

Lemma preserves_sadd_ok r key member :
  set_key key → preserves (keeps store_ok) (Redis.sadd r key member).
Proof.
  intros Hk. apply preserves_command; [apply _|]. intros d Hd.
  destruct (d !! key) as [[s|v]|]; cbn [snd]; [|done|].
  - apply store_ok_insert_set; [done|set_solver|done].
  - apply store_ok_insert_set; [done|set_solver|done].
Qed.

Lemma preserves_set_ok r url value :
  preserves (keeps store_ok) (Redis.set r ("status:" +:+ url) value).
Proof.
  apply preserves_command; [apply _|]. intros d Hd. cbn [snd].
  by apply store_ok_insert_status.
Qed.

Lemma preserves_delete_ok r key :
  preserves (keeps store_ok) (Redis.delete r key).
Proof.
  apply preserves_command; [apply _|]. intros d Hd. cbn [snd].
  by apply store_ok_delete.
Qed.

Lemma preserves_srem_ok r key member :
  set_key key → preserves (keeps store_ok) (Redis.srem r key member).
Proof.
  intros Hk. apply preserves_command; [apply _|]. intros d Hd.
  destruct (d !! key) as [[s|v]|]; cbn [snd]; [|done|done].
  destruct (decide (s ∖ {[member]} = ∅)).
  - by apply store_ok_delete.
  - by apply store_ok_insert_set.
Qed.

Lemma set_key_stations : set_key "stations".
Proof. by left. Qed.

Lemma set_key_urls station : set_key ("urls:" +:+ station).
Proof. right. by exists station. Qed.

#[local] Hint Resolve preserves_sadd_ok preserves_srem_ok preserves_set_ok
  preserves_delete_ok set_key_stations set_key_urls : preserves.

Lemma keeps_ok_connect_redis_from attempts :
  preserves (keeps store_ok) (Sentinel.connect_redis_from attempts).
Proof.
  induction attempts as [|attempt rest IH];
    cbn [Sentinel.connect_redis_from]; [preserves_solve|].
  unfold Sentinel.connect_redis_try. preserves_solve.
Qed.

Lemma keeps_ok_process_url r item :
  preserves (keeps store_ok) (Sentinel.process_url r item).
Proof. destruct item. unfold Sentinel.process_url. preserves_solve. Qed.

#[local] Hint Resolve keeps_ok_connect_redis_from keeps_ok_process_url
  : preserves.

Lemma keeps_ok_sweep r n : preserves (keeps store_ok) (Sentinel.sweep r n).
Proof.
  unfold Sentinel.sweep, Sentinel.enumerate_targets. preserves_solve.
Qed.

Lemma keeps_ok_while_True fuel r n :
  preserves (keeps store_ok) (Sentinel.while_True fuel r n).
Proof.
  revert r n. induction fuel as [|fuel IH]; intros r n;
    cbn [Sentinel.while_True]; [preserves_solve|].
  apply preserves_bind; [apply _| |intros r'; apply IH].
  apply preserves_try_except; [apply _| |].
  - pose proof (keeps_ok_sweep r (n + 1)). preserves_solve.
  - intros cls h Hin e. unfold Sentinel.connect_redis.
    repeat (apply elem_of_cons in Hin as [[= -> ->]|Hin]); [..|by inversion Hin];
      preserves_solve.
Qed.

Lemma keeps_ok_main (fuel : nat) (w : world) :
  store_ok (db w) → store_ok (db (snd (Sentinel.main fuel w))).
Proof.
  assert (H : preserves (keeps store_ok)
                (r ← Sentinel.connect_redis; Sentinel.check_urls fuel r)).
  { apply preserves_bind; [apply _|apply keeps_ok_connect_redis_from|].
    intros r. apply keeps_ok_while_True. }
  specialize (H w). unfold Sentinel.main.
  by destruct ((Sentinel.connect_redis ≫= _) w) as [[[]|[]] w'].
Qed.

Lemma keeps_ok_add_station r form :
  preserves (keeps store_ok) (Dashboard.add_station r form).
Proof. unfold Dashboard.add_station. preserves_solve. Qed.

Lemma keeps_ok_delete_station r form :
  preserves (keeps store_ok) (Dashboard.delete_station r form).
Proof. unfold Dashboard.delete_station. preserves_solve. Qed.

Lemma keeps_ok_add_url r form :
  preserves (keeps store_ok) (Dashboard.add_url r form).
Proof. unfold Dashboard.add_url. preserves_solve. Qed.

Lemma keeps_ok_delete_url r form :
  preserves (keeps store_ok) (Dashboard.delete_url r form).
Proof. unfold Dashboard.delete_url. preserves_solve. Qed.

Lemma keeps_ok_index_urls r urls rows st :
  preserves (keeps store_ok) (Dashboard.index_urls r urls rows st).
Proof.
  revert rows st. induction urls as [|url urls IH]; intros rows st;
    cbn [Dashboard.index_urls]; unfold Dashboard.status_or_pending;
    preserves_solve.
Qed.

#[local] Hint Resolve keeps_ok_index_urls : preserves.

Lemma keeps_ok_index_stations r stations data st :
  preserves (keeps store_ok) (Dashboard.index_stations r stations data st).
Proof.
  revert data st. induction stations as [|s stations IH]; intros data st;
    cbn [Dashboard.index_stations]; preserves_solve.
Qed.

#[local] Hint Resolve keeps_ok_index_stations : preserves.

Lemma keeps_ok_index r : preserves (keeps store_ok) (Dashboard.index r).
Proof. unfold Dashboard.index. preserves_solve. Qed.

(** [api_status] only reads. *)
Lemma api_urls_reads r urls rows : preserves eq (Dashboard.api_urls r urls rows).
Proof.
  revert rows. induction urls as [|url urls IH]; intros rows;
    cbn [Dashboard.api_urls]; unfold Dashboard.status_or_pending;
    preserves_solve.
Qed.

#[local] Hint Resolve api_urls_reads : preserves.

Lemma api_stations_reads r stations data :
  preserves eq (Dashboard.api_stations r stations data).
Proof.
  revert data. induction stations as [|s stations IH]; intros data;
    cbn [Dashboard.api_stations]; preserves_solve.
Qed.

#[local] Hint Resolve api_stations_reads : preserves.

Lemma api_status_reads r : preserves eq (Dashboard.api_status r).
Proof. unfold Dashboard.api_status. preserves_solve. Qed.

(** A store of five keys, read key by key. *)
Ltac lookup_cases H :=
  repeat (apply lookup_insert_Some in H as [[? H]|[? H]];
          [first [discriminate H | by simplify_eq/=]|]);
  try (rewrite lookup_empty in H; discriminate H).

Lemma swept_db_ok : store_ok swept_db.
Proof.
  split; [exact swept_db_typed|]. unfold swept_db, scenario_db. split.
  - intros url s H. lookup_cases H.
  - intros key H. lookup_cases H.
Qed.

(** X3. A store that is well formed (sets under [stations] and
    [urls:<station>], strings under [status:<url>], no empty set) is well
    formed after any run of the monitor and of each view of the dashboard,
    also a run in which Redis fails midway. *)
Theorem store_stays_well_formed r (form : gmap string string) (fuel : nat)
  (w : world) :
  store_ok (db w) →
  store_ok (db (snd (Sentinel.main fuel w))) ∧
  store_ok (db (snd (Dashboard.index r w))) ∧
  store_ok (db (snd (Dashboard.api_status r w))) ∧
  store_ok (db (snd (Dashboard.add_station r form w))) ∧
  store_ok (db (snd (Dashboard.delete_station r form w))) ∧
  store_ok (db (snd (Dashboard.add_url r form w))) ∧
  store_ok (db (snd (Dashboard.delete_url r form w))).
Proof.
  intros Hok. split; [by apply keeps_ok_main|].
  split; [by apply keeps_ok_index|].
  split; [by rewrite <- (api_status_reads r w)|].
  split; [by apply keeps_ok_add_station|].
  split; [by apply keeps_ok_delete_station|].
  split; [by apply keeps_ok_add_url|by apply keeps_ok_delete_url].
Qed.

Lemma store_stays_well_formed_witness :
  store_ok (db (snd (Sentinel.main 2 (quiet swept_db)))) ∧
  store_ok (db (snd (Dashboard.index the_client (quiet swept_db)))) ∧
  store_ok (db (snd (Dashboard.api_status the_client (quiet swept_db)))) ∧
  store_ok (db (snd (Dashboard.add_station the_client
                       (form_of [("name", "Home")]) (quiet swept_db)))) ∧
  store_ok (db (snd (Dashboard.delete_station the_client
                       (form_of [("name", "Home")]) (quiet swept_db)))) ∧
  store_ok (db (snd (Dashboard.add_url the_client
                       (form_of [("name", "Home")]) (quiet swept_db)))) ∧
  store_ok (db (snd (Dashboard.delete_url the_client
                       (form_of [("name", "Home")]) (quiet swept_db)))).
Proof.
  apply (store_stays_well_formed the_client (form_of [("name", "Home")]) 2
           (quiet swept_db)).
  exact swept_db_ok.
Defined.

(* ===================================================================== *)
(** * The pages of the dashboard                                          *)
(* ===================================================================== *)

Lemma count_status_app p (rows1 rows2 : list (string * string)) :
  count_status p (rows1 ++ rows2)
  = (count_status p rows1 + count_status p rows2)%Z.
Proof.
  unfold count_status. rewrite List.filter_app, length_app. lia.
Qed.

Lemma all_rows_app (data1 data2 : list (string * list (string * string))) :
  all_rows (data1 ++ data2) = all_rows data1 ++ all_rows data2.
Proof. unfold all_rows. by rewrite fmap_app, concat_app. Qed.

(** The counters after the loop over the URLs of a station, in any run that
    reaches its end: the rows are those before and one per URL, and each
    counter has grown by the number of new rows of its kind. *)
Lemma index_urls_spec r (urls : list string) rows (st : Dashboard.stats)
  (w : world) :
  match fst (Dashboard.index_urls r urls rows st w) with
  | Ret (rows', st') =>
      ∃ new, rows' = rows ++ new ∧ new.*1 = urls ∧
        Dashboard.total st'
          = (Dashboard.total st + Z.of_nat (length new))%Z ∧
        Dashboard.pending st'
          = (Dashboard.pending st + count_status is_pending new)%Z ∧
        Dashboard.up st' = (Dashboard.up st + count_status is_up new)%Z ∧
        Dashboard.down st'
          = (Dashboard.down st + count_status is_down new)%Z
  | Raise _ => True
  end.
Proof.
  revert rows st w. induction urls as [|url urls IH]; intros rows st w.
  { cbn. exists []. rewrite app_nil_r. unfold count_status. cbn.
    repeat split; lia. }
  cbn [Dashboard.index_urls]. rewrite bind_run.
  destruct (Dashboard.status_or_pending r url w) as [[status|e] w1]; [|done].
  match goal with
  | |- context [Dashboard.index_urls r urls ?rows1 ?st1 w1] =>
      specialize (IH rows1 st1 w1);
      destruct (fst (Dashboard.index_urls r urls rows1 st1 w1))
        as [[rows' st']|e]; [|done]
  end.
  destruct IH as (new & -> & Hurls & Ht & Hp & Hu & Hd).
  exists ((url, status) :: new). rewrite <- app_assoc. split; [done|].
  split; [cbn; by rewrite Hurls|].
  change ((url, status) :: new) with ([(url, status)] ++ new).
  rewrite !count_status_app, length_app.
  unfold count_status, is_up, is_down, is_pending in *.
  cbn [List.filter snd length].
  destruct (String.eqb status "PENDING"); cbn [negb andb] in *;
    [|destruct (Sentinel.contains "UP" status)];
    cbn [negb andb Dashboard.total Dashboard.up Dashboard.down
         Dashboard.pending length] in *;
    repeat split; lia.
Qed.

Lemma index_stations_spec r (stations : list string) data
  (st : Dashboard.stats) (w : world) :
  match fst (Dashboard.index_stations r stations data st w) with
  | Ret (data', st') =>
      ∃ new, data' = data ++ new ∧ new.*1 = stations ∧
        Dashboard.total st'
          = (Dashboard.total st + Z.of_nat (length (all_rows new)))%Z ∧
        Dashboard.pending st'
          = (Dashboard.pending st + count_status is_pending (all_rows new))%Z ∧
        Dashboard.up st'
          = (Dashboard.up st + count_status is_up (all_rows new))%Z ∧
        Dashboard.down st'
          = (Dashboard.down st + count_status is_down (all_rows new))%Z
  | Raise _ => True
  end.
Proof.
  revert data st w. induction stations as [|s stations IH]; intros data st w.
  { cbn. exists []. rewrite app_nil_r. unfold count_status. cbn.
    repeat split; lia. }
  cbn [Dashboard.index_stations]. rewrite bind_run.
  destruct (Redis.smembers r ("urls:" +:+ s) w) as [[members|e] w1]; [|done].
  rewrite bind_run.
  pose proof (index_urls_spec r (sorted (elements members)) [] st w1) as Hu.
  destruct (Dashboard.index_urls r (sorted (elements members)) [] st w1)
    as [[[rows st1]|e] w2]; [|done].
  cbn [fst] in Hu. destruct Hu as (new & -> & _ & Ht & Hp & Hu & Hd).
  specialize (IH (data ++ [(s, [] ++ new)]) st1 w2).
  destruct (fst (Dashboard.index_stations r stations _ st1 w2))
    as [[data' st']|e]; [|done].
  destruct IH as (newd & -> & Hst & Ht' & Hp' & Hu' & Hd').
  exists ((s, new) :: newd). cbn [app]. rewrite <- app_assoc.
  split; [done|]. split; [cbn; by rewrite Hst|].
  change ((s, new) :: newd) with ([(s, new)] ++ newd).
  rewrite all_rows_app, !count_status_app, length_app.
  unfold all_rows at 1 3 5 7. cbn [fmap list_fmap snd concat].
  rewrite app_nil_r. repeat split; lia.
Qed.

Lemma index_page_spec r (w : world) data (st : Dashboard.stats) :
  fst (Dashboard.index r w) = Ret (Dashboard.IndexPage data st) →
  Dashboard.total st = Z.of_nat (length (all_rows data)) ∧
  Dashboard.pending st = count_status is_pending (all_rows data) ∧
  Dashboard.up st = count_status is_up (all_rows data) ∧
  Dashboard.down st = count_status is_down (all_rows data).
Proof.
  unfold Dashboard.index. rewrite bind_run.
  destruct (Dashboard.check_redis_connection r w) as [[[]|e] w0];
    cbn [negb]; [|discriminate..].
  rewrite try_except_run, bind_run.
  destruct (Redis.smembers r "stations" w0) as [[members|e] w1].
  2: { cbn [dispatch]. destruct (isinstance e Exception); [|discriminate].
       rewrite bind_run. cbn. discriminate. }
  rewrite bind_run.
  set (first := match sorted (elements members) with
                | [] => _ | _ => _ end).
  destruct (first w1) as [[stations|e] w2].
  2: { cbn [dispatch]. destruct (isinstance e Exception); [|discriminate].
       rewrite bind_run. cbn. discriminate. }
  rewrite bind_run.
  pose proof (index_stations_spec r stations []
                {| Dashboard.total := 0; Dashboard.up := 0;
                   Dashboard.down := 0; Dashboard.pending := 0 |} w2) as H.
  destruct (Dashboard.index_stations r stations [] _ w2)
    as [[[data' st']|e] w3].
  2: { cbn [dispatch]. destruct (isinstance e Exception); [|discriminate].
       rewrite bind_run. cbn. discriminate. }
  cbn. intros [= -> ->].
  destruct H as (new & -> & _ & Ht & Hp & Hu & Hd).
  cbn [app Dashboard.total Dashboard.up Dashboard.down Dashboard.pending]
    in *.
  repeat split; lia.
Qed.

Lemma count_status_partition (rows : list (string * string)) :
  (count_status is_up rows + count_status is_down rows
   + count_status is_pending rows)%Z = Z.of_nat (length rows).
Proof.
  induction rows as [|[url status] rows IH]; [done|].
  change ((url, status) :: rows) with ([(url, status)] ++ rows).
  rewrite !count_status_app, length_app.
  unfold count_status, is_up, is_down, is_pending in *.
  cbn [List.filter snd].
  destruct (String.eqb status "PENDING"); cbn [negb andb];
    [|destruct (Sentinel.contains "UP" status)]; cbn [negb andb length]; lia.
Qed.

(** X4. When [index] renders the dashboard, in any run, its counters agree
    with the rows it shows: [total] is the number of rows, [pending], [up]
    and [down] are the numbers of rows shown as [PENDING], as another status
    that contains [UP], and as any other status; the three add up to
    [total]. *)
Theorem index_counters_agree_with_rows r (w : world) data
  (st : Dashboard.stats) :
  fst (Dashboard.index r w) = Ret (Dashboard.IndexPage data st) →
  Dashboard.total st = Z.of_nat (length (all_rows data)) ∧
  Dashboard.pending st = count_status is_pending (all_rows data) ∧
  Dashboard.up st = count_status is_up (all_rows data) ∧
  Dashboard.down st = count_status is_down (all_rows data) ∧
  Dashboard.total st
    = (Dashboard.up st + Dashboard.down st + Dashboard.pending st)%Z.
Proof.
  intros H. destruct (index_page_spec r w data st H) as (Ht & Hp & Hu & Hd).
  repeat split; try done.
  rewrite Ht, Hp, Hu, Hd. symmetry. apply count_status_partition.
Qed.

Lemma index_counters_agree_with_rows_witness :
  let data :=
    [("General", [("https://example.com", "UP (40ms)")]);
     ("Work", [("https://example.com", "UP (40ms)");
               ("https://nonexistent.invalid", "PENDING")])] in
  let st := {| Dashboard.total := 3; Dashboard.up := 2;
               Dashboard.down := 0; Dashboard.pending := 1 |} in
  Dashboard.total st = Z.of_nat (length (all_rows data)) ∧
  Dashboard.pending st = count_status is_pending (all_rows data) ∧
  Dashboard.up st = count_status is_up (all_rows data) ∧
  Dashboard.down st = count_status is_down (all_rows data) ∧
  Dashboard.total st
    = (Dashboard.up st + Dashboard.down st + Dashboard.pending st)%Z.
Proof.
  apply (index_counters_agree_with_rows the_client (quiet scenario_db)).
  vm_compute. reflexivity.
Defined.

Lemma insert_sorted_perm (x : string) (l : list string) :
  insert_sorted x l ≡ₚ x :: l.
Proof.
  induction l as [|y l IH]; [done|]. cbn [insert_sorted].
  destruct (String.leb x y); [done|]. rewrite IH. apply Permutation_swap.
Qed.

(** [sorted] rearranges its list. *)
Lemma sorted_perm (l : list string) : sorted l ≡ₚ l.
Proof.
  induction l as [|x l IH]; [done|]. unfold sorted. cbn [foldr].
  fold (sorted l). by rewrite insert_sorted_perm, IH.
Qed.

Lemma sorted_elements_nil (s : gset string) :
  sorted (elements s) = [] ↔ s = ∅.
Proof.
  split.
  - intros H. pose proof (sorted_perm (elements s)) as Hp.
    rewrite H in Hp. apply Permutation_nil_l in Hp.
    by apply leibniz_equiv, elements_empty_inv.
  - intros ->. by rewrite elements_empty.
Qed.

Lemma index_urls_reads r urls rows st :
  preserves eq (Dashboard.index_urls r urls rows st).
Proof.
  revert rows st. induction urls as [|url urls IH]; intros rows st;
    cbn [Dashboard.index_urls]; unfold Dashboard.status_or_pending;
    preserves_solve.
Qed.

Lemma index_stations_reads r stations data st :
  preserves eq (Dashboard.index_stations r stations data st).
Proof.
  pose proof index_urls_reads.
  revert data st. induction stations as [|s stations IH]; intros data st;
    cbn [Dashboard.index_stations]; preserves_solve.
Qed.

Lemma bind_pure_db {A B} (m : M A) (f : A → M B) (w : world) :
  (∀ a w', snd (f a w') = w') →
  db (snd ((m ≫= f) w)) = db (snd (m w)).
Proof.
  intros Hf. rewrite bind_run. destruct (m w) as [[a|e] w1]; [|done].
  by rewrite Hf.
Qed.

(** The store after [index], in any run: as it was, or, when there was no
    station, with the station set [{General}]. *)
Lemma index_store r (w : world) :
  let d' := db (snd (Dashboard.index r w)) in
  d' = db w ∨
  (station_set (db w) = ∅ ∧ d' = <["stations" := VSet {["General"]}]> (db w)).
Proof.
  cbn zeta. unfold Dashboard.index. rewrite bind_run.
  pose proof (preserves_check_redis_connection eq r w) as H0.
  destruct (Dashboard.check_redis_connection r w) as [[connected|e] w0];
    cbn [snd] in H0; [|by left].
  destruct connected; cbn [negb]; [|by left].
  rewrite try_except_db.
  2: { intros cls h Hin e. apply list_elem_of_singleton in Hin as [= -> ->].
       preserves_solve. }
  rewrite bind_run. pose proof (smembers_spec r "stations" w0) as Hsm.
  destruct (Redis.smembers r "stations" w0) as [[members|e] w1];
    [|left; cbn [snd]; congruence].
  destruct Hsm as [-> Hdb1]. rewrite bind_run.
  assert (Hrest : ∀ l w2,
    db (snd ((Dashboard.index_stations r l []
                {| Dashboard.total := 0; Dashboard.up := 0;
                   Dashboard.down := 0; Dashboard.pending := 0 |}
              ≫= λ '(station_data, st),
                   mret (Dashboard.IndexPage station_data st)) w2)) = db w2).
  { intros l w2. rewrite bind_pure_db by by intros [].
    symmetry. apply index_stations_reads. }
  destruct (sorted (elements (members_of (db w0) "stations"))) as [|s0 l]
    eqn:Hsorted.
  - apply sorted_elements_nil in Hsorted. rewrite bind_run.
    unfold Redis.sadd, Redis.command.
    destruct r as [c|]; [|left; cbn [snd]; congruence].
    destruct (redis_fault w1 (redis_n w1));
      [left; cbn [snd db next_redis]; congruence|].
    rewrite Hdb1. unfold members_of in Hsorted.
    destruct (db w0 !! "stations") as [[s|v]|] eqn:E;
      [|left; cbn [snd db next_redis with_db Redis.WRONGTYPE]; congruence|].
    + subst s. rewrite union_empty_r_L. cbn [fst snd mret M_ret].
      rewrite Hrest. cbn [db with_db]. right. rewrite <- H0 in E |- *.
      split; [|done]. unfold station_set, members_of. by rewrite E.
    + cbn [fst snd mret M_ret]. rewrite Hrest. cbn [db with_db].
      right. rewrite <- H0 in E |- *. split; [|done].
      unfold station_set, members_of. by rewrite E.
  - cbn [mret M_ret]. rewrite Hrest. left. congruence.
Qed.

(** X5. [api_status] never writes: in any run the store is as it was.
    [index] writes nothing either, unless there is no station: then the only
    change, if any, is the station set [{General}]. *)
Theorem rendering_views_write_only_the_default_station r (w : world) :
  db (snd (Dashboard.api_status r w)) = db w ∧
  (db (snd (Dashboard.index r w)) = db w ∨
   (station_set (db w) = ∅ ∧
    db (snd (Dashboard.index r w))
      = <["stations" := VSet {["General"]}]> (db w))) ∧
  (station_set (db w) ≠ ∅ → db (snd (Dashboard.index r w)) = db w).
Proof.
  split; [symmetry; apply api_status_reads|].
  pose proof (index_store r w) as H. cbn zeta in H.
  split; [exact H|]. intros Hne. by destruct H as [?|[? _]].
Qed.

Lemma rendering_views_write_only_the_default_station_witness :
  db (snd (Dashboard.index the_client (quiet swept_db))) = db (quiet swept_db).
Proof.
  apply (rendering_views_write_only_the_default_station the_client
           (quiet swept_db)).
  vm_compute. discriminate.
Defined.

Lemma status_or_pending_ok (c : Redis.client) url (w : world) :
  redis_fault w (redis_n w) = None → statuses_typed (db w) →
  Dashboard.status_or_pending (Some c) url w
  = (Ret (shown_status (db w) url), next_redis w).
Proof.
  intros Hf Ht. unfold Dashboard.status_or_pending, shown_status, status_of.
  rewrite bind_run. unfold Redis.get. rewrite command_ok by done.
  destruct (db w !! ("status:" +:+ url)) as [[s|v]|] eqn:E;
    [by destruct (Ht url s)|done..].
Qed.

Lemma api_urls_ok (c : Redis.client) (urls : list string) rows (w : world) :
  redis_up w → statuses_typed (db w) →
  ∃ w', Dashboard.api_urls (Some c) urls rows w
        = (Ret (rows ++ ((λ url, (url, shown_status (db w) url)) <$> urls)),
           w') ∧
        later w w' ∧ db w' = db w.
Proof.
  revert rows w. induction urls as [|url urls IH]; intros rows w Hup Ht.
  { exists w. cbn. rewrite app_nil_r. split; [done|].
    split; [apply later_refl|done]. }
  cbn [Dashboard.api_urls]. rewrite bind_run.
  rewrite status_or_pending_ok by (try apply redis_up_now; done).
  destruct (IH (rows ++ [(url, shown_status (db w) url)]) (next_redis w))
    as (w' & -> & Hl & Hdb); [by apply redis_up_next|done|].
  exists w'. rewrite <- app_assoc. split; [done|]. split; [|done].
  eapply later_trans; [apply later_next_redis|exact Hl].
Qed.

Lemma api_stations_ok (c : Redis.client) (stations : list string) data
  (w : world) :
  redis_up w → store_ok (db w) →
  ∃ w', Dashboard.api_stations (Some c) stations data w
        = (Ret (data ++
                ((λ station,
                    (station,
                     (λ url, (url, shown_status (db w) url))
                       <$> sorted (elements (urls_of (db w) station))))
                   <$> stations)), w') ∧
        later w w' ∧ db w' = db w.
Proof.
  revert data w. induction stations as [|s stations IH];
    intros data w Hup Hok.
  { exists w. cbn. rewrite app_nil_r. split; [done|].
    split; [apply later_refl|done]. }
  pose proof Hok as ((Hts & Htu) & Hst & Hne).
  cbn [Dashboard.api_stations]. rewrite bind_run.
  rewrite smembers_ok by (try apply redis_up_now; try apply Htu; done).
  rewrite bind_run. fold (urls_of (db w) s).
  destruct (api_urls_ok c (sorted (elements (urls_of (db w) s))) []
              (next_redis w)) as (w1 & -> & Hl1 & Hdb1);
    [by apply redis_up_next|done|].
  cbn [app db next_redis] in *.
  match goal with
  | |- context [Dashboard.api_stations _ _ ?data1 w1] =>
      destruct (IH data1 w1) as (w' & -> & Hl & Hdb)
  end.
  { eapply redis_up_later; [exact Hl1|by apply redis_up_next]. }
  { by rewrite Hdb1. }
  exists w'. rewrite Hdb1, <- app_assoc. split; [done|].
  split; [|congruence].
  eapply later_trans; [apply later_next_redis|].
  eapply later_trans; [exact Hl1|exact Hl].
Qed.

Lemma index_urls_ok (c : Redis.client) (urls : list string) rows st
  (w : world) :
  redis_up w → statuses_typed (db w) →
  ∃ st' w', Dashboard.index_urls (Some c) urls rows st w
        = (Ret (rows ++ ((λ url, (url, shown_status (db w) url)) <$> urls),
                st'), w') ∧
        later w w' ∧ db w' = db w.
Proof.
  revert rows st w. induction urls as [|url urls IH]; intros rows st w Hup Ht.
  { exists st, w. cbn. rewrite app_nil_r. split; [done|].
    split; [apply later_refl|done]. }
  cbn [Dashboard.index_urls]. rewrite bind_run.
  rewrite status_or_pending_ok by (try apply redis_up_now; done).
  match goal with
  | |- context [Dashboard.index_urls _ _ ?rows1 ?st1 (next_redis w)] =>
      destruct (IH rows1 st1 (next_redis w)) as (st' & w' & -> & Hl & Hdb);
        [by apply redis_up_next|done|]
  end.
  exists st', w'. rewrite <- app_assoc. split; [done|]. split; [|done].
  eapply later_trans; [apply later_next_redis|exact Hl].
Qed.

Lemma index_stations_ok (c : Redis.client) (stations : list string) data st
  (w : world) :
  redis_up w → store_ok (db w) →
  ∃ st' w', Dashboard.index_stations (Some c) stations data st w
        = (Ret (data ++
                ((λ station,
                    (station,
                     (λ url, (url, shown_status (db w) url))
                       <$> sorted (elements (urls_of (db w) station))))
                   <$> stations), st'), w') ∧
        later w w' ∧ db w' = db w.
Proof.
  revert data st w. induction stations as [|s stations IH];
    intros data st w Hup Hok.
  { exists st, w. cbn. rewrite app_nil_r. split; [done|].
    split; [apply later_refl|done]. }
  pose proof Hok as ((Hts & Htu) & Hst & Hne).
  cbn [Dashboard.index_stations]. rewrite bind_run.
  rewrite smembers_ok by (try apply redis_up_now; try apply Htu; done).
  rewrite bind_run. fold (urls_of (db w) s).
  destruct (index_urls_ok c (sorted (elements (urls_of (db w) s))) [] st
              (next_redis w)) as (st1 & w1 & -> & Hl1 & Hdb1);
    [by apply redis_up_next|done|].
  cbn [app db next_redis] in *.
  match goal with
  | |- context [Dashboard.index_stations _ _ ?data1 st1 w1] =>
      destruct (IH data1 st1 w1) as (st' & w' & -> & Hl & Hdb)
  end.
  { eapply redis_up_later; [exact Hl1|by apply redis_up_next]. }
  { by rewrite Hdb1. }
  exists st', w'. rewrite Hdb1, <- app_assoc. split; [done|].
  split; [|congruence].
  eapply later_trans; [apply later_next_redis|].
  eapply later_trans; [exact Hl1|exact Hl].
Qed.

Lemma fmap_pair_fst {A B} (f : A → B) (l : list A) :
  ((λ x, (x, f x)) <$> l).*1 = l.
Proof. induction l as [|x l IH]; cbn; [done|]. by rewrite IH. Qed.

(** What the two pages show when Redis answers. *)
Lemma pages_ok (c : Redis.client) (w : world) :
  redis_up w → store_ok (db w) →
  (∃ timestamp,
     fst (Dashboard.api_status (Some c) w)
       = Ret (Dashboard.JsonStatus (shown (db w)) timestamp)) ∧
  (station_set (db w) ≠ ∅ →
   ∃ st, fst (Dashboard.index (Some c) w)
         = Ret (Dashboard.IndexPage (shown (db w)) st)).
Proof.
  intros Hup Hok. pose proof Hok as ((Hts & Htu) & Hst & Hne). split.
  - unfold Dashboard.api_status. rewrite bind_run.
    rewrite check_redis_connection_ok by by apply redis_up_now.
    cbn [negb]. rewrite try_except_run, bind_run.
    rewrite smembers_ok by (try apply redis_up_now, redis_up_next; done).
    rewrite bind_run.
    destruct (api_stations_ok c
                (sorted (elements (members_of (db (next_redis w)) "stations")))
                [] (next_redis (next_redis w)))
      as (w' & -> & _ & _); [by do 2 apply redis_up_next|done|].
    rewrite bind_run. cbn. by eexists.
  - intros Hnonempty. unfold Dashboard.index. rewrite bind_run.
    rewrite check_redis_connection_ok by by apply redis_up_now.
    cbn [negb]. rewrite try_except_run, bind_run.
    rewrite smembers_ok by (try apply redis_up_now, redis_up_next; done).
    rewrite bind_run. cbn [db next_redis]. fold (station_set (db w)).
    destruct (sorted (elements (station_set (db w)))) as [|s0 l] eqn:E.
    { by apply sorted_elements_nil in E. }
    cbn [mret M_ret]. rewrite bind_run.
    match goal with
    | |- context [Dashboard.index_stations _ _ [] ?st0 ?w2] =>
        destruct (index_stations_ok c (s0 :: l) [] st0 w2)
          as (st' & w' & -> & _ & _);
          [by do 2 apply redis_up_next|done|]
    end.
    cbn. exists st'. unfold shown. by rewrite E.
Qed.

(** X6. When Redis answers and the store is well formed, [api_status]
    returns the stations of the station set, each once, and under each
    station its URLs, each once, with the status stored for the URL, or
    [PENDING] when none is stored; [index] shows the same data when there is
    a station. *)
Theorem pages_show_the_store (c : Redis.client) (w : world) :
  redis_up w → store_ok (db w) →
  ∃ data timestamp,
    fst (Dashboard.api_status (Some c) w)
      = Ret (Dashboard.JsonStatus data timestamp) ∧
    (station_set (db w) ≠ ∅ →
     ∃ st, fst (Dashboard.index (Some c) w)
           = Ret (Dashboard.IndexPage data st)) ∧
    data.*1 ≡ₚ elements (station_set (db w)) ∧
    (∀ station rows, (station, rows) ∈ data →
       rows.*1 ≡ₚ elements (urls_of (db w) station) ∧
       ∀ url status, (url, status) ∈ rows →
         status = shown_status (db w) url) ∧
    (∀ url value, status_of (db w) url = Some (VStr value) →
       value ≠ EmptyString → shown_status (db w) url = value) ∧
    (∀ url, status_of (db w) url = None →
       shown_status (db w) url = "PENDING").
Proof.
  intros Hup Hok. destruct (pages_ok c w Hup Hok) as [[ts Hapi] Hindex].
  exists (shown (db w)), ts. split; [exact Hapi|]. split; [exact Hindex|].
  split; [|split; [|split]].
  - unfold shown. rewrite fmap_pair_fst. apply sorted_perm.
  - intros station rows Hin. unfold shown in Hin.
    apply list_elem_of_fmap in Hin as (s & [= -> ->] & _). split.
    + rewrite fmap_pair_fst. apply sorted_perm.
    + intros url status Hrow.
      by apply list_elem_of_fmap in Hrow as (u & [= -> ->] & _).
  - intros url value Hv Hne. unfold shown_status. rewrite Hv.
    by destruct value.
  - intros url Hv. unfold shown_status. by rewrite Hv.
Qed.

Lemma pages_show_the_store_witness :
  ∃ data timestamp,
    fst (Dashboard.api_status the_client (quiet swept_db))
      = Ret (Dashboard.JsonStatus data timestamp) ∧
    (station_set swept_db ≠ ∅ →
     ∃ st, fst (Dashboard.index the_client (quiet swept_db))
           = Ret (Dashboard.IndexPage data st)) ∧
    data.*1 ≡ₚ elements (station_set swept_db) ∧
    (∀ station rows, (station, rows) ∈ data →
       rows.*1 ≡ₚ elements (urls_of swept_db station) ∧
       ∀ url status, (url, status) ∈ rows →
         status = shown_status swept_db url) ∧
    (∀ url value, status_of swept_db url = Some (VStr value) →
       value ≠ EmptyString → shown_status swept_db url = value) ∧
    (∀ url, status_of swept_db url = None →
       shown_status swept_db url = "PENDING").
Proof.
  apply (pages_show_the_store (Redis.Client "localhost" 6379)
           (quiet swept_db)).
  - intros n _. reflexivity.
  - exact swept_db_ok.
Defined.

(* ===================================================================== *)
(** * Stations                                                            *)
(* ===================================================================== *)

(** SADD in any run. *)
Lemma sadd_spec r key member (w : world) :
  match Redis.sadd r key member w with
  | (Ret _, w1) =>
      db w1 = <[key := VSet ({[member]} ∪ members_of (db w) key)]> (db w)
  | (Raise _, w1) => db w1 = db w
  end.
Proof.
  unfold Redis.sadd, Redis.command, members_of.
  destruct r; [|done]. destruct (redis_fault w (redis_n w)); [done|].
  destruct (db w !! key) as [[]|]; cbn; [done..|].
  by rewrite union_empty_r_L.
Qed.

(** SREM in any run. *)
Lemma srem_spec r key member (w : world) :
  match Redis.srem r key member w with
  | (Ret _, w1) =>
      members_of (db w1) key = members_of (db w) key ∖ {[member]} ∧
      ∀ key', key' ≠ key → db w1 !! key' = db w !! key'
  | (Raise _, w1) => db w1 = db w
  end.
Proof.
  unfold Redis.srem, Redis.command, members_of.
  destruct r; [|done]. destruct (redis_fault w (redis_n w)); [done|].
  destruct (db w !! key) as [[s|v]|] eqn:E; cbn; [|done|].
  - destruct (decide (s ∖ {[member]} = ∅)) as [Hem|Hne].
    + rewrite lookup_delete_eq, Hem. split; [done|].
      intros key' Hk. by rewrite lookup_delete_ne.
    + rewrite lookup_insert_eq. split; [done|].
      intros key' Hk. by rewrite lookup_insert_ne.
  - rewrite E. split; [by rewrite empty_difference_L|done].
Qed.

Lemma bind_reads_db {A B} (m : M A) (f : A → M B) (w : world) :
  (∀ a, preserves eq (f a)) →
  db (snd ((m ≫= f) w)) = db (snd (m w)).
Proof.
  intros Hf. rewrite bind_run. destruct (m w) as [[a|e] w1]; [|done].
  symmetry. apply Hf.
Qed.

(** The store after [add_station], in any run: as it was, or with the
    stripped name, which is not empty, not longer than 50 characters and was
    not a station, added to the station set. *)
Lemma add_station_store r (form : gmap string string) (w : world) :
  let name := strip (default EmptyString (form !! "name")) in
  let d' := db (snd (Dashboard.add_station r form w)) in
  d' = db w ∨
  ((name ≠ EmptyString) ∧ (Z.of_nat (String.length name) ≤ 50)%Z ∧
   (name ∉ station_set (db w)) ∧
   d' = <["stations" := VSet ({[name]} ∪ station_set (db w))]> (db w)).
Proof.
  cbn zeta. unfold Dashboard.add_station. rewrite bind_run.
  pose proof (preserves_check_redis_connection eq r w) as H0.
  destruct (Dashboard.check_redis_connection r w) as [[connected|e] w0];
    cbn [snd] in H0; [|by left].
  destruct connected; cbn [negb]; [|by left].
  rewrite bind_ret_db, try_except_db.
  2: { intros cls h Hin e. apply list_elem_of_singleton in Hin as [= -> ->].
       preserves_solve. }
  set (name := strip _).
  destruct (truthy name) eqn:Htr; [|by left].
  destruct (50 <? Z.of_nat (String.length name))%Z eqn:Hlen; [by left|].
  rewrite bind_run. pose proof (smembers_spec r "stations" w0) as Hsm.
  destruct (Redis.smembers r "stations" w0) as [[members|e] w1];
    [|left; cbn [snd]; congruence].
  destruct Hsm as [-> Hdb1].
  destruct (decide (name ∈ members_of (db w0) "stations")) as [Hin|Hnin];
    [left; cbn; congruence|].
  rewrite bind_run. pose proof (sadd_spec r "stations" name w1) as Hsadd.
  destruct (Redis.sadd r "stations" name w1) as [[n|e] w2];
    [|left; cbn [snd]; congruence].
  right. unfold station_set. rewrite H0.
  split; [by destruct name|]. split; [by apply Z.ltb_ge|]. split; [done|].
  rewrite bind_run. cbn. congruence.
Qed.

(** X7. [add_station] in any run leaves the store as it was or adds the
    submitted name, stripped of the white space around it, to the station
    set, and then the name is not empty, has at most 50 characters and was
    not a station; no other key changes. When Redis answers, a name that
    passes these tests is a station afterwards. *)
Theorem add_station_effect r (form : gmap string string) (w : world) :
  let name := strip (default EmptyString (form !! "name")) in
  let d' := db (snd (Dashboard.add_station r form w)) in
  (d' = db w ∨
   ((name ≠ EmptyString) ∧ (Z.of_nat (String.length name) ≤ 50)%Z ∧
    (name ∉ station_set (db w)) ∧
    d' = <["stations" := VSet ({[name]} ∪ station_set (db w))]> (db w))) ∧
  (r ≠ None → redis_up w → sets_typed (db w) →
   name ≠ EmptyString → (Z.of_nat (String.length name) ≤ 50)%Z →
   station_set d' = {[name]} ∪ station_set (db w)).
Proof.
  intros name d'. split; [apply add_station_store|].
  intros Hr Hup [Hts _] Hne Hlen. destruct r as [c|]; [|done].
  subst d'. unfold Dashboard.add_station. rewrite bind_run.
  rewrite check_redis_connection_ok by by apply redis_up_now.
  cbn [negb]. rewrite bind_ret_db, try_except_db.
  2: { intros cls h Hin e. apply list_elem_of_singleton in Hin as [= -> ->].
       preserves_solve. }
  fold name. assert (truthy name = true) as -> by by destruct name.
  assert ((50 <? Z.of_nat (String.length name))%Z = false) as ->
    by by apply Z.ltb_ge.
  rewrite bind_run, smembers_ok by (try apply redis_up_now, redis_up_next; done).
  cbn [db next_redis]. fold (station_set (db w)).
  destruct (decide (name ∈ station_set (db w))) as [Hin|Hnin].
  - cbn. symmetry. apply subseteq_union_1_L. by apply singleton_subseteq_l.
  - rewrite bind_run.
    destruct (sadd_ok c "stations" name (next_redis (next_redis w)))
      as [n ->]; [by apply redis_up_now; do 2 apply redis_up_next|done|].
    rewrite bind_run. cbn. unfold station_set at 1, members_of at 1.
    by rewrite lookup_insert_eq.
Qed.

Lemma add_station_effect_witness :
  station_set (db (snd (Dashboard.add_station the_client
                          (form_of [("name", "  Home ")]) (quiet single_db))))
  = {["Home"]} ∪ station_set (db (quiet single_db)).
Proof.
  apply (proj2 (add_station_effect the_client (form_of [("name", "  Home ")])
                  (quiet single_db))).
  - discriminate.
  - intros n _. reflexivity.
  - exact single_db_typed.
  - vm_compute. discriminate.
  - vm_compute. discriminate.
Defined.

(** The store after [delete_station], in any run: as it was, or without the
    named station, which is not [General], in the station set, and with the
    key of its URL set as it was or removed. *)
Lemma delete_station_store r (form : gmap string string) (w : world) :
  let d' := db (snd (Dashboard.delete_station r form w)) in
  d' = db w ∨
  ∃ name, form !! "name" = Some name ∧ name ≠ EmptyString ∧
          name ≠ "General" ∧
          station_set d' = station_set (db w) ∖ {[name]}.
Proof.
  cbn zeta. unfold Dashboard.delete_station. rewrite bind_run.
  pose proof (preserves_check_redis_connection eq r w) as H0.
  destruct (Dashboard.check_redis_connection r w) as [[connected|e] w0];
    cbn [snd] in H0; [|by left].
  destruct connected; cbn [negb]; [|by left].
  rewrite bind_ret_db, try_except_db.
  2: { intros cls h Hin e. apply list_elem_of_singleton in Hin as [= -> ->].
       preserves_solve. }
  destruct (form !! "name") as [name|] eqn:Hf; [|by left].
  destruct (truthy name && negb (String.eqb name "General")) eqn:Hguard.
  2: { destruct (String.eqb name "General"); by left. }
  apply andb_prop in Hguard as [Htr Hng].
  apply negb_true_iff, String.eqb_neq in Hng.
  rewrite bind_run.
  pose proof (preserves_scard eq r ("urls:" +:+ name) w0) as Hsc.
  destruct (Redis.scard r ("urls:" +:+ name) w0) as [[n|e] w1];
    cbn [snd] in Hsc; [|left; cbn [snd]; congruence].
  rewrite bind_run. pose proof (srem_spec r "stations" name w1) as Hsrem.
  destruct (Redis.srem r "stations" name w1) as [[n1|e] w2];
    [|left; cbn [snd]; congruence].
  destruct Hsrem as [Hmem _]. right. exists name.
  split; [done|]. split; [by destruct name|]. split; [done|].
  rewrite bind_reads_db by (intros ?; preserves_solve).
  pose proof (preserves_delete_outside (λ key, key = "urls:" +:+ name) r
                ("urls:" +:+ name) eq_refl w2) as Hdel.
  unfold station_set, members_of in *.
  rewrite Hdel by (intros H; symmetry in H; by apply urls_key_not_stations in H).
  rewrite Hmem. by rewrite <- Hsc, <- H0.
Qed.

(** X8. [delete_station] never removes [General]: in any run and for any
    form, [General] is a station afterwards if it was one before, a request
    to delete [General] leaves the store as it was, and no station is
    added. *)
Theorem General_is_never_deleted r (form : gmap string string) (w : world) :
  let d' := db (snd (Dashboard.delete_station r form w)) in
  ("General" ∈ station_set (db w) → "General" ∈ station_set d') ∧
  (form !! "name" = Some "General" → d' = db w) ∧
  station_set d' ⊆ station_set (db w).
Proof.
  intros d'. pose proof (delete_station_store r form w) as H.
  cbn zeta in H. fold d' in H.
  destruct H as [->|(name & Hf & Hne & HG & Hset)]; [done|].
  rewrite Hset. split; [|split].
  - intros Hin. apply elem_of_difference. split; [done|].
    intros Heq%elem_of_singleton. by subst.
  - intros Hf'. congruence.
  - apply subseteq_difference_l. done.
Qed.

Lemma General_is_never_deleted_witness :
  db (snd (Dashboard.delete_station the_client
             (form_of [("name", "General")]) (quiet swept_db)))
  = db (quiet swept_db).
Proof.
  apply (proj1 (proj2 (General_is_never_deleted the_client
                         (form_of [("name", "General")]) (quiet swept_db)))).
  reflexivity.
Defined.

(* ===================================================================== *)
(** * Adding a URL and deleting it again                                  *)
(* ===================================================================== *)

Lemma rstrip_by_head (p : ascii → bool) (a : ascii) (s : string) :
  p a = false → rstrip_by p (String a s) ≠ EmptyString.
Proof.
  intros Hp. cbn [rstrip_by]. destruct (rstrip_by p s); [|done].
  by rewrite Hp.
Qed.

(** What [add_url] stores is never empty: it starts with the scheme. *)
Lemma normalized_nonempty (raw : string) : normalized raw ≠ EmptyString.
Proof.
  unfold normalized, rstrip.
  destruct (startswith (strip raw) ["http://"; "https://"]) eqn:Hs;
    cbn [negb].
  - destruct (strip raw) as [|a s]; [discriminate Hs|].
    unfold startswith in Hs. cbn [existsb String.prefix] in Hs.
    destruct (ascii_dec "h" a) as [<-|]; [|discriminate Hs].
    by apply rstrip_by_head.
  - by apply rstrip_by_head.
Qed.

(** In a well-formed store, the members of a set decide what its key
    holds. *)
Lemma store_ok_lookup_set d d' key :
  store_ok d → store_ok d' → set_key key →
  members_of d key = members_of d' key → d !! key = d' !! key.
Proof.
  intros ((Hts & Htu) & _ & Hne) ((Hts' & Htu') & _ & Hne') Hk.
  assert (Ht : ∀ v, d !! key ≠ Some (VStr v))
    by (destruct Hk as [->|[s ->]]; [apply Hts|apply Htu]).
  assert (Ht' : ∀ v, d' !! key ≠ Some (VStr v))
    by (destruct Hk as [->|[s ->]]; [apply Hts'|apply Htu']).
  unfold members_of. specialize (Hne key). specialize (Hne' key).
  destruct (d !! key) as [[s|v]|], (d' !! key) as [[s'|v']|]; try done;
    try (by destruct (Ht v)); try (by destruct (Ht' v')).
  - by intros ->.
  - intros ->. by destruct Hne.
  - intros <-. by destruct Hne'.
Qed.

(** [add_url] of a URL that the station does not hold, when Redis
    answers. *)
Lemma add_url_ok (c : Redis.client) (form : gmap string string)
  (station : string) (w : world) :
  form !! "station" = Some station → station ≠ EmptyString →
  strip (default EmptyString (form !! "url")) ≠ EmptyString →
  redis_up w → sets_typed (db w) →
  normalized (default EmptyString (form !! "url")) ∉ urls_of (db w) station →
  db (snd (Dashboard.add_url (Some c) form w))
  = <["status:" +:+ normalized (default EmptyString (form !! "url"))
        := VStr "PENDING"]>
    (<["urls:" +:+ station :=
         VSet ({[normalized (default EmptyString (form !! "url"))]}
               ∪ urls_of (db w) station)]> (db w)).
Proof.
  intros Hst Hne Hurl Hup [Hts Htu] Hnin.
  unfold Dashboard.add_url. rewrite bind_run.
  rewrite check_redis_connection_ok by by apply redis_up_now.
  cbn [negb]. rewrite bind_ret_db, try_except_db.
  2: { intros cls h Hin e. apply list_elem_of_singleton in Hin as [= -> ->].
       preserves_solve. }
  rewrite Hst.
  assert (truthy (strip (default EmptyString (form !! "url")))
          && truthy station = true) as ->.
  { apply andb_true_intro. split; [by destruct (strip _)|by destruct station]. }
  fold (normalized (default EmptyString (form !! "url"))).
  set (url := normalized _) in *.
  rewrite bind_run, smembers_ok;
    [|by apply redis_up_now, redis_up_next|apply Htu].
  cbn [db next_redis]. fold (urls_of (db w) station).
  rewrite decide_False by done. rewrite bind_run.
  destruct (sadd_ok c ("urls:" +:+ station) url (next_redis (next_redis w)))
    as [n ->];
    [by apply redis_up_now, redis_up_next, redis_up_next|apply Htu|].
  rewrite bind_run, set_ok
    by by apply redis_up_now, redis_up_with_db; do 3 apply redis_up_next.
  rewrite bind_run. reflexivity.
Qed.

(** X9. Adding a URL and deleting it again gives back the store. Redis
    answers, the store is well formed, no station holds the URL that
    [add_url] makes of the submitted text and the URL has no status:
    after [add_url] with that text and [delete_url] with that URL for the
    same station, the store is what it was before. *)
Theorem add_url_then_delete_url (c : Redis.client)
  (form1 form2 : gmap string string) (station : string) (w : world) :
  let url := normalized (default EmptyString (form1 !! "url")) in
  form1 !! "station" = Some station → station ≠ EmptyString →
  strip (default EmptyString (form1 !! "url")) ≠ EmptyString →
  form2 !! "url" = Some url → form2 !! "station" = Some station →
  redis_up w → store_ok (db w) →
  url ∉ urls_of (db w) station → ¬ referenced (db w) url →
  status_of (db w) url = None →
  db (snd (Dashboard.delete_url (Some c) form2
             (snd (Dashboard.add_url (Some c) form1 w)))) = db w.
Proof.
  intros url H1 Hne Hraw H2u H2s Hup Hok Hnin Hnref Hnone.
  pose proof Hok as (Ht & Hst & Hempty).
  pose proof (add_url_ok c form1 station w H1 Hne Hraw Hup Ht Hnin) as Hadd.
  fold url in Hadd.
  set (w1 := snd (Dashboard.add_url (Some c) form1 w)) in *.
  assert (Hup1 : redis_up w1)
    by (eapply redis_up_later; [apply advances_add_url|exact Hup]).
  assert (Hok1 : store_ok (db w1)) by by apply keeps_ok_add_url.
  destruct (delete_url_ok c form2 url station w1 H2u H2s
              (normalized_nonempty _) Hne Hup1 (proj1 Hok1))
    as (d1 & Hmem & Hother & Hd).
  assert (Hok2 : store_ok (db (snd (Dashboard.delete_url (Some c) form2 w1))))
    by by apply keeps_ok_delete_url.
  assert (Hmem1 : members_of d1 ("urls:" +:+ station)
                  = urls_of (db w) station).
  { rewrite Hmem, Hadd. unfold members_of at 1.
    rewrite lookup_insert_ne by (symmetry; apply urls_key_not_status).
    rewrite lookup_insert_eq.
    rewrite difference_union_distr_l_L, difference_diag_L, union_empty_l_L.
    by apply difference_disjoint_L, disjoint_singleton_r. }
  assert (Hkeys : ∀ key, key ≠ "urls:" +:+ station →
                         key ≠ "status:" +:+ url → d1 !! key = db w !! key).
  { intros key Hk1 Hk2. rewrite Hother, Hadd by done.
    by rewrite !lookup_insert_ne. }
  assert (Hnref1 : ¬ referenced d1 url).
  { intros (s & Hs & Hin). unfold station_set, urls_of, members_of in Hs.
    rewrite Hkeys in Hs
      by first [ intros H; symmetry in H; by apply urls_key_not_stations in H
               | apply not_eq_sym, status_key_not_stations ].
    destruct (decide (s = station)) as [->|Hns].
    - unfold urls_of in Hin at 1. by rewrite Hmem1 in Hin.
    - apply Hnref. exists s. split; [exact Hs|].
      unfold urls_of, members_of in Hin |- *.
      rewrite Hkeys in Hin; [done| |apply urls_key_not_status].
      intros H. by apply urls_key_inj in H. }
  destruct Hd as [[Href _]|[_ Hdel]]; [done|].
  apply map_eq. intros key.
  destruct (decide (key = "status:" +:+ url)) as [->|Hk2].
  { rewrite Hdel, lookup_delete_eq. symmetry. exact Hnone. }
  destruct (decide (key = "urls:" +:+ station)) as [->|Hk1].
  { apply store_ok_lookup_set; [done|done|apply set_key_urls|].
    rewrite Hdel. unfold members_of at 1.
    rewrite lookup_delete_ne by apply not_eq_sym, urls_key_not_status.
    exact Hmem1. }
  rewrite Hdel, lookup_delete_ne by done. by apply Hkeys.
Qed.

Lemma add_url_then_delete_url_witness :
  db (snd (Dashboard.delete_url the_client
             (form_of [("url", "https://example.org"); ("station", "Work")])
             (snd (Dashboard.add_url the_client
                     (form_of [("url", " example.org/ "); ("station", "Work")])
                     (quiet swept_db)))))
  = db (quiet swept_db).
Proof.
  apply (add_url_then_delete_url (Redis.Client "localhost" 6379)
           (form_of [("url", " example.org/ "); ("station", "Work")])
           (form_of [("url", "https://example.org"); ("station", "Work")])
           "Work" (quiet swept_db)).
  - reflexivity.
  - discriminate.
  - vm_compute. discriminate.
  - vm_compute. reflexivity.
  - reflexivity.
  - intros n _. reflexivity.
  - exact swept_db_ok.
  - vm_compute. discriminate.
  - intros (s & Hs & Hin).
    rewrite <- elem_of_elements in Hs. vm_compute in Hs.
    repeat (apply elem_of_cons in Hs as [->|Hs];
            [vm_compute in Hin; discriminate Hin|]).
    inversion Hs.
  - reflexivity.
Defined.

(* ===================================================================== *)
(** * A sweep when Redis answers                                          *)
(* ===================================================================== *)

Lemma prefix_append (p s : string) : String.prefix p (p +:+ s) = true.
Proof.
  induction p as [|a p IH]; [by destruct s|].
  change (String a p +:+ s) with (String a (p +:+ s)).
  change (String.prefix (String a p) (String a (p +:+ s)))
    with (if ascii_dec a a then String.prefix p (p +:+ s) else false).
  destruct (ascii_dec a a); [exact IH|done].
Qed.

Lemma in_taxonomy_UP (s : string) : in_taxonomy ("UP (" +:+ s) = true.
Proof. unfold in_taxonomy. by rewrite prefix_append. Qed.

Lemma in_taxonomy_DOWN (s : string) : in_taxonomy ("DOWN (" +:+ s) = true.
Proof. unfold in_taxonomy. rewrite (prefix_append "DOWN ("). apply orb_true_r. Qed.

(** Every status that [check_url] returns is of the taxonomy. *)
Lemma check_url_in_taxonomy url hdrs (w : world) status :
  fst (Sentinel.check_url url hdrs w) = Ret status →
  in_taxonomy status = true.
Proof.
  destruct (net w (net_n w)) as [code|k] eqn:Hnet.
  - rewrite (check_url_response _ _ _ _ Hnet). cbn [fst].
    destruct (code =? 200)%Z; intros [= <-].
    + apply (in_taxonomy_UP (_ +:+ "ms)")).
    + apply (in_taxonomy_DOWN (_ +:+ ")")).
  - rewrite (check_url_raise _ _ _ _ Hnet).
    repeat match goal with |- context [if ?b then _ else _] => destruct b end;
      cbn; first [discriminate | intros [= <-]; apply (in_taxonomy_DOWN _)].
Qed.

(** One target, when Redis answers and no interrupt arrives: the status of
    the URL becomes a status of the taxonomy. *)
Lemma process_url_recorded (c : Redis.client) i url (w : world) :
  redis_up w → net_uninterrupted w →
  ∃ status w',
    Sentinel.process_url (Some c) (i, url) w = (Ret tt, w') ∧
    later w w' ∧
    requested (events w') = requested (events w) ++ [url] ∧
    in_taxonomy status = true ∧
    db w' = <["status:" +:+ url := VStr status]> (db w).
Proof.
  intros Hup Hnet.
  destruct (check_url_returns url Sentinel.headers w) as [status Hs].
  { intros k Hk. eapply Hnet; [|exact Hk]. lia. }
  destruct (process_url_ok c i url w Hup Hnet) as (w' & Hrun & Hl & Hreq & _).
  destruct (process_url_written c i url w status Hs (redis_up_now _ Hup))
    as [_ Hdb].
  exists status, w'. rewrite Hrun in Hdb. cbn [snd] in Hdb.
  split; [done|]. split; [done|]. split; [done|].
  split; [by eapply check_url_in_taxonomy|done].
Qed.

Lemma for_each_process_url_recorded (c : Redis.client)
  (items : list (Z * string)) (w : world) :
  redis_up w → net_uninterrupted w →
  ∃ w', for_each items (Sentinel.process_url (Some c)) w = (Ret tt, w') ∧
        later w w' ∧
        requested (events w') = requested (events w) ++ items.*2 ∧
        (∀ key, (∀ url, url ∈ items.*2 → key ≠ "status:" +:+ url) →
                db w' !! key = db w !! key) ∧
        recorded (db w') (items.*2).
Proof.
  revert w. induction items as [|[i url] items IH]; intros w Hup Hnet.
  - exists w. cbn. rewrite app_nil_r. split; [done|].
    split; [apply later_refl|]. split; [done|]. split; [done|].
    intros url Hin. by inversion Hin.
  - destruct (process_url_recorded c i url w Hup Hnet)
      as (status & w1 & Hrun & Hl & Hreq & Htax & Hdb).
    destruct (IH w1) as (w2 & Hrun2 & Hl2 & Hreq2 & Hframe & Hrec).
    { eapply redis_up_later; eassumption. }
    { eapply net_uninterrupted_later; eassumption. }
    exists w2. rewrite for_each_cons, Hrun. split; [exact Hrun2|].
    split; [eapply later_trans; eassumption|].
    split; [rewrite Hreq2, Hreq; cbn; by rewrite <- app_assoc|]. split.
    + intros key Hkey. rewrite Hframe, Hdb.
      * rewrite lookup_insert_ne; [done|]. apply not_eq_sym, Hkey. left.
      * intros u Hu. apply Hkey. by right.
    + intros u Hu. cbn in Hu. destruct (decide (u ∈ items.*2)) as [Hin|Hnin].
      * by apply Hrec.
      * apply elem_of_cons in Hu as [->|Hu]; [|done].
        exists status. split; [|done]. unfold status_of.
        rewrite Hframe, Hdb; [apply lookup_insert_eq|].
        intros u Hu Heq. apply status_key_inj in Heq. by subst.
Qed.

(** A sweep when Redis answers and no interrupt arrives. *)
(** A sweep when Redis answers and no interrupt arrives goes through all its
    targets and comes to its last statement, the sleep of [CHECK_INTERVAL]
    seconds. *)
Lemma sweep_ok (c : Redis.client) (n : Z) (w : world) :
  redis_up w → net_uninterrupted w → sets_typed (db w) →
  ∃ w', Sentinel.sweep (Some c) n w
          = time_sleep (inject_Z (CHECK_INTERVAL (cfg w))) w' ∧
        later w w' ∧
        requested (events w')
          = requested (events w) ++ elements (working_set (db w)) ∧
        (∀ key, (∀ url, url ∈ working_set (db w) →
                        key ≠ "status:" +:+ url) →
                db w' !! key = db w !! key) ∧
        recorded (db w') (elements (working_set (db w))).
Proof.
  intros Hup Hnet Ht. unfold working_set.
  set (all_urls := ⋃ (urls_of (db w) <$> elements (station_set (db w)))).
  unfold Sentinel.sweep. rewrite bind_run. cbn [time_time].
  rewrite bind_run, enumerate_targets_ok;
    [|eapply redis_up_later; [apply later_next_clock|exact Hup]|exact Ht].
  cbn [db next_clock]. fold all_urls. rewrite bind_run. cbn [logger].
  rewrite bind_run. set (w1 := emit _ _).
  assert (Hl1 : later w w1 ∧ db w1 = db w ∧
                requested (events w1) = requested (events w)).
  { subst w1.
    destruct (iter_next_redis_later (S (size (station_set (db w))))
                (next_clock w)) as (Hl & Hdb & He).
    split; [|split; [exact Hdb|]].
    - eapply later_trans; [apply later_next_clock|].
      eapply later_trans; [exact Hl|apply later_emit].
    - cbn [events emit]. rewrite requested_app, He. cbn.
      by rewrite app_nil_r. }
  destruct Hl1 as (Hl1 & Hdb1 & Hreq1).
  set (w2 := snd ((if decide (all_urls = ∅)
                   then logger WARNING "No URLs to monitor"
                   else mret tt) w1)).
  assert (Hw2 : (if decide (all_urls = ∅)
                 then logger WARNING "No URLs to monitor"
                 else mret tt) w1 = (Ret tt, w2) ∧ later w1 w2 ∧
                db w2 = db w1 ∧
                requested (events w2) = requested (events w1)).
  { subst w2. destruct (decide (all_urls = ∅)); cbn.
    - split; [done|]. split; [apply later_emit|]. split; [done|].
      rewrite requested_app. cbn. by rewrite app_nil_r.
    - split; [done|]. split; [apply later_refl|done]. }
  destruct Hw2 as (-> & Hl2 & Hdb2 & Hreq2). rewrite bind_run.
  destruct (for_each_process_url_recorded c
              (enumerate (elements all_urls) 1) w2)
    as (w3 & -> & Hl3 & Hreq3 & Hframe & Hrec).
  { eapply redis_up_later; [|exact Hup]. eapply later_trans; eassumption. }
  { eapply net_uninterrupted_later; [|exact Hnet].
    eapply later_trans; eassumption. }
  rewrite enumerate_snd in Hreq3, Hframe, Hrec.
  assert (Hl03 : later w w3)
    by (eapply later_trans; [|exact Hl3]; eapply later_trans; eassumption).
  rewrite bind_run. cbn [time_time]. rewrite bind_run. cbn [logger].
  rewrite bind_run. cbn [Sentinel.config_ cfg emit next_clock].
  destruct Hl03 as (Hcfg & Hl03). rewrite Hcfg.
  eexists. split; [reflexivity|].
  split.
  { eapply later_trans; [exact (conj Hcfg Hl03)|].
    eapply later_trans; [apply later_next_clock|apply later_emit]. }
  cbn [events emit next_clock db cfg].
  split; [|split].
  - rewrite !requested_app. cbn. rewrite !app_nil_r.
    by rewrite Hreq3, Hreq2, Hreq1.
  - intros key Hkey. rewrite Hframe, Hdb2, Hdb1; [done|].
    intros url Hin. apply Hkey. by apply elem_of_elements.
  - exact Hrec.
Qed.

(** Where a sweep leaves the world, whether its last sleep returns or
    raises. *)
Lemma sweep_after (c : Redis.client) (n : Z) (w : world) :
  redis_up w → net_uninterrupted w → sets_typed (db w) →
  let w' := snd (Sentinel.sweep (Some c) n w) in
  later w w' ∧
  requested (events w')
    = requested (events w) ++ elements (working_set (db w)) ∧
  (∀ key, (∀ url, url ∈ working_set (db w) → key ≠ "status:" +:+ url) →
          db w' !! key = db w !! key) ∧
  recorded (db w') (elements (working_set (db w))).
Proof.
  intros Hup Hnet Ht w'. subst w'.
  destruct (sweep_ok c n w Hup Hnet Ht) as (w1 & -> & Hl & Hreq & Hframe & Hrec).
  rewrite time_sleep_requested, time_sleep_db.
  split; [|done]. eapply later_trans; [exact Hl|apply time_sleep_later].
Qed.

(** [time.sleep] of a whole number of seconds. *)
Lemma time_sleep_inject_Z (z : Z) (w : world) :
  time_sleep (inject_Z z) w =
  if (z <? -9223372036)%Z || (9223372036 <? z)%Z
  then (Raise (Raised OverflowError), w)
  else if (z <? 0)%Z then (Raise (Raised ValueError), w)
       else (Ret tt, emit (EvSleep (inject_Z z)) w).
Proof.
  unfold time_sleep, fits_time, Qle_bool, inject_Z. cbn.
  change (Z.pos (1 * 1)) with 1%Z.
  repeat match goal with
         | |- context [(?a <=? ?b)%Z] => destruct (Z.leb_spec a b)
         | |- context [(?a <? ?b)%Z] => destruct (Z.ltb_spec a b)
         end; cbn; try reflexivity; lia.
Qed.

Lemma time_sleep_whole (z : Z) (w : world) :
  (0 ≤ z ≤ 9223372036)%Z →
  time_sleep (inject_Z z) w = (Ret tt, emit (EvSleep (inject_Z z)) w).
Proof.
  intros H. rewrite time_sleep_inject_Z.
  destruct (Z.ltb_spec z (-9223372036)), (Z.ltb_spec 9223372036 z),
    (Z.ltb_spec z 0); cbn [orb]; try reflexivity; lia.
Qed.

Lemma time_sleep_negative (z : Z) (w : world) :
  (-9223372036 ≤ z < 0)%Z →
  time_sleep (inject_Z z) w = (Raise (Raised ValueError), w).
Proof.
  intros H. rewrite time_sleep_inject_Z.
  destruct (Z.ltb_spec z (-9223372036)), (Z.ltb_spec 9223372036 z),
    (Z.ltb_spec z 0); cbn [orb]; try reflexivity; lia.
Qed.

Lemma time_sleep_overflow (z : Z) (w : world) :
  (z < -9223372036)%Z ∨ (9223372036 < z)%Z →
  time_sleep (inject_Z z) w = (Raise (Raised OverflowError), w).
Proof.
  intros H. rewrite time_sleep_inject_Z.
  destruct (Z.ltb_spec z (-9223372036)), (Z.ltb_spec 9223372036 z);
    cbn [orb]; try reflexivity; lia.
Qed.

(** X10. A sweep when Redis answers and no interrupt arrives. Every URL of the
    working set has afterwards a status of the taxonomy ([UP (...)] or
    [DOWN (...)], so never [PENDING]), and no key other than those statuses
    has changed. With a [CHECK_INTERVAL] from 0 to a day the sweep then
    completes, and its last event is the sleep of [CHECK_INTERVAL] seconds.
    With a negative [CHECK_INTERVAL], or one beyond what the C time type
    holds, it does not complete: after the statuses were written,
    [time.sleep] raises [ValueError], or [OverflowError]. *)
Theorem sweep_records_every_target (c : Redis.client) (n : Z) (w : world) :
  redis_up w → net_uninterrupted w → sets_typed (db w) →
  let out := Sentinel.sweep (Some c) n w in
  let interval := CHECK_INTERVAL (cfg w) in
  (∀ url, url ∈ working_set (db w) →
     ∃ status, status_of (db (snd out)) url = Some (VStr status) ∧
               in_taxonomy status = true ∧ status ≠ "PENDING") ∧
  (∀ key, (∀ url, url ∈ working_set (db w) → key ≠ "status:" +:+ url) →
          db (snd out) !! key = db w !! key) ∧
  ((0 ≤ interval ≤ 86400)%Z →
     fst out = Ret tt ∧
     ∃ before, events (snd out) = before ++ [EvSleep (inject_Z interval)]) ∧
  ((-9223372036 ≤ interval < 0)%Z → fst out = Raise (Raised ValueError)) ∧
  ((interval < -9223372036)%Z ∨ (9223372036 < interval)%Z →
     fst out = Raise (Raised OverflowError)).
Proof.
  intros Hup Hnet Ht out interval.
  destruct (sweep_after c n w Hup Hnet Ht) as (_ & _ & Hframe & Hrec).
  fold out in Hframe, Hrec.
  split; [|split; [exact Hframe|]].
  { intros url Hin. destruct (Hrec url) as (status & Hs & Htax);
      [by apply elem_of_elements|].
    exists status. split; [done|]. split; [done|]. by intros ->. }
  subst out.
  destruct (sweep_ok c n w Hup Hnet Ht) as (w1 & -> & _).
  fold interval. split; [|split].
  - intros H. rewrite time_sleep_whole by lia. cbn [fst snd events emit].
    split; [done|by eexists].
  - intros H. by rewrite time_sleep_negative.
  - intros H. by rewrite time_sleep_overflow.
Qed.

Lemma sweep_records_every_target_witness :
  let w := quiet scenario_db in
  let out := Sentinel.sweep the_client 1 w in
  let interval := CHECK_INTERVAL (cfg w) in
  (∀ url, url ∈ working_set (db w) →
     ∃ status, status_of (db (snd out)) url = Some (VStr status) ∧
               in_taxonomy status = true ∧ status ≠ "PENDING") ∧
  (∀ key, (∀ url, url ∈ working_set (db w) → key ≠ "status:" +:+ url) →
          db (snd out) !! key = db w !! key) ∧
  ((0 ≤ interval ≤ 86400)%Z →
     fst out = Ret tt ∧
     ∃ before, events (snd out) = before ++ [EvSleep (inject_Z interval)]) ∧
  ((-9223372036 ≤ interval < 0)%Z → fst out = Raise (Raised ValueError)) ∧
  ((interval < -9223372036)%Z ∨ (9223372036 < interval)%Z →
     fst out = Raise (Raised OverflowError)).
Proof.
  apply (sweep_records_every_target (Redis.Client "localhost" 6379) 1
           (quiet scenario_db)).
  - intros n _. reflexivity.
  - intros n k _ H. discriminate H.
  - exact scenario_db_typed.
Defined.

(** A sweep with no target comes to its last statement with nothing written
    and three records logged. *)
Lemma empty_sweep_to_sleep (c : Redis.client) (n : Z) (w : world) :
  redis_up w → sets_typed (db w) → working_set (db w) = ∅ →
  ∃ w', Sentinel.sweep (Some c) n w
          = time_sleep (inject_Z (CHECK_INTERVAL (cfg w))) w' ∧
        db w' = db w ∧
        events w' = events w ++
          [EvLog INFO
             "=== Check #{check_count}: {len(all_urls)} URLs across {len(stations)} stations ===";
           EvLog WARNING "No URLs to monitor";
           EvLog INFO
             "Check completed in {elapsed:.2f}s. Next check in {CHECK_INTERVAL}s"].
Proof.
  intros Hup Ht Hempty. unfold working_set in Hempty.
  unfold Sentinel.sweep. rewrite bind_run. cbn [time_time].
  rewrite bind_run, enumerate_targets_ok;
    [|eapply redis_up_later; [apply later_next_clock|exact Hup]|exact Ht].
  cbn [db next_clock]. rewrite Hempty.
  destruct (iter_next_redis_later (S (size (station_set (db w))))
              (next_clock w)) as ((Hcfg & _) & Hdb & He).
  set (w1 := Nat.iter _ next_redis _) in *. clearbody w1.
  rewrite bind_run. cbn [logger]. rewrite bind_run.
  rewrite decide_True by done. cbn [logger]. rewrite bind_run.
  rewrite elements_empty. cbn [enumerate for_each mret M_ret].
  rewrite bind_run. cbn [time_time]. rewrite bind_run. cbn [logger].
  rewrite bind_run. cbn [Sentinel.config_ cfg emit next_clock].
  cbn [cfg next_clock] in Hcfg. rewrite Hcfg.
  eexists. split; [reflexivity|]. cbn [db events emit next_clock] in *.
  split; [done|]. by rewrite He, <- !app_assoc.
Qed.

(** X11. A sweep with no target, when Redis answers: it makes no request and
    writes nothing; it logs the header, the warning that there is no URL to
    monitor and the end of the check. With a [CHECK_INTERVAL] from 0 to a day
    it then sleeps [CHECK_INTERVAL] seconds and completes; with a negative
    one it ends there with the [ValueError] of [time.sleep]. *)
Theorem empty_sweep (c : Redis.client) (n : Z) (w : world) :
  redis_up w → sets_typed (db w) → working_set (db w) = ∅ →
  let out := Sentinel.sweep (Some c) n w in
  let interval := CHECK_INTERVAL (cfg w) in
  let logged :=
    events w ++
    [EvLog INFO
       "=== Check #{check_count}: {len(all_urls)} URLs across {len(stations)} stations ===";
     EvLog WARNING "No URLs to monitor";
     EvLog INFO
       "Check completed in {elapsed:.2f}s. Next check in {CHECK_INTERVAL}s"] in
  db (snd out) = db w ∧
  requested (events (snd out)) = requested (events w) ∧
  ((0 ≤ interval ≤ 86400)%Z →
     fst out = Ret tt ∧
     events (snd out) = logged ++ [EvSleep (inject_Z interval)]) ∧
  ((-9223372036 ≤ interval < 0)%Z →
     fst out = Raise (Raised ValueError) ∧ events (snd out) = logged).
Proof.
  intros Hup Ht Hempty out interval logged. subst out.
  destruct (empty_sweep_to_sleep c n w Hup Ht Hempty) as (w1 & -> & Hdb & He).
  fold interval logged in He |- *.
  rewrite time_sleep_db, time_sleep_requested, He.
  split; [done|]. split.
  { subst logged. rewrite requested_app. cbn. by rewrite app_nil_r. }
  split.
  - intros H. rewrite time_sleep_whole by lia. cbn [fst snd events emit].
    by rewrite He.
  - intros H. by rewrite time_sleep_negative.
Qed.

Lemma empty_sweep_witness :
  let w := quiet (bootstrap ∅) in
  let out := Sentinel.sweep the_client 1 w in
  let interval := CHECK_INTERVAL (cfg w) in
  let logged :=
    events w ++
    [EvLog INFO
       "=== Check #{check_count}: {len(all_urls)} URLs across {len(stations)} stations ===";
     EvLog WARNING "No URLs to monitor";
     EvLog INFO
       "Check completed in {elapsed:.2f}s. Next check in {CHECK_INTERVAL}s"] in
  db (snd out) = db w ∧
  requested (events (snd out)) = requested (events w) ∧
  ((0 ≤ interval ≤ 86400)%Z →
     fst out = Ret tt ∧
     events (snd out) = logged ++ [EvSleep (inject_Z interval)]) ∧
  ((-9223372036 ≤ interval < 0)%Z →
     fst out = Raise (Raised ValueError) ∧ events (snd out) = logged).
Proof.
  apply (empty_sweep (Redis.Client "localhost" 6379) 1 (quiet (bootstrap ∅))).
  - intros n _. reflexivity.
  - cbn [db quiet]. unfold bootstrap. rewrite lookup_empty. split.
    + intros v. by rewrite lookup_insert_eq.
    + intros station v.
      rewrite lookup_insert_ne, lookup_empty by (symmetry; apply urls_key_not_stations).
      done.
  - vm_compute. reflexivity.
Defined.

(* ===================================================================== *)
(** * What the monitor writes                                             *)
(* ===================================================================== *)

Lemma collect_urls_spec r (stations : list string) (acc : gset string)
  (w : world) :
  match Sentinel.collect_urls r stations acc w with
  | (Ret all_urls, w1) =>
      all_urls = acc ∪ ⋃ (urls_of (db w) <$> stations) ∧ db w1 = db w
  | (Raise _, w1) => db w1 = db w
  end.
Proof.
  revert acc w. induction stations as [|station rest IH]; intros acc w.
  { cbn. split; [|done]. by rewrite union_empty_r_L. }
  cbn [Sentinel.collect_urls]. rewrite bind_run.
  pose proof (smembers_spec r ("urls:" +:+ station) w) as Hs.
  destruct (Redis.smembers r ("urls:" +:+ station) w) as [[members|e] w1];
    [|exact Hs].
  destruct Hs as [-> Hdb]. specialize (IH (acc ∪ members_of (db w) ("urls:" +:+ station)) w1).
  destruct (Sentinel.collect_urls r rest _ w1) as [[all_urls|e] w2].
  - destruct IH as [-> Hdb2]. rewrite Hdb in *. split; [|done].
    rewrite fmap_cons, union_list_cons. unfold urls_of at 3.
    by rewrite (assoc_L (∪)).
  - by rewrite <- Hdb.
Qed.

Lemma enumerate_targets_spec r (w : world) :
  match Sentinel.enumerate_targets r w with
  | (Ret (stations, all_urls), w1) =>
      stations = station_set (db w) ∧ all_urls = working_set (db w) ∧
      db w1 = db w
  | (Raise _, w1) => db w1 = db w
  end.
Proof.
  unfold Sentinel.enumerate_targets. rewrite bind_run.
  pose proof (smembers_spec r "stations" w) as Hs.
  destruct (Redis.smembers r "stations" w) as [[stations|e] w1]; [|exact Hs].
  destruct Hs as [-> Hdb]. rewrite bind_run.
  pose proof (collect_urls_spec r (elements (members_of (db w) "stations")) ∅ w1)
    as Hc.
  destruct (Sentinel.collect_urls r _ ∅ w1) as [[all_urls|e] w2].
  - destruct Hc as [-> Hdb2]. cbn. rewrite Hdb in *.
    by rewrite union_empty_l_L.
  - by rewrite <- Hdb.
Qed.

Lemma preserves_for_each_in (R : relation (gmap string rval)) `{!PreOrder R}
  {A} (l : list A) (body : A → M unit) :
  (∀ x, x ∈ l → preserves R (body x)) → preserves R (for_each l body).
Proof.
  induction l as [|x l IH]; intros Hb; [apply preserves_ret, _|].
  cbn [for_each]. apply preserves_bind; [apply _|apply Hb; left|].
  intros _. apply IH. intros y Hy. apply Hb. by right.
Qed.

Lemma preserves_process_url_outside (touched : string → Prop) r i url :
  touched ("status:" +:+ url) →
  preserves (same_outside touched) (Sentinel.process_url r (i, url)).
Proof.
  intros Hk. unfold Sentinel.process_url.
  apply preserves_try_except; [apply _| |].
  - apply preserves_bind; [apply _|apply preserves_check_url, _|].
    intros status.
    apply preserves_bind; [apply _|by apply preserves_set_outside|]. intros _.
    apply preserves_bind; [apply _| |intros _; apply preserves_time_sleep, _].
    destruct (Sentinel.contains "UP" status); apply preserves_logger, _.
  - intros cls h Hin e. apply list_elem_of_singleton in Hin as [= -> ->].
    apply preserves_bind; [apply _|apply preserves_logger, _|]. intros _.
    apply preserves_bind; [apply _|by apply preserves_set_outside|]. intros _.
    apply preserves_ret, _.
Qed.

Lemma elem_of_enumerate (l : list string) (start i : Z) (url : string) :
  (i, url) ∈ enumerate l start → url ∈ l.
Proof.
  intros H. rewrite <- (enumerate_snd l start).
  apply list_elem_of_fmap. by exists (i, url).
Qed.

(** A sweep, in any run, changes nothing but statuses of URLs of the working
    set. *)
Lemma sweep_frame r (n : Z) (w : world) :
  same_outside (status_key_in (working_set (db w)))
    (db w) (db (snd (Sentinel.sweep r n w))).
Proof.
  unfold Sentinel.sweep. rewrite bind_run. cbn [time_time]. rewrite bind_run.
  pose proof (enumerate_targets_spec r (next_clock w)) as He.
  destruct (Sentinel.enumerate_targets r (next_clock w))
    as [[[stations all_urls]|e] w1];
    [|cbn [snd db next_clock] in *; by rewrite He].
  destruct He as (-> & -> & Hdb). cbn [db next_clock] in *.
  match goal with |- same_outside _ _ (db (snd (?k w1))) =>
    assert (Hk : preserves (same_outside
                   (status_key_in (working_set (db w)))) k);
      [|specialize (Hk w1); rewrite Hdb in Hk; exact Hk]
  end.
  apply preserves_bind; [apply _|apply preserves_logger, _|]. intros _.
  apply preserves_bind; [apply _| |intros _].
  { destruct (decide (working_set (db w) = ∅));
      [apply preserves_logger, _|apply preserves_ret, _]. }
  apply preserves_bind; [apply _| |intros _].
  { apply preserves_for_each_in; [apply _|]. intros [i url] Hin.
    apply preserves_process_url_outside. exists url. split; [|done].
    apply elem_of_elements. by apply elem_of_enumerate in Hin. }
  apply preserves_bind; [apply _|apply preserves_time_time, _|]. intros _.
  apply preserves_bind; [apply _|apply preserves_logger, _|]. intros _.
  apply preserves_bind; [apply _|apply preserves_config, _|]. intros c.
  apply preserves_time_sleep, _.
Qed.

Lemma working_set_same (d d' : gmap string rval) :
  d' !! "stations" = d !! "stations" →
  (∀ station, d' !! ("urls:" +:+ station) = d !! ("urls:" +:+ station)) →
  working_set d' = working_set d.
Proof.
  intros Hs Hu. unfold working_set, station_set, urls_of, members_of.
  rewrite Hs. f_equal. apply list_fmap_ext. intros _ station _.
  by rewrite Hu.
Qed.

Lemma status_key_in_stations (urls : gset string) :
  ¬ status_key_in urls "stations".
Proof.
  intros (url & _ & H). symmetry in H. by apply status_key_not_stations in H.
Qed.

Lemma status_key_in_urls (urls : gset string) station :
  ¬ status_key_in urls ("urls:" +:+ station).
Proof. intros (url & _ & H). by apply urls_key_not_status in H. Qed.

Lemma same_outside_working_set (urls : gset string) (d d' : gmap string rval) :
  same_outside (status_key_in urls) d d' → working_set d' = working_set d.
Proof.
  intros H. apply working_set_same.
  - apply H, status_key_in_stations.
  - intros station. apply H, status_key_in_urls.
Qed.

Lemma bootstrap_present (d : gmap string rval) :
  is_Some (d !! "stations") → bootstrap d = d.
Proof. unfold bootstrap. by intros [v ->]. Qed.

Lemma bootstrap_stations (d : gmap string rval) :
  is_Some (bootstrap d !! "stations").
Proof.
  unfold bootstrap. destruct (d !! "stations") eqn:E; [by rewrite E|].
  rewrite lookup_insert_eq. by eexists.
Qed.

Lemma bootstrap_other (d : gmap string rval) key :
  key ≠ "stations" → bootstrap d !! key = d !! key.
Proof.
  intros Hk. unfold bootstrap. destruct (d !! "stations"); [done|].
  by rewrite lookup_insert_ne.
Qed.

(** One turn of the loop, in any run: once the key [stations] is there, it
    changes nothing but statuses of URLs of the working set. *)
Lemma turn_frame r (n : Z) (w : world) :
  is_Some (db w !! "stations") →
  same_outside (status_key_in (working_set (db w))) (db w)
    (db (snd (try_except (Sentinel.sweep r n ;; mret r)
      [(redis_ConnectionError, λ e,
          logger ERROR "Lost connection to Redis: {e}" ;;
          logger INFO "Attempting to reconnect..." ;;
          Sentinel.connect_redis);
       (KeyboardInterrupt, λ _,
          logger INFO "Received shutdown signal. Exiting gracefully..." ;;
          sys_exit 0);
       (Exception, λ e,
          logger ERROR "Unexpected error in monitoring loop: {e}" ;;
          time_sleep 5 ;;
          mret r)] w))).
Proof.
  intros Hst. rewrite try_except_run, bind_run.
  pose proof (sweep_frame r n w) as Hf.
  destruct (Sentinel.sweep r n w) as [[[]|e] w0]; [exact Hf|].
  cbn [snd] in Hf.
  assert (Hst0 : is_Some (db w0 !! "stations"))
    by (rewrite Hf; [done|apply status_key_in_stations]).
  cbn [dispatch].
  destruct (isinstance e redis_ConnectionError).
  { repeat (rewrite bind_run; cbn [logger]).
    match goal with |- context [Sentinel.connect_redis ?w1] =>
      destruct (connect_redis_spec w1) as [_ Hc];
      destruct (Sentinel.connect_redis w1) as [[[c|]|[k|code]] w2]
    end; cbn [fst snd db emit] in *.
    - by rewrite Hc, bootstrap_present.
    - done.
    - destruct Hc as [_ ->]. done.
    - destruct Hc as (_ & -> & _). done. }
  destruct (isinstance e KeyboardInterrupt); [exact Hf|].
  destruct (isinstance e Exception); exact Hf.
Qed.

Lemma while_True_frame (fuel : nat) r (n : Z) (w : world) :
  is_Some (db w !! "stations") →
  same_outside (status_key_in (working_set (db w))) (db w)
    (db (snd (Sentinel.while_True fuel r n w))).
Proof.
  revert r n w. induction fuel as [|fuel IH]; intros r n w Hst; [done|].
  cbn [Sentinel.while_True]. rewrite bind_run.
  pose proof (turn_frame r (n + 1) w Hst) as Ht.
  destruct (try_except _ _ w) as [[r'|e] w1]; [|exact Ht].
  cbn [snd] in Ht.
  assert (Hst1 : is_Some (db w1 !! "stations"))
    by (rewrite Ht; [done|apply status_key_in_stations]).
  specialize (IH r' (n + 1)%Z w1 Hst1).
  rewrite (same_outside_working_set _ _ _ Ht) in IH.
  etrans; [exact Ht|exact IH].
Qed.

Lemma main_frame (fuel : nat) (w : world) :
  let d' := db (snd (Sentinel.main fuel w)) in
  (d' !! "stations" = db w !! "stations" ∨
   db w !! "stations" = None ∧
   d' !! "stations" = Some (VSet {["General"]})) ∧
  (∀ key,
     key ≠ "stations" →
     (∀ url, url ∈ working_set (bootstrap (db w)) → key ≠ "status:" +:+ url) →
     d' !! key = db w !! key).
Proof.
  intros d'.
  assert (Hd : d' = db (snd ((r ← Sentinel.connect_redis;
                              Sentinel.check_urls fuel r) w))).
  { subst d'. unfold Sentinel.main.
    by destruct ((Sentinel.connect_redis ≫= _) w) as [[[]|[]] w']. }
  rewrite Hd. clear Hd d'. rewrite bind_run.
  destruct (connect_redis_spec w) as [_ Hc].
  destruct (Sentinel.connect_redis w) as [[[c|]|[k|code]] w1];
    cbn [fst snd] in *.
  - pose proof (while_True_frame fuel (Some c) 0 w1) as Hf.
    unfold Sentinel.check_urls. rewrite Hc in Hf.
    specialize (Hf (bootstrap_stations _)). split.
    + rewrite Hf by apply status_key_in_stations.
      unfold bootstrap. destruct (db w !! "stations") eqn:E; [by left|right].
      by rewrite lookup_insert_eq.
    + intros key Hk Hu. rewrite Hf, bootstrap_other; [done|done|].
      intros (url & Hin & ->). by apply (Hu url).
  - done.
  - destruct Hc as [_ ->]. split; [by left|done].
  - destruct Hc as (_ & -> & _). split; [by left|done].
Qed.

(** X12. In any run of the monitor, whatever fails and however long it runs:
    the key [stations] holds what it held, or was absent and now holds the
    default station alone; every other key that changed is the status of a
    URL held by a station of the station set (as it is after the default
    station was created); so no URL set changes, and no status of a URL that
    no station holds is written. *)
Theorem monitor_writes_only_statuses_of_targets (fuel : nat) (w : world) :
  let d' := db (snd (Sentinel.main fuel w)) in
  (d' !! "stations" = db w !! "stations" ∨
   db w !! "stations" = None ∧
   d' !! "stations" = Some (VSet {["General"]})) ∧
  (∀ station, urls_of d' station = urls_of (db w) station) ∧
  (∀ url, ¬ referenced (bootstrap (db w)) url →
          status_of d' url = status_of (db w) url) ∧
  (∀ key,
     key ≠ "stations" →
     (∀ url, referenced (bootstrap (db w)) url → key ≠ "status:" +:+ url) →
     d' !! key = db w !! key).
Proof.
  intros d'. destruct (main_frame fuel w) as [Hs Hk]. fold d' in Hs, Hk.
  assert (Href : ∀ url, url ∈ working_set (bootstrap (db w)) →
                        referenced (bootstrap (db w)) url)
    by (intros url; apply elem_of_working_set).
  split; [exact Hs|]. split; [|split].
  - intros station. unfold urls_of, members_of.
    rewrite Hk; [done|apply urls_key_not_stations|].
    intros url _. apply urls_key_not_status.
  - intros url Hn. apply Hk; [apply status_key_not_stations|].
    intros url' Hin E. apply status_key_inj in E as ->. by apply Hn, Href.
  - intros key Hne Hu. apply Hk; [done|].
    intros url Hin. by apply Hu, Href.
Qed.

Lemma monitor_writes_only_statuses_of_targets_witness :
  db (snd (Sentinel.main 2 (quiet scenario_db))) !! "urls:Work"
  = db (quiet scenario_db) !! "urls:Work".
Proof.
  apply (monitor_writes_only_statuses_of_targets 2 (quiet scenario_db)).
  - discriminate.
  - intros url _. discriminate.
Defined.

(* ===================================================================== *)
(** * The retries of [connect_redis]                                      *)
(* ===================================================================== *)

Lemma connect_redis_try_up (w : world) :
  redis_up w →
  ∃ w', Sentinel.connect_redis_try w =
          (Ret (Some (Redis.Client (REDIS_HOST (cfg w)) (REDIS_PORT (cfg w)))),
           w') ∧
        later w w' ∧ net_n w' = net_n w ∧ db w' = bootstrap (db w) ∧
        events w' = events w ++ connected_trace (db w).
Proof.
  intros Hup.
  assert (F1 : redis_fault w (redis_n w) = None) by (apply Hup; lia).
  assert (F2 : redis_fault w (S (redis_n w)) = None) by (apply Hup; lia).
  assert (F3 : redis_fault w (S (S (redis_n w))) = None) by (apply Hup; lia).
  unfold Sentinel.connect_redis_try, bootstrap, connected_trace.
  rewrite bind_run. cbn [Sentinel.config_]. rewrite bind_run.
  unfold Redis.ping, Redis.exists_, Redis.sadd.
  rewrite command_ok by done. cbn [fst snd]. rewrite bind_run.
  rewrite command_ok by done. cbn [fst snd db with_db next_redis].
  destruct (db w !! "stations") as [v|] eqn:E.
  - eexists. split; [reflexivity|]. cbn.
    split; [unfold later; cbn; repeat split; lia|done].
  - cbn [Z.eqb]. rewrite !bind_run.
    rewrite command_ok by done. cbn [fst snd db with_db next_redis].
    rewrite E. eexists. split; [reflexivity|]. cbn.
    split; [unfold later; cbn; repeat split; lia|].
    split; [done|]. split; [done|]. by rewrite <- app_assoc.
Qed.

Lemma connect_redis_try_fault (w : world) k :
  redis_fault w (redis_n w) = Some k →
  Sentinel.connect_redis_try w = (Raise (Raised k), next_redis w).
Proof.
  intros Hf. unfold Sentinel.connect_redis_try.
  rewrite bind_run. cbn [Sentinel.config_]. rewrite bind_run.
  unfold Redis.ping. by rewrite (command_fault _ _ _ k).
Qed.

Lemma connect_redis_from_recovers (j : nat) (attempts : list Z) (w : world) :
  j < length attempts →
  Forall (λ a, a < Sentinel.max_retries - 1)%Z (take j attempts) →
  (∀ i, i < j → ∃ k, redis_fault w (redis_n w + i) = Some k ∧
                     issubclass k Exception = true) →
  (∀ n, redis_n w + j ≤ n → redis_fault w n = None) →
  ∃ w', Sentinel.connect_redis_from attempts w =
          (Ret (Some (Redis.Client (REDIS_HOST (cfg w)) (REDIS_PORT (cfg w)))),
           w') ∧
        later w w' ∧ net_n w' = net_n w ∧ db w' = bootstrap (db w) ∧
        events w' = events w ++ retried j ++ connected_trace (db w).
Proof.
  revert attempts w.
  induction j as [|j IH]; intros [|attempt rest] w Hlen Hlt Hfail Hup;
    cbn [length] in Hlen; try lia; rewrite connect_redis_from_cons.
  - destruct (connect_redis_try_up w) as (w' & -> & H).
    { intros n Hn. apply Hup. lia. }
    by exists w'.
  - destruct (Hfail 0) as (k & Hk & HE); [lia|].
    rewrite Nat.add_0_r in Hk.
    rewrite (connect_redis_try_fault w k Hk). cbn [isinstance]. rewrite HE.
    cbn [take] in Hlt. apply Forall_cons in Hlt as [Ha Hlt].
    apply Z.ltb_lt in Ha. rewrite Ha.
    set (w2 := emit _ (emit _ (next_redis w))).
    destruct (IH rest w2) as (w' & -> & Hl & Hn & Hdb & Hev).
    + lia.
    + exact Hlt.
    + intros i Hi. destruct (Hfail (S i)) as (k' & Hk' & HE'); [lia|].
      exists k'. split; [|done]. cbn. rewrite <- Hk'. f_equal. lia.
    + intros n Hn. apply Hup. cbn in Hn. lia.
    + exists w'. split; [done|].
      split; [eapply later_trans; [|exact Hl];
              eapply later_trans; [apply later_next_redis|];
              eapply later_trans; apply later_emit|].
      split; [done|]. split; [done|].
      rewrite Hev. cbn. by rewrite <- !app_assoc.
Qed.

(** X13. [connect_redis] when Redis refuses the first [j] attempts, with
    [j] at most 4, and answers from then on: it returns a client after [j]
    failed attempts, each logged and followed by a sleep of [retry_delay]
    seconds; the default station is created if the key [stations] was absent,
    and nothing else is written. *)
Theorem connect_redis_recovers (j : nat) (w : world) :
  j < 5 →
  (∀ i, i < j → ∃ k, redis_fault w (redis_n w + i) = Some k ∧
                     issubclass k Exception = true) →
  (∀ n, redis_n w + j ≤ n → redis_fault w n = None) →
  let out := Sentinel.connect_redis w in
  fst out =
    Ret (Some (Redis.Client (REDIS_HOST (cfg w)) (REDIS_PORT (cfg w)))) ∧
  db (snd out) = bootstrap (db w) ∧
  events (snd out) = events w ++ retried j ++ connected_trace (db w).
Proof.
  intros Hj Hfail Hup out. subst out. unfold Sentinel.connect_redis.
  destruct (connect_redis_from_recovers j
              (range (Z.to_nat Sentinel.max_retries)) w)
    as (w' & -> & _ & _ & Hdb & Hev); [| |done|done|done].
  - change (j < 5). lia.
  - do 5 (destruct j as [|j]; [cbn; repeat constructor; done|]). lia.
Qed.

Lemma connect_redis_recovers_witness :
  let out := Sentinel.connect_redis refused_twice in
  fst out = Ret the_client ∧
  db (snd out) = bootstrap (db refused_twice) ∧
  events (snd out) =
    events refused_twice ++ retried 2 ++ connected_trace (db refused_twice).
Proof.
  apply (connect_redis_recovers 2 refused_twice).
  - lia.
  - intros i Hi. exists redis_ConnectionError. split; [|reflexivity].
    cbn. by rewrite decide_True by lia.
  - intros n Hn. cbn in *. by rewrite decide_False by lia.
Defined.

(* ===================================================================== *)
(** * How the monitor runs and how it ends                                *)
(* ===================================================================== *)

Lemma sets_typed_same (d d' : gmap string rval) :
  d' !! "stations" = d !! "stations" →
  (∀ station, d' !! ("urls:" +:+ station) = d !! ("urls:" +:+ station)) →
  sets_typed d → sets_typed d'.
Proof.
  intros Hs Hu [H1 H2]. split.
  - intros v. rewrite Hs. apply H1.
  - intros station v. rewrite Hu. apply H2.
Qed.

Lemma sets_typed_bootstrap (d : gmap string rval) :
  sets_typed d → sets_typed (bootstrap d).
Proof.
  intros Ht. unfold bootstrap.
  destruct (d !! "stations") eqn:E; [done|]. destruct Ht as [H1 H2]. split.
  - intros v. by rewrite lookup_insert_eq.
  - intros station v.
    rewrite lookup_insert_ne by (symmetry; apply urls_key_not_stations).
    apply H2.
Qed.

Lemma frame_same_outside (urls : gset string) (d d' : gmap string rval) :
  (∀ key, (∀ url, url ∈ urls → key ≠ "status:" +:+ url) →
          d' !! key = d !! key) →
  same_outside (status_key_in urls) d d'.
Proof.
  intros H key Hk. apply H. intros url Hin ->. apply Hk. by exists url.
Qed.

Lemma sets_typed_same_outside (urls : gset string) (d d' : gmap string rval) :
  same_outside (status_key_in urls) d d' → sets_typed d → sets_typed d'.
Proof.
  intros H. apply sets_typed_same.
  - apply H, status_key_in_stations.
  - intros station. apply H, status_key_in_urls.
Qed.

Lemma recorded_same_outside (urls : gset string) (d d' : gmap string rval) l :
  (∀ url, url ∈ l → url ∈ urls → False) →
  same_outside (status_key_in urls) d d' → recorded d l → recorded d' l.
Proof.
  intros Hdisj H Hrec url Hin. destruct (Hrec url Hin) as (status & Hs & Ht).
  exists status. split; [|done]. unfold status_of in *. rewrite H; [done|].
  intros (url' & Hin' & E). apply status_key_inj in E as <-.
  by apply (Hdisj url).
Qed.

(** One turn of the loop when Redis answers and no interrupt arrives: the
    sweep goes through its targets; when its last sleep raises, the third
    clause of the loop logs the error and sleeps 5 seconds; the loop goes on
    with the same client. *)
Lemma turn_ok (c : Redis.client) (n : Z) (w : world) :
  redis_up w → net_uninterrupted w → sets_typed (db w) →
  ∃ w',
    try_except (Sentinel.sweep (Some c) n ;; mret (Some c))
      [(redis_ConnectionError, λ e,
          logger ERROR "Lost connection to Redis: {e}" ;;
          logger INFO "Attempting to reconnect..." ;;
          Sentinel.connect_redis);
       (KeyboardInterrupt, λ _,
          logger INFO "Received shutdown signal. Exiting gracefully..." ;;
          sys_exit 0);
       (Exception, λ e,
          logger ERROR "Unexpected error in monitoring loop: {e}" ;;
          time_sleep 5 ;;
          mret (Some c))] w = (Ret (Some c), w') ∧
    later w w' ∧
    requested (events w')
      = requested (events w) ++ elements (working_set (db w)) ∧
    (∀ key, (∀ url, url ∈ working_set (db w) → key ≠ "status:" +:+ url) →
            db w' !! key = db w !! key) ∧
    recorded (db w') (elements (working_set (db w))).
Proof.
  intros Hup Hnet Ht. rewrite try_except_run, bind_run.
  destruct (sweep_ok c n w Hup Hnet Ht) as (w1 & -> & Hl & Hreq & Hframe & Hrec).
  destruct (time_sleep_spec (inject_Z (CHECK_INTERVAL (cfg w))) w1)
    as [[_ ->]|(_ & k & Hk & ->)].
  - cbn [mret M_ret]. eexists. split; [reflexivity|].
    split; [eapply later_trans; [exact Hl|apply later_emit]|].
    cbn [events emit db]. rewrite requested_app. cbn. rewrite app_nil_r.
    done.
  - assert (Hcls : issubclass k redis_ConnectionError = false ∧
                   issubclass k KeyboardInterrupt = false ∧
                   issubclass k Exception = true)
      by (destruct Hk as [->| ->]; done).
    destruct Hcls as (H1 & H2 & H3).
    cbn [dispatch isinstance]. rewrite H1, H2, H3.
    rewrite bind_run. cbn [logger]. rewrite bind_run.
    rewrite (time_sleep_ok 5) by reflexivity. cbn [mret M_ret].
    eexists. split; [reflexivity|].
    split; [eapply later_trans; [exact Hl|];
            eapply later_trans; apply later_emit|].
    cbn [events emit db]. rewrite !requested_app. cbn. rewrite !app_nil_r.
    done.
Qed.

(** The loop when Redis answers and no interrupt arrives: every turn is a
    complete sweep of the same working set. *)
Lemma while_True_ok (fuel : nat) (c : Redis.client) (n : Z) (w : world) :
  redis_up w → net_uninterrupted w → sets_typed (db w) →
  ∃ w', Sentinel.while_True fuel (Some c) n w = (Ret tt, w') ∧
        later w w' ∧
        requested (events w') =
          requested (events w) ++
          concat (replicate fuel (elements (working_set (db w)))) ∧
        same_outside (status_key_in (working_set (db w))) (db w) (db w') ∧
        (fuel ≠ 0 ∨ recorded (db w) (elements (working_set (db w))) →
         recorded (db w') (elements (working_set (db w)))).
Proof.
  revert n w. induction fuel as [|fuel IH]; intros n w Hup Hnet Ht.
  { exists w. cbn. rewrite app_nil_r. split; [done|].
    split; [apply later_refl|]. split; [done|]. split; [done|].
    by intros [|]. }
  cbn [Sentinel.while_True]. rewrite bind_run.
  destruct (turn_ok c (n + 1) w Hup Hnet Ht)
    as (w1 & -> & Hl & Hreq & Hframe & Hrec).
  apply frame_same_outside in Hframe.
  pose proof (same_outside_working_set _ _ _ Hframe) as HW.
  destruct (IH (n + 1)%Z w1) as (w' & -> & Hl' & Hreq' & Hframe' & Hrec').
  { by eapply redis_up_later. }
  { by eapply net_uninterrupted_later. }
  { by eapply sets_typed_same_outside. }
  rewrite HW in *. exists w'. split; [done|].
  split; [by eapply later_trans|].
  split; [rewrite Hreq', Hreq; cbn [replicate concat]; by rewrite <- app_assoc|].
  split; [by etrans|].
  intros _. apply Hrec'. by right.
Qed.

(** X14. The monitor when Redis answers and no interrupt arrives: it neither
    exits nor crashes, however long it runs; every turn of its loop requests
    the URLs of the working set, which is that of the store after the default
    station was created; once a turn is over, each of these URLs has a status
    of the taxonomy. *)
Theorem monitor_keeps_running (fuel : nat) (w : world) :
  redis_up w → net_uninterrupted w → sets_typed (db w) →
  let out := Sentinel.main fuel w in
  let targets := elements (working_set (bootstrap (db w))) in
  fst out = Sentinel.Running ∧
  requested (events (snd out)) =
    requested (events w) ++ concat (replicate fuel targets) ∧
  (fuel ≠ 0 → recorded (db (snd out)) targets).
Proof.
  intros Hup Hnet Ht out targets. subst out targets.
  unfold Sentinel.main, Sentinel.connect_redis. rewrite bind_run.
  destruct (connect_redis_from_recovers 0
              (range (Z.to_nat Sentinel.max_retries)) w)
    as (w1 & -> & Hl & _ & Hdb & Hev).
  { change (0 < 5). lia. }
  { constructor. }
  { intros i Hi. lia. }
  { intros m Hm. apply Hup. lia. }
  unfold Sentinel.check_urls.
  destruct (while_True_ok fuel
              (Redis.Client (REDIS_HOST (cfg w)) (REDIS_PORT (cfg w))) 0 w1)
    as (w' & -> & _ & Hreq & _ & Hrec).
  { by eapply redis_up_later. }
  { by eapply net_uninterrupted_later. }
  { rewrite Hdb. by apply sets_typed_bootstrap. }
  cbn [fst snd]. rewrite Hdb in *. split; [done|]. split.
  - rewrite Hreq, Hev, !requested_app. cbn [retried app].
    assert (requested (connected_trace (db w)) = []) as ->
      by (unfold connected_trace; by destruct (db w !! "stations")).
    by rewrite app_nil_r.
  - intros Hf. apply Hrec. by left.
Qed.

Lemma monitor_keeps_running_witness :
  let out := Sentinel.main 2 (quiet scenario_db) in
  let targets := elements (working_set (bootstrap scenario_db)) in
  fst out = Sentinel.Running ∧
  requested (events (snd out)) =
    requested (events (quiet scenario_db)) ++ concat (replicate 2 targets) ∧
  (2 ≠ 0 → recorded (db (snd out)) targets).
Proof.
  apply (monitor_keeps_running 2 (quiet scenario_db)).
  - intros n _. reflexivity.
  - intros n k _ H. discriminate H.
  - exact scenario_db_typed.
Defined.

(** ** A lost connection *)

Lemma sweep_connection_lost (c : Redis.client) (n : Z) (w : world) k :
  redis_fault w (redis_n w) = Some k →
  Sentinel.sweep (Some c) n w = (Raise (Raised k), next_redis (next_clock w)).
Proof.
  intros Hf. unfold Sentinel.sweep. rewrite bind_run. cbn [time_time].
  rewrite bind_run. unfold Sentinel.enumerate_targets. rewrite bind_run.
  unfold Redis.smembers. by rewrite (command_fault _ _ _ k).
Qed.

(** X15. The loop when the connection is lost at the first command of a turn
    and Redis answers from then on: the turn reconnects at once, and each of
    the turns after it is a complete sweep of the working set; the loop goes
    on. *)
Theorem reconnection_resumes_monitoring (fuel : nat) (c : Redis.client)
  (n : Z) (w : world) (k : pyclass) :
  redis_fault w (redis_n w) = Some k →
  issubclass k redis_ConnectionError = true →
  (∀ m, redis_n w < m → redis_fault w m = None) →
  net_uninterrupted w → sets_typed (db w) →
  let out := Sentinel.while_True (S fuel) (Some c) n w in
  let targets := elements (working_set (bootstrap (db w))) in
  fst out = Ret tt ∧
  requested (events (snd out)) =
    requested (events w) ++ concat (replicate fuel targets) ∧
  (fuel ≠ 0 → recorded (db (snd out)) targets).
Proof.
  intros Hf Hk Hup Hnet Ht out targets. subst out targets.
  cbn [Sentinel.while_True]. rewrite bind_run, try_except_run, bind_run.
  rewrite (sweep_connection_lost c (n + 1) w k Hf).
  cbn [dispatch isinstance]. rewrite Hk.
  repeat (rewrite bind_run; cbn [logger]).
  set (w1 := emit _ (emit _ _)).
  assert (Hl1 : later w w1).
  { eapply later_trans; [apply later_next_clock|].
    eapply later_trans; [apply later_next_redis|].
    eapply later_trans; apply later_emit. }
  unfold Sentinel.connect_redis.
  destruct (connect_redis_from_recovers 0
              (range (Z.to_nat Sentinel.max_retries)) w1)
    as (w2 & -> & Hl2 & _ & Hdb & Hev).
  { change (0 < 5). lia. }
  { constructor. }
  { intros i Hi. lia. }
  { intros m Hm. apply Hup. cbn in Hm. lia. }
  assert (Hup2 : redis_up w2).
  { intros m Hm. destruct Hl2 as (_ & -> & _ & _ & Hn & _).
    apply Hup. cbn in Hn. lia. }
  destruct (while_True_ok fuel
              (Redis.Client (REDIS_HOST (cfg w1)) (REDIS_PORT (cfg w1)))
              (n + 1) w2)
    as (w' & -> & _ & Hreq & _ & Hrec).
  { exact Hup2. }
  { eapply net_uninterrupted_later; [|exact Hnet]. by eapply later_trans. }
  { rewrite Hdb. by apply sets_typed_bootstrap. }
  cbn [fst snd]. rewrite Hdb in *. cbn [db emit next_redis next_clock w1] in *.
  split; [done|]. split.
  - rewrite Hreq, Hev, !requested_app. cbn [retried app].
    assert (requested (connected_trace (db w)) = []) as ->
      by (unfold connected_trace; by destruct (db w !! "stations")).
    rewrite app_nil_r. f_equal. subst w1. cbn.
    rewrite !requested_app. cbn. by rewrite !app_nil_r.
  - intros Hfu. apply Hrec. by left.
Qed.

Lemma reconnection_resumes_monitoring_witness :
  let out :=
    Sentinel.while_True 2 the_client 0 connection_lost_once in
  let targets := elements (working_set (bootstrap scenario_db)) in
  fst out = Ret tt ∧
  requested (events (snd out)) =
    requested (events connection_lost_once) ++ concat (replicate 1 targets) ∧
  (1 ≠ 0 → recorded (db (snd out)) targets).
Proof.
  apply (reconnection_resumes_monitoring 1 (Redis.Client "localhost" 6379) 0
           connection_lost_once redis_ConnectionError).
  - reflexivity.
  - reflexivity.
  - intros m Hm. cbn in *. by rewrite decide_False by lia.
  - intros m k _ H. discriminate H.
  - exact scenario_db_typed.
Defined.

(** ** The ends of the monitor *)

Lemma while_True_exit_0 (fuel : nat) r n (w : world) :
  fst (Sentinel.while_True fuel r n w) = Raise (SystemExit 0) →
  shutdown_logged (events (snd (Sentinel.while_True fuel r n w))).
Proof.
  revert r n w. induction fuel as [|fuel IH]; intros r n w; [discriminate|].
  cbn [Sentinel.while_True]. rewrite bind_run, try_except_run.
  pose proof (no_exit_bind _ (λ _, mret r) (no_exit_sweep r (n + 1))
                (λ _, no_exit_ret r) w) as Hbody.
  destruct ((Sentinel.sweep r (n + 1) ≫= λ _, mret r) w) as [[r'|e] w0];
    [apply IH|].
  cbn [fst] in Hbody. destruct e as [k|code']; [|by destruct (Hbody code')].
  cbn [dispatch isinstance].
  destruct (issubclass k redis_ConnectionError).
  { repeat (rewrite bind_run; cbn [logger]).
    set (w1 := emit _ (emit _ w0)).
    destruct (connect_redis_spec w1) as [_ H].
    destruct (Sentinel.connect_redis w1) as [[r'|e] w2]; [apply IH|].
    cbn [fst snd] in *. intros [= ->]. by destruct H as (? & _). }
  destruct (issubclass k KeyboardInterrupt).
  { rewrite bind_run. cbn. intros _. by eexists. }
  destruct (issubclass k Exception).
  { rewrite bind_run. cbn [logger]. rewrite bind_run.
    rewrite (time_sleep_ok 5) by reflexivity. cbn [mret M_ret]. apply IH. }
  discriminate.
Qed.

Lemma while_True_crash (fuel : nat) r n (w : world) k :
  fst (Sentinel.while_True fuel r n w) = Raise (Raised k) →
  issubclass k Exception = false.
Proof.
  revert r n w. induction fuel as [|fuel IH]; intros r n w; [discriminate|].
  cbn [Sentinel.while_True]. rewrite bind_run, try_except_run.
  destruct ((Sentinel.sweep r (n + 1) ≫= λ _, mret r) w) as [[r'|e] w0];
    [apply IH|].
  cbn [dispatch].
  destruct (isinstance e redis_ConnectionError) eqn:HC.
  { repeat (rewrite bind_run; cbn [logger]).
    set (w1 := emit _ (emit _ w0)).
    destruct (connect_redis_spec w1) as [_ H].
    destruct (Sentinel.connect_redis w1) as [[r'|e'] w2]; [apply IH|].
    cbn [fst snd] in *. intros [= ->]. by destruct H as [H _]. }
  destruct (isinstance e KeyboardInterrupt) eqn:HK.
  { rewrite bind_run. cbn. discriminate. }
  destruct (isinstance e Exception) eqn:HE.
  { rewrite bind_run. cbn [logger]. rewrite bind_run.
    rewrite (time_sleep_ok 5) by reflexivity. cbn [mret M_ret]. apply IH. }
  cbn. intros [= ->]. done.
Qed.

Lemma check_url_interrupted url hdrs (w : world) :
  net w (net_n w) = HttpRaise KeyboardInterrupt →
  Sentinel.check_url url hdrs w =
  (Raise (Raised KeyboardInterrupt), after_get url w).
Proof. intros H. by rewrite (check_url_raise _ _ _ _ H). Qed.

Lemma iter_next_redis_net (n : nat) (w : world) :
  net_n (Nat.iter n next_redis w) = net_n w.
Proof. induction n as [|n IH]; [done|]. by rewrite Nat.iter_succ. Qed.

(** A sweep with a target whose first request is interrupted. *)
Lemma sweep_interrupted (c : Redis.client) (n : Z) (w : world) :
  redis_up w → sets_typed (db w) → working_set (db w) ≠ ∅ →
  net w (net_n w) = HttpRaise KeyboardInterrupt →
  ∃ w', Sentinel.sweep (Some c) n w = (Raise (Raised KeyboardInterrupt), w') ∧
        db w' = db w ∧
        ∃ url, url ∈ working_set (db w) ∧
               requested (events w') = requested (events w) ++ [url].
Proof.
  intros Hup Ht Hne Hnet. unfold working_set in Hne.
  unfold Sentinel.sweep. rewrite bind_run. cbn [time_time].
  rewrite bind_run, enumerate_targets_ok;
    [|eapply redis_up_later; [apply later_next_clock|exact Hup]|exact Ht].
  cbn [db next_clock].
  destruct (iter_next_redis_later (S (size (station_set (db w))))
              (next_clock w)) as ((_ & _ & Hnetf & _) & Hdb & He).
  pose proof (iter_next_redis_net (S (size (station_set (db w))))
                (next_clock w)) as Hn.
  set (w1 := Nat.iter _ next_redis _) in *. clearbody w1.
  cbn [net net_n db events next_clock] in *.
  rewrite bind_run. cbn [logger]. rewrite bind_run.
  rewrite decide_False by done. cbn [mret M_ret]. rewrite bind_run.
  destruct (elements (⋃ (urls_of (db w) <$> elements (station_set (db w)))))
    as [|url rest] eqn:E.
  { apply elements_empty_inv in E. by apply leibniz_equiv in E. }
  cbn [enumerate for_each]. rewrite bind_run.
  unfold Sentinel.process_url. rewrite try_except_run, bind_run.
  rewrite check_url_interrupted
    by (cbn [net net_n emit]; by rewrite Hnetf, Hn).
  cbn [dispatch isinstance].
  eexists. split; [reflexivity|]. split; [cbn; by rewrite Hdb|].
  exists url. split.
  - unfold working_set. apply elem_of_elements. rewrite E. left.
  - cbn. rewrite He, !requested_app. cbn. by rewrite app_nil_r.
Qed.

Lemma main_exit_0 (fuel : nat) (w : world) :
  fst (Sentinel.main fuel w) = Sentinel.Exited 0 →
  shutdown_logged (events (snd (Sentinel.main fuel w))).
Proof.
  unfold Sentinel.main. rewrite bind_run.
  destruct (connect_redis_spec w) as [_ H].
  destruct (Sentinel.connect_redis w) as [[r|[k|code']] w1];
    cbn [fst snd] in *.
  - pose proof (while_True_exit_0 fuel r 0 w1) as Hloop.
    fold (Sentinel.check_urls fuel r) in Hloop.
    destruct (Sentinel.check_urls fuel r w1) as [[[]|[k|code']] w2];
      cbn [fst snd] in *; try discriminate.
    intros [= ->]. by apply Hloop.
  - discriminate.
  - intros [= ->]. by destruct H as (? & _).
Qed.

(** X16. An interrupt during the first request of the first sweep stops the
    monitor: the process exits with the status 0, the record of the shutdown
    is its last event, and no status has been written. *)
Theorem interrupt_stops_the_monitor (fuel : nat) (w : world) :
  redis_up w → sets_typed (db w) →
  working_set (bootstrap (db w)) ≠ ∅ →
  net w (net_n w) = HttpRaise KeyboardInterrupt →
  let out := Sentinel.main (S fuel) w in
  fst out = Sentinel.Exited 0 ∧
  db (snd out) = bootstrap (db w) ∧
  shutdown_logged (events (snd out)).
Proof.
  intros Hup Ht Hne Hnet out.
  assert (H : fst out = Sentinel.Exited 0 ∧ db (snd out) = bootstrap (db w)).
  { subst out.
    unfold Sentinel.main, Sentinel.connect_redis. rewrite bind_run.
    destruct (connect_redis_from_recovers 0
                (range (Z.to_nat Sentinel.max_retries)) w)
      as (w1 & -> & Hl & Hn & Hdb & _).
    { change (0 < 5). lia. }
    { constructor. }
    { intros i Hi. lia. }
    { intros m Hm. apply Hup. lia. }
    unfold Sentinel.check_urls. cbn [Sentinel.while_True].
    rewrite bind_run, try_except_run, bind_run.
    destruct (sweep_interrupted
                (Redis.Client (REDIS_HOST (cfg w)) (REDIS_PORT (cfg w)))
                (0 + 1) w1) as (w2 & -> & Hdb2 & _).
    { by eapply redis_up_later. }
    { rewrite Hdb. by apply sets_typed_bootstrap. }
    { by rewrite Hdb. }
    { destruct Hl as (_ & _ & -> & _). by rewrite Hn. }
    cbn [dispatch isinstance].
    replace (issubclass KeyboardInterrupt redis_ConnectionError) with false
      by reflexivity.
    replace (issubclass KeyboardInterrupt KeyboardInterrupt) with true
      by reflexivity.
    rewrite bind_run. cbn [logger sys_exit raise fst snd db emit].
    by rewrite Hdb2, Hdb. }
  destruct H as [Hexit Hdb]. split; [done|]. split; [done|].
  by apply main_exit_0.
Qed.

Lemma interrupt_stops_the_monitor_witness :
  let out := Sentinel.main 1 (always_interrupted single_db) in
  fst out = Sentinel.Exited 0 ∧
  db (snd out) = bootstrap (db (always_interrupted single_db)) ∧
  shutdown_logged (events (snd out)).
Proof.
  apply (interrupt_stops_the_monitor 0 (always_interrupted single_db)).
  - intros n _. reflexivity.
  - exact single_db_typed.
  - vm_compute. discriminate.
  - reflexivity.
Defined.

(** X17. In any run, a monitor that exits with the status 0 has logged the
    shutdown as its last event: the status 0 comes from the handler of the
    interrupt and from nowhere else. *)
Theorem exit_0_is_a_shutdown (fuel : nat) (w : world) :
  fst (Sentinel.main fuel w) = Sentinel.Exited 0 →
  shutdown_logged (events (snd (Sentinel.main fuel w))).
Proof. apply main_exit_0. Qed.

Lemma exit_0_is_a_shutdown_witness :
  shutdown_logged
    (events (snd (Sentinel.main 3 (always_interrupted scenario_db)))).
Proof.
  apply (exit_0_is_a_shutdown 3 (always_interrupted scenario_db)).
  vm_compute. reflexivity.
Defined.

Lemma main_crash (fuel : nat) (w : world) (k : pyclass) :
  fst (Sentinel.main fuel w) = Sentinel.Crashed k →
  issubclass k Exception = false.
Proof.
  unfold Sentinel.main. rewrite bind_run.
  destruct (connect_redis_spec w) as [_ H].
  destruct (Sentinel.connect_redis w) as [[r|[k'|code']] w1];
    cbn [fst snd] in *.
  - pose proof (while_True_crash fuel r 0 w1) as Hloop.
    fold (Sentinel.check_urls fuel r) in Hloop.
    destruct (Sentinel.check_urls fuel r w1) as [[[]|[k'|code']] w2];
      cbn [fst snd] in *; try discriminate.
    intros [= ->]. by apply Hloop.
  - intros [= ->]. by destruct H as [H _].
  - discriminate.
Qed.

Lemma getenv_int_None (environ : gmap string string) name default :
  Sentinel.getenv_int environ name default = None ↔
  ∃ value, environ !! name = Some value ∧ int_of_str value = None.
Proof.
  unfold Sentinel.getenv_int. destruct (environ !! name) as [value|].
  - split; [by exists value|]. by intros (? & [= <-] & ?).
  - split; [done|]. by intros (? & ? & _).
Qed.

(** The configuration is not read exactly when one of the three numbers is
    set to a text that [int] refuses. *)
Lemma load_config_None (environ : gmap string string) :
  Sentinel.load_config environ = None ↔
  ∃ name value,
    name ∈ ["REDIS_DB_PORT"; "CHECK_INTERVAL"; "REQUEST_TIMEOUT"] ∧
    environ !! name = Some value ∧ int_of_str value = None.
Proof.
  unfold Sentinel.load_config. split.
  - destruct (Sentinel.getenv_int environ "REDIS_DB_PORT" 6379) eqn:E1.
    2: { intros _. apply getenv_int_None in E1 as (value & ? & ?).
         exists "REDIS_DB_PORT", value. set_solver. }
    destruct (Sentinel.getenv_int environ "CHECK_INTERVAL" 10) eqn:E2.
    2: { intros _. apply getenv_int_None in E2 as (value & ? & ?).
         exists "CHECK_INTERVAL", value. set_solver. }
    destruct (Sentinel.getenv_int environ "REQUEST_TIMEOUT" 5) eqn:E3.
    2: { intros _. apply getenv_int_None in E3 as (value & ? & ?).
         exists "REQUEST_TIMEOUT", value. set_solver. }
    discriminate.
  - intros (name & value & Hin & Hv & Hi).
    assert (Hnone : ∀ default,
              Sentinel.getenv_int environ name default = None)
      by (intros default; apply getenv_int_None; by exists value).
    apply elem_of_cons in Hin as [->|Hin]; [by rewrite Hnone|].
    destruct (Sentinel.getenv_int environ "REDIS_DB_PORT" 6379); [|done].
    apply elem_of_cons in Hin as [->|Hin]; [by rewrite Hnone|].
    destruct (Sentinel.getenv_int environ "CHECK_INTERVAL" 10); [|done].
    apply list_elem_of_singleton in Hin as ->. by rewrite Hnone.
Qed.

(** X18. What ends the monitor with an uncaught exception. When
    [REDIS_DB_PORT], [CHECK_INTERVAL] or [REQUEST_TIMEOUT] is set to a text
    that [int] refuses, the process ends with the [ValueError] of [int] when
    the module is loaded, before anything is logged or sent. That is the only
    exception deriving from [Exception] that ends the process: from
    [connect_redis()] on, in any run, an uncaught exception that ends the
    process is outside [Exception], such as an interrupt that arrives during
    a Redis command of [connect_redis]. *)
Theorem no_Exception_ends_the_monitor (environ : gmap string string)
  (fuel : nat) (w : world) :
  ((∃ name value,
      name ∈ ["REDIS_DB_PORT"; "CHECK_INTERVAL"; "REQUEST_TIMEOUT"] ∧
      environ !! name = Some value ∧ int_of_str value = None) →
   Sentinel.program environ fuel w = (Sentinel.Crashed ValueError, w)) ∧
  (∀ k, fst (Sentinel.program environ fuel w) = Sentinel.Crashed k →
        issubclass k Exception = true →
        k = ValueError ∧
        snd (Sentinel.program environ fuel w) = w ∧
        ∃ name value,
          name ∈ ["REDIS_DB_PORT"; "CHECK_INTERVAL"; "REQUEST_TIMEOUT"] ∧
          environ !! name = Some value ∧ int_of_str value = None) ∧
  (∀ k, fst (Sentinel.main fuel w) = Sentinel.Crashed k →
        issubclass k Exception = false).
Proof.
  split; [|split; [|intros k; apply main_crash]].
  - intros H. apply load_config_None in H.
    unfold Sentinel.program. by rewrite H.
  - intros k. unfold Sentinel.program.
    destruct (Sentinel.load_config environ) as [c|] eqn:E.
    + intros Hk HE. apply main_crash in Hk. congruence.
    + intros [= <-] _. split; [done|]. split; [done|].
      by apply load_config_None.
Qed.

Lemma no_Exception_ends_the_monitor_witness :
  Sentinel.program malformed_environ 1 (quiet single_db)
  = (Sentinel.Crashed ValueError, quiet single_db).
Proof.
  apply (no_Exception_ends_the_monitor malformed_environ 1 (quiet single_db)).
  exists "CHECK_INTERVAL", "ten".
  split; [by right; left|]. split; reflexivity.
Defined.

(* ===================================================================== *)
(** * The dashboard and the monitor together                              *)
(* ===================================================================== *)

(** X19. A new URL and the sweep that follows, when Redis answers and no
    interrupt arrives. [add_url] leaves the URL with the status [PENDING].
    If its station is in the station set, the sweep requests the URL and
    replaces [PENDING] by a status of the taxonomy. If the station is not in
    the station set ([add_url] does not create it) and no station of the set
    holds the URL, the sweep does not request it and the status stays
    [PENDING]. *)
Theorem added_url_and_the_next_sweep (c c' : Redis.client)
  (form : gmap string string) (station : string) (n : Z) (w : world) :
  let url := normalized (default EmptyString (form !! "url")) in
  let w1 := snd (Dashboard.add_url (Some c) form w) in
  let w2 := snd (Sentinel.sweep (Some c') n w1) in
  form !! "station" = Some station → station ≠ EmptyString →
  strip (default EmptyString (form !! "url")) ≠ EmptyString →
  redis_up w → net_uninterrupted w → sets_typed (db w) →
  (url ∉ urls_of (db w) station) →
  status_of (db w1) url = Some (VStr "PENDING") ∧
  requested (events w2) =
    requested (events w1) ++ elements (working_set (db w1)) ∧
  (station ∈ station_set (db w) →
   url ∈ working_set (db w1) ∧
   ∃ status, status_of (db w2) url = Some (VStr status) ∧
             in_taxonomy status = true) ∧
  ((station ∉ station_set (db w)) → ¬ referenced (db w) url →
   (url ∉ working_set (db w1)) ∧
   status_of (db w2) url = Some (VStr "PENDING")).
Proof.
  intros url w1 w2 Hst Hne Hraw Hup Hnet Ht Hnin.
  pose proof (add_url_ok c form station w Hst Hne Hraw Hup Ht Hnin) as Hadd.
  fold url w1 in Hadd.
  pose proof (advances_add_url (Some c) form w) as Hl. fold w1 in Hl.
  assert (Hstations : db w1 !! "stations" = db w !! "stations").
  { rewrite Hadd, !lookup_insert_ne; [done| |].
    - apply urls_key_not_stations.
    - apply status_key_not_stations. }
  assert (Hurls : ∀ s, s ≠ station →
            db w1 !! ("urls:" +:+ s) = db w !! ("urls:" +:+ s)).
  { intros s Hs. rewrite Hadd, !lookup_insert_ne; [done| |].
    - intros E. by apply urls_key_inj in E.
    - intros E. symmetry in E. by apply urls_key_not_status in E. }
  assert (Hstation : db w1 !! ("urls:" +:+ station)
                     = Some (VSet ({[url]} ∪ urls_of (db w) station))).
  { rewrite Hadd, lookup_insert_ne, lookup_insert_eq; [done|].
    intros E. symmetry in E. by apply urls_key_not_status in E. }
  assert (Ht1 : sets_typed (db w1)).
  { destruct Ht as [H1 H2]. split.
    - intros v. rewrite Hstations. apply H1.
    - intros s v. destruct (decide (s = station)) as [->|Hs].
      + by rewrite Hstation.
      + rewrite Hurls by done. apply H2. }
  destruct (sweep_after c' n w1) as (_ & Hreq & Hframe & Hrec).
  { by eapply redis_up_later. }
  { by eapply net_uninterrupted_later. }
  { exact Ht1. }
  fold w2 in Hreq, Hframe, Hrec.
  assert (Hpending : status_of (db w1) url = Some (VStr "PENDING"))
    by (unfold status_of; by rewrite Hadd, lookup_insert_eq).
  split; [exact Hpending|]. split; [exact Hreq|]. split.
  - intros Hin.
    assert (Hw : url ∈ working_set (db w1)).
    { apply elem_of_working_set. exists station. split.
      - unfold station_set, members_of in *. by rewrite Hstations.
      - unfold urls_of, members_of. rewrite Hstation. set_solver. }
    split; [exact Hw|]. apply Hrec. by apply elem_of_elements.
  - intros Hout Hnref.
    assert (Hw : url ∉ working_set (db w1)).
    { intros Hw. apply elem_of_working_set in Hw as (s & Hs & Hu).
      unfold station_set, members_of in Hs. rewrite Hstations in Hs.
      assert (s ≠ station) by (intros ->; by apply Hout).
      unfold urls_of, members_of in Hu. rewrite Hurls in Hu by done.
      apply Hnref. by exists s. }
    split; [exact Hw|]. unfold status_of in *. rewrite Hframe; [done|].
    intros url' Hin E. apply status_key_inj in E as <-. by apply Hw.
Qed.

Lemma added_url_and_the_next_sweep_witness :
  let form := form_of [("url", "example.org/"); ("station", "General")] in
  let w1 := snd (Dashboard.add_url the_client form (quiet single_db)) in
  let w2 := snd (Sentinel.sweep the_client 1 w1) in
  status_of (db w1) "https://example.org" = Some (VStr "PENDING") ∧
  requested (events w2) =
    requested (events w1) ++ elements (working_set (db w1)) ∧
  ("General" ∈ station_set single_db →
   "https://example.org" ∈ working_set (db w1) ∧
   ∃ status, status_of (db w2) "https://example.org" = Some (VStr status) ∧
             in_taxonomy status = true) ∧
  (("General" ∉ station_set single_db) →
   ¬ referenced single_db "https://example.org" →
   ("https://example.org" ∉ working_set (db w1)) ∧
   status_of (db w2) "https://example.org" = Some (VStr "PENDING")).
Proof.
  apply (added_url_and_the_next_sweep (Redis.Client "localhost" 6379)
           (Redis.Client "localhost" 6379)
           (form_of [("url", "example.org/"); ("station", "General")])
           "General" 1 (quiet single_db)).
  - reflexivity.
  - discriminate.
  - vm_compute. discriminate.
  - intros n _. reflexivity.
  - intros n k _ H. discriminate H.
  - exact single_db_typed.
  - vm_compute. discriminate.
Defined.

(* ===================================================================== *)
(** * A dashboard without a connection                                    *)
(* ===================================================================== *)

(** X20. The dashboard does not reconnect. If the ping made when the module
    is loaded fails with an [Exception], the global client is [None]. With
    that client every view answers without a Redis command, in any world,
    also one in which Redis answers again: the four views that change the
    store flash an error and redirect to [/], [index] returns the error page
    with the status 503 and [api_status] the JSON error with the status 503;
    the store and the environment are as they were. *)
Theorem dashboard_does_not_reconnect (w0 : world) (k : pyclass)
  (form : gmap string string) (w : world) :
  redis_fault w0 (redis_n w0) = Some k → issubclass k Exception = true →
  fst (Dashboard.connect w0) = Ret None ∧
  Dashboard.add_station None form w
    = (Ret (Dashboard.Redirect "/"), emit (EvFlash "error") w) ∧
  Dashboard.delete_station None form w
    = (Ret (Dashboard.Redirect "/"), emit (EvFlash "error") w) ∧
  Dashboard.add_url None form w
    = (Ret (Dashboard.Redirect "/"), emit (EvFlash "error") w) ∧
  Dashboard.delete_url None form w
    = (Ret (Dashboard.Redirect "/"), emit (EvFlash "error") w) ∧
  Dashboard.index None w
    = (Ret (Dashboard.ErrorPage "Cannot connect to Redis database" 503), w) ∧
  Dashboard.api_status None w
    = (Ret (Dashboard.JsonError "Database connection failed" 503), w).
Proof.
  intros Hf HE. split; [|done].
  unfold Dashboard.connect. rewrite try_except_run, bind_run.
  cbn [Sentinel.config_]. rewrite bind_run. unfold Redis.ping.
  rewrite (command_fault _ _ _ k) by done.
  cbn [dispatch isinstance]. by rewrite HE.
Qed.

Lemma dashboard_does_not_reconnect_witness :
  let form := form_of [("name", "Home")] in
  let w := quiet single_db in
  fst (Dashboard.connect unreachable) = Ret None ∧
  Dashboard.add_station None form w
    = (Ret (Dashboard.Redirect "/"), emit (EvFlash "error") w) ∧
  Dashboard.delete_station None form w
    = (Ret (Dashboard.Redirect "/"), emit (EvFlash "error") w) ∧
  Dashboard.add_url None form w
    = (Ret (Dashboard.Redirect "/"), emit (EvFlash "error") w) ∧
  Dashboard.delete_url None form w
    = (Ret (Dashboard.Redirect "/"), emit (EvFlash "error") w) ∧
  Dashboard.index None w
    = (Ret (Dashboard.ErrorPage "Cannot connect to Redis database" 503), w) ∧
  Dashboard.api_status None w
    = (Ret (Dashboard.JsonError "Database connection failed" 503), w).
Proof.
  apply (dashboard_does_not_reconnect unreachable redis_ConnectionError
           (form_of [("name", "Home")]) (quiet single_db)).
  - reflexivity.
  - reflexivity.
Defined.
